(** * generate_icons.py: the icon renderer and its batch driver

    The script draws three square RGBA icons (16, 48 and 128 pixels) with a
    vertical gradient, a white outline and three white guide lines, and saves
    them as [icons/icon<size>.png].

    Layout of this development:
    - [B64]: Python's [float] (IEEE 754 binary64, round to nearest even) as
      exact rationals with the rounding written out;
    - [Imaging]: the raster canvas and the drawing primitives of the imaging
      library that the script calls ([Image.new], [ImageDraw.rectangle],
      [ImageDraw.line]);
    - [create_icon]: the renderer, as the list of drawing calls it issues
      and the canvas they leave;
    - [Driver]: the module-level code of the script, run against a small
      model of the working directory and of standard output. *)

From Stdlib Require Import ZArith QArith Qround Qabs Qpower Lia Lqa Floats Ascii.
From stdpp Require Import base tactics option list strings gmap pretty.

Local Open Scope Z_scope.

(** ** Python floats *)

Module B64.

Local Open Scope Q_scope.

(** Nearest integer, ties to the even one. *)
Definition rne (x : Q) : Z :=
  let f := Qfloor x in
  match Qcompare (x - inject_Z f) (1 # 2) with
  | Lt => f
  | Gt => (f + 1)%Z
  | Eq => if Z.even f then f else (f + 1)%Z
  end.

(** [floor (log2 |x|)] for [x <> 0]. *)
Definition ilog2 (x : Q) : Z :=
  let l := (Z.log2 (Z.abs (Qnum x)) - Z.log2 (Zpos (Qden x)))%Z in
  if Qle_bool (2 ^ l) (Qabs x) then l else (l - 1)%Z.

(** The significand of [x]: [x] scaled into [[2^52, 2^53)]. *)
Definition significand (x : Q) : Q := x / 2 ^ (ilog2 x - 52).

(** Rounding of a real (here: rational) result to the nearest binary64
    value: 53 significant bits, ties to even.  The exponent is not
    bounded: neither overflow nor the subnormal range is reachable from
    the magnitudes the script computes with. *)
Definition round (x : Q) : Q :=
  if Qeq_bool x 0 then 0
  else Qred (inject_Z (rne (significand x)) * 2 ^ (ilog2 x - 52)).

(** [float(z)], the conversion applied to an [int] operand of a mixed
    [int]/[float] operation. *)
Definition of_int (z : Z) : Q := round (inject_Z z).

(** [a / b] on two [int]s: the correctly rounded quotient. *)
Definition truediv (a b : Z) : Q := round (inject_Z a / inject_Z b).

(** A decimal literal [n / 10^k], read to the nearest binary64 value. *)
Definition literal (n : Z) (k : nat) : Q :=
  round (inject_Z n / inject_Z (10 ^ Z.of_nat k)).

Definition mul (x y : Q) : Q := round (x * y).
Definition add (x y : Q) : Q := round (x + y).

(** [int(x)]: truncation toward zero. *)
Definition trunc (x : Q) : Z := Z.quot (Qnum x) (Zpos (Qden x)).

End B64.

(** ** The imaging library

    The canvas and the three entry points of the imaging library that the
    script uses.  The library is not part of the repository; its drawing
    primitives are modelled by the set of pixels each one overwrites.  A
    drawing context opened on an RGBA canvas does not blend: every pixel a
    primitive touches is replaced by the ink, alpha channel included. *)

(** An RGBA tuple [(r, g, b, a)]. *)
Definition color : Type := Z * Z * Z * Z.

Definition alpha (c : color) : Z := c.2.

Record Image := mkImage {
  mode : string;
  xsize : Z;
  ysize : Z;
  image32 : list (list color)   (* rows, top to bottom *)
}.

Module Imaging.

(** Channel values of an ink are clipped to 0..255. *)
Definition clip8 (v : Z) : Z := Z.max 0 (Z.min 255 v).

Definition getink (c : color) : color :=
  let '(r, g, b, a) := c in (clip8 r, clip8 g, clip8 b, clip8 a).

(** [Image.new(mode, size, color)]. *)
Definition new (mode : string) (size : Z * Z) (c : color) : Image :=
  {| mode := mode; xsize := size.1; ysize := size.2;
     image32 := replicate (Z.to_nat size.2) (replicate (Z.to_nat size.1) (getink c)) |}.

(** The pixel at column [x], row [y]; [None] outside the buffer. *)
Definition pixel_at (im : Image) (x y : Z) : option color :=
  if bool_decide (0 <= x /\ 0 <= y)
  then image32 im !! Z.to_nat y ≫= λ row, row !! Z.to_nat x
  else None.

(** Overwrite with [ink] every pixel of the buffer that lies in [region];
    coordinates outside the buffer are clipped away. *)
Definition paint (region : Z → Z → bool) (ink : color) (im : Image) : Image :=
  {| mode := mode im; xsize := xsize im; ysize := ysize im;
     image32 :=
       imap (λ j row,
               imap (λ i old, if region (Z.of_nat i) (Z.of_nat j) then ink else old) row)
            (image32 im) |}.

Definition between (a b v : Z) : bool :=
  bool_decide (Z.min a b <= v <= Z.max a b).

(** The filled box: both corners are inclusive. *)
Definition in_box (xy : Z * Z * Z * Z) (x y : Z) : bool :=
  let '(x0, y0, x1, y1) := xy in between x0 x1 x && between y0 y1 y.

(** The outline of width [w]: the pixels of the box that are not in the
    box shrunk by [w] on every side. *)
Definition in_outline (xy : Z * Z * Z * Z) (w : Z) (x y : Z) : bool :=
  let '(x0, y0, x1, y1) := xy in
  let xl := Z.min x0 x1 in let xr := Z.max x0 x1 in
  let yt := Z.min y0 y1 in let yb := Z.max y0 y1 in
  in_box xy x y &&
  negb (bool_decide (xl + w <= x <= xr - w /\ yt + w <= y <= yb - w)).

(** A horizontal segment of width [w] from [(x0, y)] to [(x1, y)]: the
    library fills the polygon spanned by the segment moved up by
    [ceil (w/2) - 1] and down by [floor (w/2)] rows. *)
Definition in_hband (x0 x1 y0 w : Z) (x y : Z) : bool :=
  between x0 x1 x &&
  bool_decide (y0 - ((w + 1) / 2 - 1) <= y <= y0 + w / 2).

Definition draw_rectangle (xy : Z * Z * Z * Z) (ink : color) (fill : bool)
    (width : Z) (im : Image) : Image :=
  if fill then paint (in_box xy) ink im
  else paint (in_outline xy (if width =? 0 then 1 else width)) ink im.

(** A segment with [width >= 2].  A segment whose ends coincide is a
    single point.  The script draws horizontal segments only; a slanted
    one would go through the library's polygon filler, which is not
    modelled: such a call leaves the canvas as it is here. *)
Definition draw_wide_line (p0 p1 : Z * Z) (ink : color) (width : Z)
    (im : Image) : Image :=
  let '(x0, y0) := p0 in let '(x1, y1) := p1 in
  if bool_decide (x0 = x1 /\ y0 = y1)
  then paint (λ x y, bool_decide (x = x0 /\ y = y0)) ink im
  else if bool_decide (y0 = y1)
  then paint (in_hband x0 x1 y0 width) ink im
  else im.

End Imaging.

(** The calls made on the drawing context [draw = ImageDraw.Draw(img)]. *)
Inductive draw_call :=
| rectangle (xy : Z * Z * Z * Z) (fill outline : option color) (width : Z)
| line (xy : (Z * Z) * (Z * Z)) (fill : color) (width : Z).

Module ImageDraw.

(** The default ink of a context on an RGBA canvas. *)
Definition default_ink : color := (255, 255, 255, 255).

(** [draw.rectangle(xy, fill, outline, width)]: the fill first, the
    outline over it. *)
Definition draw_rect (xy : Z * Z * Z * Z) (fill outline : option color)
    (width : Z) (im : Image) : Image :=
  let ink :=
    match outline, fill with
    | None, None => Some default_ink
    | _, _ => Imaging.getink <$> outline
    end in
  let fill_ink := Imaging.getink <$> fill in
  let im :=
    match fill_ink with
    | Some f => Imaging.draw_rectangle xy f true 1 im
    | None => im
    end in
  match ink with
  | Some i =>
      if bool_decide (ink ≠ fill_ink /\ width ≠ 0)
      then Imaging.draw_rectangle xy i false width im
      else im
  | None => im
  end.

(** [draw.line([p0, p1], fill, width)] for the widths the script uses. *)
Definition draw_line (xy : (Z * Z) * (Z * Z)) (fill : color) (width : Z)
    (im : Image) : Image :=
  Imaging.draw_wide_line xy.1 xy.2 (Imaging.getink fill) width im.

Definition draw (im : Image) (c : draw_call) : Image :=
  match c with
  | rectangle xy fill outline width => draw_rect xy fill outline width im
  | line xy fill width => draw_line xy fill width im
  end.

End ImageDraw.

(** ** The renderer: [create_icon] *)

(** The colour of background row [y]:
    [ratio = y / size], [r = int(139 + (59 - 139) * ratio)], and so on. *)
Definition gradient (size y : Z) : color :=
  let ratio := B64.truediv y size in
  let r := B64.trunc (B64.add (B64.of_int 139) (B64.mul (B64.of_int (59 - 139)) ratio)) in
  let g := B64.trunc (B64.add (B64.of_int 92) (B64.mul (B64.of_int (130 - 92)) ratio)) in
  let b := B64.trunc (B64.add (B64.of_int 246) (B64.mul (B64.of_int (246 - 246)) ratio)) in
  (r, g, b, 255).

(** The loop [for y in range(size)]: one filled rectangle per row. *)
Definition background_calls (size : Z) : list draw_call :=
  (λ y, rectangle (0, y, size, y + 1) (Some (gradient size y)) None 1) <$> seqZ 0 size.

(** [padding = int(size * 0.15)]. *)
Definition padding (size : Z) : Z :=
  B64.trunc (B64.mul (B64.of_int size) (B64.literal 15 2)).

(** [line_width = max(2, size // 32)]. *)
Definition line_width (size : Z) : Z := Z.max 2 (size / 32).

(** [int((size - 2 * padding) * 0.d)] for the one-digit literal [0.d]. *)
Definition inner_part (size : Z) (d : Z) : Z :=
  B64.trunc (B64.mul (B64.of_int (size - 2 * padding size)) (B64.literal d 1)).

Definition line_start_x (size : Z) : Z := padding size + inner_part size 2.
Definition line_end_x (size : Z) : Z := padding size + inner_part size 8.
Definition line1_y (size : Z) : Z := padding size + inner_part size 3.
Definition line2_y (size : Z) : Z := padding size + inner_part size 5.
Definition line3_y (size : Z) : Z := padding size + inner_part size 7.

Definition white : color := (255, 255, 255, 255).

(** The outline and the three guide lines, in the order they are drawn. *)
Definition stroke_calls (size : Z) : list draw_call :=
  let rect_coords :=
    (padding size, padding size, size - padding size, size - padding size) in
  [ rectangle rect_coords None (Some white) (line_width size);
    line ((line_start_x size, line1_y size), (line_end_x size, line1_y size))
         white (line_width size);
    line ((line_start_x size, line2_y size), (line_end_x size, line2_y size))
         white (line_width size);
    line ((line_start_x size, line3_y size),
          (line_end_x size - inner_part size 2, line3_y size))
         white (line_width size) ].

(** The canvas after the background loop. *)
Definition background (size : Z) : Image :=
  foldl ImageDraw.draw (Imaging.new "RGBA" (size, size) (0, 0, 0, 0))
        (background_calls size).

Definition create_icon (size : Z) : Image :=
  foldl ImageDraw.draw (background size) (stroke_calls size).

(** ** The batch driver

    The module-level code of the script, run against the part of the
    operating system it touches: the working directory as a tree of named
    entries, and standard output.  An entry of the working directory is a
    file, a directory, or a symbolic link whose target is a relative path
    below the working directory; the system calls follow such links as
    the operating system does.  Below an entry there are files and
    directories only: links inside subdirectories, links that lead out of
    the working directory, permissions and disk space are outside this
    model. *)

(** What a saved file holds: the PNG encoding of a canvas. *)
Inductive file_data :=
| PNG (im : Image).

#[warnings="-register-all"]
Inductive node :=
| File (data : file_data)
| Dir (entries : gmap string node).

(** An entry of the working directory. *)
Inductive entry :=
| Plain (n : node)
| Link (target : string).

Inductive OSError :=
| FileExistsError
| FileNotFoundError
| NotADirectoryError
| IsADirectoryError
| ELOOP.

(** The requests the script makes, in the order it makes them. *)
Inductive call :=
| PathExists (path : string)
| Makedirs (path : string)
| Save (path : string) (im : Image)
| PrintLine (text : string).

Record world := mkWorld {
  cwd : gmap string entry;
  stdout : list string;
  calls : list call
}.

Module OS.

(** The components of a relative path, split at "/". *)
Fixpoint components (path : string) : list string :=
  match path with
  | EmptyString => [EmptyString]
  | String c rest =>
      if Ascii.eqb c "/"%char then EmptyString :: components rest
      else match components rest with
           | [] => [String c EmptyString]
           | h :: t => String c h :: t
           end
  end.

Definition split_path (path : string) : list string :=
  filter (λ s, s ≠ EmptyString) (components path).

(** The number of symbolic links one lookup follows before it gives up. *)
Definition MAXSYMLINKS : nat := 40.

(** The links at the head of a path are followed: a link's name is
    replaced by the components of its target, until the path starts at
    an entry that is no link, or at a name that is not there. *)
Fixpoint canonical (links : nat) (path : list string) (root : gmap string entry)
    : OSError + list string :=
  match path with
  | [] => inr []
  | name :: rest =>
      match root !! name with
      | Some (Link target) =>
          match links with
          | O => inl ELOOP
          | S links' => canonical links' (split_path target ++ rest) root
          end
      | _ => inr path
      end
  end.

(** The node a path leads to below an entry. *)
Fixpoint descend (path : list string) (n : node) : option node :=
  match path with
  | [] => Some n
  | name :: rest =>
      match n with
      | Dir d =>
          match d !! name with
          | Some n' => descend rest n'
          | None => None
          end
      | File _ => None
      end
  end.

(** Where a path leads, links followed: the link-free path of the node it
    names, and that node. *)
Definition locate (path : list string) (root : gmap string entry)
    : option (list string * node) :=
  match canonical MAXSYMLINKS path root with
  | inr (top :: inner) =>
      match root !! top with
      | Some (Plain n) =>
          match descend inner n with
          | Some n' => Some (top :: inner, n')
          | None => None
          end
      | _ => None
      end
  | _ => None
  end.

(** [os.stat]: the node a path names, if it names one. *)
Definition resolve (path : list string) (root : gmap string entry) : option node :=
  snd <$> locate path root.

(** Put the updated directory [r] back under [name], or pass the error on. *)
Definition replace_dir (name : string) (d : gmap string node)
    (r : OSError + gmap string node) : OSError + gmap string node :=
  match r with
  | inl e => inl e
  | inr d' => inr (<[name := Dir d']> d)
  end.

(** [os.makedirs] below an entry: missing ancestors are created on the
    way; the leaf must not exist. *)
Fixpoint mkdirs_below (path : list string) (d : gmap string node)
    : OSError + gmap string node :=
  match path with
  | [] => inl FileExistsError
  | name :: rest =>
      match rest, d !! name with
      | [], None => inr (<[name := Dir ∅]> d)
      | [], Some _ => inl FileExistsError
      | _, None => replace_dir name d (mkdirs_below rest ∅)
      | _, Some (Dir sub) => replace_dir name d (mkdirs_below rest sub)
      | _, Some (File _) => inl NotADirectoryError
      end
  end.

(** Put the updated entries [r] of a directory back under the entry
    [name] of the working directory, or pass the error on. *)
Definition replace_entry (name : string) (root : gmap string entry)
    (r : OSError + gmap string node) : OSError + gmap string entry :=
  match r with
  | inl e => inl e
  | inr d' => inr (<[name := Plain (Dir d')]> root)
  end.

(** [os.makedirs] in the working directory.  The leaf must not exist: a
    symbolic link of that name counts as existing, wherever it leads.
    An ancestor that is a link is followed if it leads to a directory;
    a link that leads nowhere is found missing by the existence check
    and then in the way of its own creation. *)
Definition mkdirs (path : list string) (root : gmap string entry)
    : OSError + gmap string entry :=
  match path with
  | [] => inl FileExistsError
  | [name] =>
      match root !! name with
      | None => inr (<[name := Plain (Dir ∅)]> root)
      | Some _ => inl FileExistsError
      end
  | name :: rest =>
      match root !! name with
      | None => replace_entry name root (mkdirs_below rest ∅)
      | Some (Plain (Dir sub)) => replace_entry name root (mkdirs_below rest sub)
      | Some (Plain (File _)) => inl NotADirectoryError
      | Some (Link _) =>
          match locate [name] root with
          | Some (top :: inner, Dir _) =>
              match root !! top with
              | Some (Plain (Dir sub)) =>
                  replace_entry top root (mkdirs_below (inner ++ rest) sub)
              | _ => inl FileExistsError
              end
          | Some (_, File _) => inl NotADirectoryError
          | _ => inl FileExistsError
          end
      end
  end.

(** Opening a path below an entry for writing and storing [data]: the
    parent must be a directory, the target must not be one; an existing
    file is replaced. *)
Fixpoint store (path : list string) (data : file_data) (d : gmap string node)
    : OSError + gmap string node :=
  match path with
  | [] => inl IsADirectoryError
  | name :: rest =>
      match rest, d !! name with
      | [], Some (Dir _) => inl IsADirectoryError
      | [], _ => inr (<[name := File data]> d)
      | _, None => inl FileNotFoundError
      | _, Some (Dir sub) => replace_dir name d (store rest data sub)
      | _, Some (File _) => inl NotADirectoryError
      end
  end.

(** Opening [path] for writing and storing [data].  Links are followed,
    also at the last component: a link that leads nowhere is created as
    a file where it points. *)
Definition write (path : list string) (data : file_data) (root : gmap string entry)
    : OSError + gmap string entry :=
  match canonical MAXSYMLINKS path root with
  | inl e => inl e
  | inr [] => inl IsADirectoryError
  | inr [name] =>
      match root !! name with
      | Some (Plain (Dir _)) => inl IsADirectoryError
      | _ => inr (<[name := Plain (File data)]> root)
      end
  | inr (name :: rest) =>
      match root !! name with
      | Some (Plain (Dir sub)) => replace_entry name root (store rest data sub)
      | Some (Plain (File _)) => inl NotADirectoryError
      | _ => inl FileNotFoundError
      end
  end.

End OS.

(** State and exceptions: a computation maps a world to the world it leaves
    and either the exception that stopped it or its result. *)
Definition script (A : Type) : Type := world → world * (OSError + A).

Definition done_with {A} (a : A) : script A := λ w, (w, inr a).

Definition and_then {A B} (m : script A) (f : A → script B) : script B :=
  λ w, match m w with
       | (w', inl e) => (w', inl e)
       | (w', inr a) => f a w'
       end.

Notation "x <- m ;; k" := (and_then m (λ x, k))
  (at level 100, m at next level, right associativity).
Notation "m ;;; k" := (and_then m (λ _, k))
  (at level 100, right associativity).

Definition record (c : call) (w : world) : world :=
  {| cwd := cwd w; stdout := stdout w; calls := calls w ++ [c] |}.

(** [os.path.exists(path)]: whether [os.stat(path)] succeeds. *)
Definition os_path_exists (path : string) : script bool :=
  λ w, (record (PathExists path) w,
        inr (bool_decide (is_Some (OS.resolve (OS.split_path path) (cwd w))))).

Definition os_makedirs (path : string) : script unit :=
  λ w, let w := record (Makedirs path) w in
       match OS.mkdirs (OS.split_path path) (cwd w) with
       | inl e => (w, inl e)
       | inr d => ({| cwd := d; stdout := stdout w; calls := calls w |}, inr ())
       end.

(** [icon.save(path)] *)
Definition Image_save (im : Image) (path : string) : script unit :=
  λ w, let w := record (Save path im) w in
       match OS.write (OS.split_path path) (PNG im) (cwd w) with
       | inl e => (w, inl e)
       | inr d => ({| cwd := d; stdout := stdout w; calls := calls w |}, inr ())
       end.

Definition print (text : string) : script unit :=
  λ w, ({| cwd := cwd w; stdout := stdout w ++ [text];
           calls := calls w ++ [PrintLine text] |}, inr ()).

(** [for x in l: body] *)
Fixpoint for_each {A} (l : list A) (body : A → script unit) : script unit :=
  match l with
  | [] => done_with ()
  | x :: rest => body x ;;; for_each rest body
  end.

Definition icons_dir : string := "icons".

Definition sizes : list Z := [16; 48; 128].

Definition icon_path (size : Z) : string :=
  icons_dir +:+ "/icon" +:+ pretty size +:+ ".png".

Definition main : script unit :=
  present <- os_path_exists icons_dir ;;
  (if negb present then os_makedirs icons_dir else done_with ()) ;;;
  for_each sizes (λ size,
    let icon := create_icon size in
    Image_save icon (icon_path size) ;;;
    print ("Created icon" +:+ pretty size +:+ ".png")) ;;;
  print "All icons created successfully!".

(** ** The same arithmetic on the machine's binary64

    A second reading of the float expressions of [create_icon], on the
    primitive floats of the proof assistant (IEEE 754 binary64 as the
    hardware computes it).  It is used only to cross-check [B64] on the
    sizes the script renders. *)

Module Hardware.

Definition hw_of_int (z : Z) : float :=
  if z <? 0 then PrimFloat.opp (PrimFloat.of_uint63 (Uint63.of_Z (- z)))
  else PrimFloat.of_uint63 (Uint63.of_Z z).

Definition hw_truediv (a b : Z) : float :=
  PrimFloat.div (hw_of_int a) (hw_of_int b).

Definition hw_literal (n : Z) (k : nat) : float := hw_truediv n (10 ^ Z.of_nat k).

Definition hw_trunc (x : float) : Z :=
  match Prim2SF x with
  | S754_finite s m e =>
      let v := match e with
               | Zneg p => Z.pos m / 2 ^ Z.pos p
               | _ => Z.pos m * 2 ^ e
               end in
      if s then - v else v
  | _ => 0
  end.

(** The exact value of a finite float. *)
Definition hw_value (x : float) : Q :=
  match Prim2SF x with
  | S754_finite s m e =>
      Qred ((if s then inject_Z (Z.neg m) else inject_Z (Z.pos m)) * 2 ^ e)%Q
  | _ => 0%Q
  end.

Definition hw_gradient (size y : Z) : color :=
  let ratio := hw_truediv y size in
  let blend a d :=
    hw_trunc (PrimFloat.add (hw_of_int a) (PrimFloat.mul (hw_of_int d) ratio)) in
  (blend 139 (59 - 139), blend 92 (130 - 92), blend 246 (246 - 246), 255).

Definition hw_padding (size : Z) : Z :=
  hw_trunc (PrimFloat.mul (hw_of_int size) (hw_literal 15 2)).

Definition hw_inner_part (size : Z) (d : Z) : Z :=
  hw_trunc (PrimFloat.mul (hw_of_int (size - 2 * hw_padding size)) (hw_literal d 1)).

End Hardware.

(** * Vocabulary of the statements *)

(** The largest canvas dimension: the imaging library stores sizes in C
    [int]s. *)
Definition INT_MAX : Z := 2 ^ 31 - 1.

(** One colour channel of the gradient: [int(a + d * ratio)]. *)
Definition channel (a d : Z) (ratio : Q) : Z :=
  B64.trunc (B64.add (B64.of_int a) (B64.mul (B64.of_int d) ratio)).

(** The row lengths of the buffer. *)
Definition shape (im : Image) : list nat := length <$> image32 im.

(** What stays fixed under a drawing call: mode, size, buffer shape. *)
Definition frame (im : Image) : string * Z * Z * list nat :=
  (mode im, xsize im, ysize im, shape im).

(** A call whose inks are opaque. *)
Definition opaque_call (c : draw_call) : Prop :=
  match c with
  | rectangle _ fill outline _ =>
      (∀ f, fill = Some f → alpha (Imaging.getink f) = 255)
      ∧ (∀ o, outline = Some o → alpha (Imaging.getink o) = 255)
  | line _ fill _ => alpha (Imaging.getink fill) = 255
  end.

Definition opaque_at (im : Image) (x y : Z) : Prop :=
  ∃ col, Imaging.pixel_at im x y = Some col ∧ alpha col = 255.

(** The canvas after the first [k] iterations of the background loop. *)
Definition rows_done (size : Z) (k : nat) : Image :=
  foldl ImageDraw.draw (Imaging.new "RGBA" (size, size) (0, 0, 0, 0))
        ((λ y, rectangle (0, y, size, y + 1) (Some (gradient size y)) None 1)
           <$> seqZ 0 (Z.of_nat k)).

(** An outline-only rectangle or a line, drawn in white. *)
Definition white_stroke (c : draw_call) : Prop :=
  match c with
  | rectangle _ None (Some o) _ => o = white
  | rectangle _ _ _ _ => False
  | line _ fill _ => fill = white
  end.

(** The pixels a stroke overwrites: the outline band of a rectangle drawn
    without fill, the band or point of a segment. *)
Definition touches (c : draw_call) (x y : Z) : bool :=
  match c with
  | rectangle xy _ _ w =>
      bool_decide (w ≠ 0) && Imaging.in_outline xy w x y
  | line ((x0, y0), (x1, y1)) _ w =>
      if bool_decide (x0 = x1 ∧ y0 = y1) then bool_decide (x = x0 ∧ y = y0)
      else if bool_decide (y0 = y1) then Imaging.in_hband x0 x1 y0 w x y
      else false
  end.

(** Pixel [(x, y)] lies under the outline or under a guide line. *)
Definition under_stroke (size x y : Z) : bool :=
  existsb (λ c, touches c x y) (stroke_calls size).

Definition corners (size : Z) : list (Z * Z) :=
  [(0, 0); (size - 1, 0); (0, size - 1); (size - 1, size - 1)].

Definition call_width (c : draw_call) : Z :=
  match c with
  | rectangle _ _ _ w => w
  | line _ _ w => w
  end.

(** A call that the model of the library rasterises in full: a rectangle,
    or a segment that is horizontal. *)
Definition axis_parallel (c : draw_call) : Prop :=
  match c with
  | line ((_, y0), (_, y1)) _ _ => y0 = y1
  | rectangle _ _ _ _ => True
  end.

(** The rows of a horizontal stroke of width [w] drawn at row [y0]: [w]
    rows, from [ceil(w / 2) - 1] above [y0] to [floor(w / 2)] below. *)
Definition stroke_rows (y0 w y : Z) : Prop :=
  y0 - ((w + 1) / 2 - 1) <= y <= y0 + w / 2.

(** The outline of width [w] of the square from [a] to [b]: the pixels
    of the square less than [w] away from one of its sides. *)
Definition outline_band (a b w x y : Z) : Prop :=
  a <= x <= b ∧ a <= y <= b
  ∧ (x < a + w ∨ b - w < x ∨ y < a + w ∨ b - w < y).

(** The length of a horizontal segment, in columns. *)
Definition line_length (c : draw_call) : Z :=
  match c with
  | line ((x0, _), (x1, _)) _ _ => Z.abs (x1 - x0)
  | _ => 0
  end.

(** The entries the script leaves in the output directory. *)
Definition icon_name (size : Z) : string := "icon" +:+ pretty size +:+ ".png".

(** The three target names in directory [d] can be opened for writing:
    none of them is a directory. *)
Definition targets_writable (d : gmap string node) : bool :=
  forallb (λ size, match d !! icon_name size with
                   | Some (Dir _) => false
                   | _ => true
                   end) sizes.

(** The body of the loop [for size in sizes]. *)
Definition loop_body (size : Z) : script unit :=
  let icon := create_icon size in
  Image_save icon (icon_path size) ;;;
  print ("Created icon" +:+ pretty size +:+ ".png").

Definition icon_files : list (string * node) :=
  (λ size, (icon_name size, File (PNG (create_icon size)))) <$> sizes.

(** The lines the script prints. *)
Definition progress_line (size : Z) : string :=
  "Created icon" +:+ pretty size +:+ ".png".

Definition all_lines : list string :=
  (progress_line <$> sizes) ++ ["All icons created successfully!"].

(** The requests of one pass of the loop. *)
Definition loop_calls : list call :=
  sizes ≫= λ size,
    [Save (icon_path size) (create_icon size); PrintLine (progress_line size)].

Definition is_makedirs (c : call) : bool :=
  match c with
  | Makedirs _ => true
  | _ => false
  end.

(** The saves among the requests, in order. *)
Definition saves (cs : list call) : list (string * Image) :=
  omap (λ c, match c with Save p im => Some (p, im) | _ => None end) cs.

(** The requests [main] adds when started in world [w]. *)
Definition new_calls (w : world) : list call :=
  drop (length (calls w)) (calls (main w).1).

(** Agreement of [B64] with the machine arithmetic at one size: padding,
    the five parts of the inner square, and every row of the gradient. *)
Definition agrees_with_hardware (size : Z) : bool :=
  bool_decide (Hardware.hw_padding size = padding size)
  && forallb (λ d, bool_decide (Hardware.hw_inner_part size d = inner_part size d))
             [2; 8; 3; 5; 7]
  && forallb (λ y, bool_decide (Hardware.hw_gradient size y = gradient size y))
             (seqZ 0 size).

(** The gradient in exact integer arithmetic: the floor of the
    interpolated value. *)
Definition gradient_floor (size y : Z) : color :=
  ((139 * size + (59 - 139) * y) / size,
   (92 * size + (130 - 92) * y) / size,
   246, 255).

(** The ratios at which the exact value of a channel is an integer give
    that integer: a finite table, decided by evaluation. *)
Definition integer_points_ok (a d : Z) : bool :=
  forallb (λ i, channel a d (B64.round (inject_Z i / inject_Z (Z.abs d)))
                =? a + Z.sgn d * i)
          (seqZ 0 (Z.abs d)).

(** The world in which nothing exists yet. *)
Definition empty_world : world := {| cwd := ∅; stdout := []; calls := [] |}.

(** The sizes of [l] that are saved into directory [d] before the first
    target that is itself a directory stops the loop. *)
Fixpoint saved_sizes (d : gmap string node) (l : list Z) : list Z :=
  match l with
  | [] => []
  | size :: rest =>
      match d !! icon_name size with
      | Some (Dir _) => []
      | _ => size :: saved_sizes d rest
      end
  end.

(** The files saved for the sizes of [l]. *)
Definition files_of (l : list Z) : list (string * node) :=
  (λ size, (icon_name size, File (PNG (create_icon size)))) <$> l.

(** The lines [main] prints when started in world [w]. *)
Definition new_lines (w : world) : list string :=
  drop (length (stdout w)) (stdout (main w).1).

(** A world in which [icons/icon48.png] is a directory. *)
Definition blocked_world : world :=
  {| cwd := {[ "icons" := Plain (Dir {[ "icon48.png" := Dir ∅ ]}) ]};
     stdout := []; calls := [] |}.

(** Replacing the node at a path below an entry. *)
Fixpoint plant (path : list string) (n' : node) (n : node) : node :=
  match path with
  | [] => n'
  | name :: rest =>
      match n with
      | Dir d =>
          match d !! name with
          | Some c => Dir (<[name := plant rest n' c]> d)
          | None => n
          end
      | File _ => n
      end
  end.

(** Replacing the node at a link-free path of the working directory. *)
Definition put (path : list string) (n' : node) (root : gmap string entry)
    : gmap string entry :=
  match path with
  | [] => root
  | top :: inner =>
      match root !! top with
      | Some (Plain n) => <[top := Plain (plant inner n' n)]> root
      | _ => root
      end
  end.


(** A world in which [icons] holds a stale [icon16.png], the canvas of
    another size, and a file of another name. *)
Definition stale_world : world :=
  {| cwd := {[ "icons" := Plain (Dir {[ "icon16.png" := File (PNG (create_icon 48));
                                        "notes.txt" := File (PNG (create_icon 16)) ]}) ]};
     stdout := []; calls := [] |}.

(** A world in which [icons] is a symbolic link to the directory [out]. *)
Definition linked_world : world :=
  {| cwd := {[ "icons" := Link "out"; "out" := Plain (Dir ∅) ]};
     stdout := []; calls := [] |}.
(** ** Rounding to binary64

    Facts about [B64.round]: it is monotone, odd, exact on values with at
    most 53 significant bits, and off by a relative [2^-53] at most. *)

Module B64Facts.

Import B64.
Local Open Scope Q_scope.

(** *** Nearest integer *)

Ltac qz :=
  repeat (rewrite inject_Z_plus in * || rewrite inject_Z_opp in * || rewrite inject_Z_mult in * );
  change (inject_Z 1) with 1 in *; change (inject_Z 0) with 0 in *.

Lemma floor_bounds (x : Q) : inject_Z (Qfloor x) <= x /\ x < inject_Z (Qfloor x) + 1.
Proof.
  split; [apply Qfloor_le|].
  pose proof (Qlt_floor x) as H. rewrite inject_Z_plus in H. exact H.
Qed.


(** Two integers less than one apart are in order. *)
Lemma inject_Z_lt_succ (a b : Z) : inject_Z a < inject_Z b + 1 -> (a <= b)%Z.
Proof.
  intros H. assert (inject_Z a < inject_Z (b + 1)) as H' by (rewrite inject_Z_plus; exact H).
  rewrite <- Zlt_Qlt in H'. lia.
Qed.

Lemma rne_cases (x : Q) :
  let f := Qfloor x in
  (x - inject_Z f < 1 # 2 /\ rne x = f)
  \/ (1 # 2 < x - inject_Z f /\ rne x = (f + 1)%Z)
  \/ (x - inject_Z f == 1 # 2 /\ rne x = if Z.even f then f else (f + 1)%Z).
Proof.
  intros f. unfold rne. fold f.
  destruct (Qcompare (x - inject_Z f) (1 # 2)) eqn:E.
  - right; right. split; [by apply Qeq_alt|done].
  - left. split; [by apply Qlt_alt|done].
  - right; left. split; [by apply Qgt_alt|done].
Qed.

Lemma rne_close (x : Q) : x - (1 # 2) <= inject_Z (rne x) /\ inject_Z (rne x) <= x + (1 # 2).
Proof.
  pose proof (floor_bounds x) as [H1 H2].
  destruct (rne_cases x) as [[H ->]|[[H ->]|[H ->]]].
  - split; lra.
  - qz. split; lra.
  - destruct (Z.even _); [|qz]; split; lra.
Qed.

Lemma rne_Z (k : Z) : rne (inject_Z k) = k.
Proof.
  unfold rne. rewrite Qfloor_Z.
  destruct (Qcompare (inject_Z k - inject_Z k) (1 # 2)) eqn:E; [| done |].
  - apply Qeq_alt in E. lra.
  - apply Qgt_alt in E. lra.
Qed.

Lemma rne_mono (x y : Q) : x <= y -> (rne x <= rne y)%Z.
Proof.
  intros Hxy.
  pose proof (floor_bounds x) as [Hx1 Hx2].
  pose proof (floor_bounds y) as [Hy1 Hy2].
  pose proof (Qfloor_resp_le _ _ Hxy) as Hf.
  destruct (Z.eq_dec (Qfloor x) (Qfloor y)) as [Heq|Hne].
  - destruct (rne_cases x) as [[Hx ->]|[[Hx ->]|[Hx ->]]];
    destruct (rne_cases y) as [[Hy ->]|[[Hy ->]|[Hy ->]]];
    rewrite <- ?Heq in *; try lia; try lra;
    destruct (Z.even (Qfloor x)); lia.
  - assert (rne x <= Qfloor x + 1)%Z.
    { destruct (rne_cases x) as [[Hx ->]|[[Hx ->]|[Hx ->]]]; try lia.
      destruct (Z.even _); lia. }
    assert (Qfloor y <= rne y)%Z.
    { destruct (rne_cases y) as [[Hy ->]|[[Hy ->]|[Hy ->]]]; try lia.
      destruct (Z.even _); lia. }
    lia.
Qed.

#[global] Instance rne_proper : Proper (Qeq ==> eq) rne.
Proof.
  intros x y Hxy. apply Z.le_antisymm; apply rne_mono; rewrite Hxy; apply Qle_refl.
Qed.

(** [rne x] is the only integer within 1/2 of x, the even one on a tie. *)
Lemma rne_unique (x : Q) (m : Z) :
  (x - (1 # 2) < inject_Z m /\ inject_Z m < x + (1 # 2))
  \/ ((inject_Z m == x - (1 # 2) \/ inject_Z m == x + (1 # 2)) /\ Z.even m = true) ->
  rne x = m.
Proof.
  pose proof (floor_bounds x) as [H1 H2].
  set (f := Qfloor x) in *.
  intros Hm.
  assert (m = f \/ m = (f + 1)%Z) as Hmf.
  { assert (inject_Z f - 1 < inject_Z m) as Ha by (destruct Hm as [[? ?]|[[?|?] _]]; lra).
    assert (inject_Z m < inject_Z (f + 1) + 1) as Hb
      by (qz; destruct Hm as [[? ?]|[[?|?] _]]; lra).
    apply inject_Z_lt_succ in Hb.
    assert (inject_Z f < inject_Z m + 1) as Hc by lra.
    apply inject_Z_lt_succ in Hc. lia. }
  destruct (rne_cases x) as [[Hx ->]|[[Hx ->]|[Hx ->]]]; fold f in Hx |- *.
  - destruct Hmf as [->| ->]; [done|]. qz.
    destruct Hm as [[? ?]|[[?|?] _]]; lra.
  - destruct Hmf as [->| ->]; [|done].
    destruct Hm as [[? ?]|[[?|?] _]]; lra.
  - destruct Hm as [[Ha Hb]|[_ Hev]].
    + destruct Hmf as [->| ->]; [|qz]; lra.
    + destruct Hmf as [->| ->].
      * by rewrite Hev.
      * rewrite Z.even_add in Hev. simpl in Hev.
        destruct (Z.even f); [done|done].
Qed.

Lemma rne_opp (x : Q) : rne (- x) = (- rne x)%Z.
Proof.
  apply rne_unique.
  pose proof (floor_bounds x) as [H1 H2].
  destruct (rne_cases x) as [[Hx ->]|[[Hx ->]|[Hx ->]]].
  - left. qz. split; lra.
  - left. qz. split; lra.
  - right. destruct (Z.even (Qfloor x)) eqn:Hev.
    + rewrite Z.even_opp, Hev. split; [|done]. qz. right. lra.
    + rewrite Z.even_opp, Z.even_add, Hev. split; [|done].
      qz. left. lra.
Qed.

(** *** Powers of two and the binary logarithm *)

Lemma pow2_pos (e : Z) : 0 < 2 ^ e.
Proof. by apply Qpower_0_lt. Qed.

Lemma pow2_add (a b : Z) : 2 ^ (a + b) == 2 ^ a * 2 ^ b.
Proof. by apply Qpower_plus. Qed.

Lemma pow2_succ (e : Z) : 2 ^ (e + 1) == 2 * 2 ^ e.
Proof. rewrite pow2_add. change (2 ^ 1) with 2. ring. Qed.

Lemma pow2_pred (e : Z) : 2 * 2 ^ (e - 1) == 2 ^ e.
Proof. rewrite <- pow2_succ. by replace (e - 1 + 1)%Z with e by lia. Qed.

Lemma pow2_le (a b : Z) : (a <= b)%Z -> 2 ^ a <= 2 ^ b.
Proof. intros. by apply Qpower_le_compat_l. Qed.

Lemma pow2_lt (a b : Z) : (a < b)%Z -> 2 ^ a < 2 ^ b.
Proof. intros. by apply Qpower_lt_compat_l. Qed.

Lemma pow2_lt_inv (a b : Z) : 2 ^ a < 2 ^ b -> (a < b)%Z.
Proof. intros. by apply Qpower_lt_compat_l_inv with (q := 2). Qed.

Lemma pow2_Z (n : Z) : (0 <= n)%Z -> 2 ^ n == inject_Z (2 ^ n).
Proof. intros. by rewrite Zpower_Qpower. Qed.

(** Two consecutive powers of two bracket at most one exponent. *)
Lemma pow2_bracket_unique (a : Q) (e1 e2 : Z) :
  2 ^ e1 <= a -> a < 2 ^ (e1 + 1) -> 2 ^ e2 <= a -> a < 2 ^ (e2 + 1) -> e1 = e2.
Proof.
  intros H1 H2 H3 H4.
  assert (2 ^ e1 < 2 ^ (e2 + 1)) as Ha by lra.
  assert (2 ^ e2 < 2 ^ (e1 + 1)) as Hb by lra.
  apply pow2_lt_inv in Ha, Hb. lia.
Qed.

Lemma Qabs_num_den (x : Q) :
  Qabs x * inject_Z (Zpos (Qden x)) == inject_Z (Z.abs (Qnum x)).
Proof.
  destruct x as [n d]; simpl.
  rewrite (Qmake_Qdiv (Z.abs n) d). field.
  intros H. discriminate H.
Qed.

(** The difference of the bit lengths of numerator and denominator is
    within one of the binary logarithm. *)
Lemma log2_ratio_bounds (x : Q) :
  ~ x == 0 ->
  let l := (Z.log2 (Z.abs (Qnum x)) - Z.log2 (Zpos (Qden x)))%Z in
  2 ^ (l - 1) < Qabs x /\ Qabs x < 2 ^ (l + 1).
Proof.
  intros Hx l.
  pose proof (Qabs_num_den x) as Hnd.
  assert (0 < Z.abs (Qnum x))%Z as Hn.
  { destruct x as [[|n|n] d]; simpl; try lia. by destruct Hx. }
  assert (0 < Zpos (Qden x))%Z as Hd by lia.
  pose proof (Z.log2_spec _ Hn) as [Hn1 Hn2].
  pose proof (Z.log2_spec _ Hd) as [Hd1 Hd2].
  pose proof (Z.log2_nonneg (Z.abs (Qnum x))) as Hln.
  pose proof (Z.log2_nonneg (Zpos (Qden x))) as Hld.
  pose proof (Qabs_nonneg x) as HA0.
  subst l.
  remember (Z.abs (Qnum x)) as n. remember (Zpos (Qden x)) as d.
  remember (Z.log2 n) as ln. remember (Z.log2 d) as ld.
  rewrite Zle_Qle in Hn1, Hd1. rewrite Zlt_Qlt in Hn2, Hd2.
  unfold Z.succ in Hn2, Hd2.
  rewrite <- !pow2_Z in Hn1, Hn2, Hd1, Hd2 by lia.
  rewrite pow2_succ in Hn2, Hd2.
  assert (2 ^ (ln - ld) * 2 ^ ld == 2 ^ ln) as HT.
  { rewrite <- pow2_add. by replace (ln - ld + ld)%Z with ln by lia. }
  pose proof (pow2_pos (ln - ld)) as HTpos.
  pose proof (pow2_pos ld) as HDpos.
  pose proof (pow2_pos ln) as HPpos.
  rewrite pow2_succ. rewrite <- (pow2_pred (ln - ld)) in HT, HTpos |- *.
  remember (2 ^ (ln - ld - 1)) as T'. remember (2 ^ ld) as D.
  remember (2 ^ ln) as P. remember (Qabs x) as A.
  remember (inject_Z n) as qn. remember (inject_Z d) as qd.
  clear - Hnd Hn1 Hn2 Hd1 Hd2 HT HTpos HDpos HPpos HA0.
  assert (0 < A) as HApos.
  { destruct (Qlt_le_dec 0 A) as [HA|HA]; [exact HA|].
    assert (A == 0) as HAz by lra. rewrite HAz in Hnd. lra. }
  split.
  - apply (Qmult_lt_r _ _ (2 * D)); [lra|].
    assert (A * qd < A * (2 * D)) by (apply Qmult_lt_l; lra).
    nra.
  - apply (Qmult_lt_r _ _ D HDpos).
    assert (A * D <= A * qd) by (apply Qmult_le_l; lra).
    nra.
Qed.

Lemma ilog2_spec (x : Q) :
  ~ x == 0 -> 2 ^ ilog2 x <= Qabs x /\ Qabs x < 2 ^ (ilog2 x + 1).
Proof.
  intros Hx. pose proof (log2_ratio_bounds x Hx) as [Hlo Hup].
  unfold ilog2.
  destruct (Qle_bool _ _) eqn:E.
  - apply Qle_bool_iff in E. by split.
  - split; [by apply Qlt_le_weak|].
    replace (_ - 1 + 1)%Z with (Z.log2 (Z.abs (Qnum x)) - Z.log2 (Zpos (Qden x)))%Z by lia.
    apply Qnot_le_lt. rewrite <- Qle_bool_iff. congruence.
Qed.

Lemma ilog2_unique (x : Q) (e : Z) :
  2 ^ e <= Qabs x -> Qabs x < 2 ^ (e + 1) -> ilog2 x = e.
Proof.
  intros H1 H2.
  assert (~ x == 0) as Hx.
  { intros Hx. rewrite Hx in H1. pose proof (pow2_pos e). change (Qabs 0) with 0 in H1. lra. }
  pose proof (ilog2_spec x Hx) as [H3 H4].
  by apply (pow2_bracket_unique (Qabs x)).
Qed.

Lemma ilog2_proper (x y : Q) : x == y -> ~ x == 0 -> ilog2 x = ilog2 y.
Proof.
  intros Hxy Hx. pose proof (ilog2_spec x Hx) as [H1 H2].
  symmetry. apply ilog2_unique; by rewrite <- Hxy.
Qed.

Lemma ilog2_opp (x : Q) : ~ x == 0 -> ilog2 (- x) = ilog2 x.
Proof.
  intros Hx. pose proof (ilog2_spec x Hx) as [H1 H2].
  apply ilog2_unique; by rewrite Qabs_opp.
Qed.

Lemma ilog2_mono (x y : Q) : 0 < x -> x <= y -> (ilog2 x <= ilog2 y)%Z.
Proof.
  intros Hx Hxy.
  assert (~ x == 0) as Hx0 by lra. assert (~ y == 0) as Hy0 by lra.
  pose proof (ilog2_spec x Hx0) as [H1 _].
  pose proof (ilog2_spec y Hy0) as [_ H2].
  rewrite Qabs_pos in H1, H2 by lra.
  assert (2 ^ ilog2 x < 2 ^ (ilog2 y + 1)) as H by lra.
  apply pow2_lt_inv in H. lia.
Qed.

Lemma round_zero (x : Q) : x == 0 -> round x = 0.
Proof. intros Hx. unfold round. apply Qeq_bool_iff in Hx. by rewrite Hx. Qed.

Lemma round_nonzero (x : Q) :
  ~ x == 0 ->
  round x == inject_Z (rne (significand x)) * 2 ^ (ilog2 x - 52).
Proof.
  intros Hx. unfold round.
  destruct (Qeq_bool x 0) eqn:E.
  - apply Qeq_bool_iff in E. by destruct Hx.
  - apply Qred_correct.
Qed.

#[global] Instance round_proper : Proper (Qeq ==> Qeq) round.
Proof.
  intros x y Hxy.
  destruct (Qeq_dec x 0) as [Hx|Hx].
  - rewrite (round_zero x Hx). rewrite round_zero; [done|]. by rewrite <- Hxy.
  - assert (~ y == 0) as Hy by (by rewrite <- Hxy).
    rewrite !round_nonzero by done. unfold significand.
    rewrite <- (ilog2_proper x y Hxy Hx).
    generalize (ilog2 x - 52)%Z; intros e. by rewrite Hxy.
Qed.

Lemma significand_scale (x : Q) : significand x * 2 ^ (ilog2 x - 52) == x.
Proof.
  unfold significand. field.
  pose proof (pow2_pos (ilog2 x - 52)). lra.
Qed.

Lemma pow2_52_scale (e : Z) : 2 ^ 52 * 2 ^ (e - 52) == 2 ^ e.
Proof. rewrite <- pow2_add. by replace (52 + (e - 52))%Z with e by lia. Qed.

Lemma pow2_53_scale (e : Z) : 2 ^ 53 * 2 ^ (e - 52) == 2 ^ (e + 1).
Proof. rewrite <- pow2_add. by replace (53 + (e - 52))%Z with (e + 1)%Z by lia. Qed.

Lemma significand_bounds (x : Q) :
  0 < x -> 2 ^ 52 <= significand x /\ significand x < 2 ^ 53.
Proof.
  intros Hx. assert (~ x == 0) as Hx0 by lra.
  pose proof (ilog2_spec x Hx0) as [H1 H2].
  rewrite Qabs_pos in H1, H2 by lra.
  pose proof (pow2_pos (ilog2 x - 52)) as Hp.
  rewrite <- pow2_52_scale in H1. rewrite <- pow2_53_scale in H2.
  rewrite <- (significand_scale x) in H1 at 2. rewrite <- (significand_scale x) in H2 at 1.
  split.
  - by apply (Qmult_le_r _ _ _ Hp).
  - by apply (Qmult_lt_r _ _ _ Hp).
Qed.

Lemma rne_pow2 (n : Z) : (0 <= n)%Z -> inject_Z (rne (2 ^ n)) == 2 ^ n.
Proof. intros Hn. rewrite (pow2_Z n Hn) at 1. rewrite rne_Z. by rewrite pow2_Z. Qed.

(** The rounded value stays in the closed binade of its argument. *)
Lemma round_binade (x : Q) :
  0 < x -> 2 ^ ilog2 x <= round x /\ round x <= 2 ^ (ilog2 x + 1).
Proof.
  intros Hx. assert (~ x == 0) as Hx0 by lra.
  pose proof (significand_bounds x Hx) as [H1 H2].
  rewrite round_nonzero by done.
  pose proof (pow2_pos (ilog2 x - 52)) as Hp.
  rewrite <- pow2_52_scale, <- pow2_53_scale.
  split; apply Qmult_le_compat_r; try lra.
  - rewrite <- (rne_pow2 52) by lia. rewrite <- Zle_Qle. by apply rne_mono.
  - rewrite <- (rne_pow2 53) by lia. rewrite <- Zle_Qle. apply rne_mono. lra.
Qed.

Lemma round_mono_pos (x y : Q) : 0 < x -> x <= y -> round x <= round y.
Proof.
  intros Hx Hxy.
  assert (~ x == 0) as Hx0 by lra. assert (~ y == 0) as Hy0 by lra.
  pose proof (ilog2_mono x y Hx Hxy) as He.
  destruct (Z.eq_dec (ilog2 x) (ilog2 y)) as [Heq|Hne].
  - rewrite !round_nonzero by done. unfold significand. rewrite <- Heq.
    pose proof (pow2_pos (ilog2 x - 52)) as Hp.
    apply Qmult_le_compat_r; [|lra].
    rewrite <- Zle_Qle. apply rne_mono.
    apply Qmult_le_compat_r; [done|].
    apply Qlt_le_weak, Qinv_lt_0_compat, Hp.
  - pose proof (round_binade x Hx) as [_ H1].
    pose proof (round_binade y) as [H2 _]; [lra|].
    pose proof (pow2_le (ilog2 x + 1) (ilog2 y)) as H3.
    lapply H3; [|lia]. lra.
Qed.

Lemma round_opp (x : Q) : round (- x) == - round x.
Proof.
  destruct (Qeq_dec x 0) as [Hx|Hx].
  - rewrite (round_zero x Hx). rewrite round_zero; [done|]. lra.
  - assert (~ - x == 0) as Hx' by lra.
    rewrite !round_nonzero by done. unfold significand.
    rewrite (ilog2_opp x Hx).
    assert (- x / 2 ^ (ilog2 x - 52) == - (x / 2 ^ (ilog2 x - 52))) as -> 
      by (field; pose proof (pow2_pos (ilog2 x - 52)); lra).
    rewrite rne_opp, inject_Z_opp. ring.
Qed.

Lemma round_nonneg (x : Q) : 0 <= x -> 0 <= round x.
Proof.
  intros Hx. destruct (Qeq_dec x 0) as [H0|H0].
  - rewrite (round_zero x H0). lra.
  - assert (0 < x) as Hpos by lra.
    pose proof (round_binade x Hpos) as [H1 _].
    pose proof (pow2_pos (ilog2 x)). lra.
Qed.

Lemma round_mono (x y : Q) : x <= y -> round x <= round y.
Proof.
  intros Hxy.
  destruct (Qlt_le_dec 0 x) as [Hx|Hx].
  - by apply round_mono_pos.
  - destruct (Qlt_le_dec y 0) as [Hy|Hy].
    + assert (round (- y) <= round (- x)) as H by (apply round_mono_pos; lra).
      rewrite !round_opp in H. lra.
    + pose proof (round_nonneg y Hy).
      assert (0 <= round (- x)) as H' by (apply round_nonneg; lra).
      rewrite round_opp in H'. lra.
Qed.

(** *** Exactness and error *)

Lemma pow2_53_val : 2 ^ 53 == 9007199254740992.
Proof. reflexivity. Qed.

Lemma pow2_52_val : 2 ^ 52 == 4503599627370496.
Proof. reflexivity. Qed.

(** Relative error of one rounding: at most [2^-53]. *)
Lemma round_rel (x : Q) :
  0 < x ->
  9007199254740991 * x <= 9007199254740992 * round x
  /\ 9007199254740992 * round x <= 9007199254740993 * x.
Proof.
  intros Hx. assert (~ x == 0) as Hx0 by lra.
  pose proof (significand_bounds x Hx) as [H1 _].
  pose proof (rne_close (significand x)) as [H2 H3].
  pose proof (significand_scale x) as Hs.
  pose proof (pow2_pos (ilog2 x - 52)) as Hp.
  rewrite round_nonzero by done.
  rewrite pow2_52_val in H1.
  remember (significand x) as s. remember (inject_Z (rne s)) as r.
  remember (2 ^ (ilog2 x - 52)) as p.
  clear - H1 H2 H3 Hs Hp Hx.
  rewrite <- Hs.
  split.
  - assert (0 <= (9007199254740992 * r - 9007199254740991 * s) * p) as H
      by (apply Qmult_le_0_compat; lra).
    lra.
  - assert (0 <= (9007199254740993 * s - 9007199254740992 * r) * p) as H
      by (apply Qmult_le_0_compat; lra).
    lra.
Qed.

Lemma Zabs_log2_bounds (m : Z) :
  m <> 0%Z -> (2 ^ Z.log2 (Z.abs m) <= Z.abs m < 2 ^ (Z.log2 (Z.abs m) + 1))%Z.
Proof. intros Hm. apply Z.log2_spec. lia. Qed.

(** Values with at most 53 significant bits are not changed. *)
Lemma round_dyadic (m j : Z) :
  (Z.abs m <= 2 ^ 53)%Z -> round (inject_Z m * 2 ^ j) == inject_Z m * 2 ^ j.
Proof.
  intros Hm.
  destruct (Z.eq_dec m 0%Z) as [->|Hm0].
  { rewrite round_zero; [|ring]. ring. }
  pose proof (Zabs_log2_bounds m Hm0) as [Hl1 Hl2].
  pose proof (Z.log2_nonneg (Z.abs m)) as Hl0.
  set (l := Z.log2 (Z.abs m)) in *.
  pose proof (pow2_pos j) as Hj.
  assert (Qabs (inject_Z m * 2 ^ j) == inject_Z (Z.abs m) * 2 ^ j) as Habs.
  { rewrite Qabs_Qmult. rewrite (Qabs_pos (2 ^ j)) by lra. done. }
  assert (l <= 53)%Z as Hl53.
  { assert (2 ^ l < 2 ^ 54)%Z as H by lia.
    apply Z.pow_lt_mono_r_iff in H; lia. }
  assert (ilog2 (inject_Z m * 2 ^ j) = (l + j)%Z) as He.
  { apply ilog2_unique; rewrite Habs.
    - rewrite pow2_add. apply Qmult_le_compat_r; [|lra].
      rewrite pow2_Z by lia. by rewrite <- Zle_Qle.
    - replace (l + j + 1)%Z with ((l + 1) + j)%Z by lia.
      rewrite pow2_add. apply Qmult_lt_compat_r; [lra|].
      rewrite pow2_Z by lia. by rewrite <- Zlt_Qlt. }
  assert (~ inject_Z m * 2 ^ j == 0) as Hx0.
  { intros H. apply Qmult_integral in H as [H|H]; [|lra].
    apply (inject_Z_injective m 0) in H. done. }
  rewrite round_nonzero by done.
  unfold significand. rewrite He.
  destruct (Z.eq_dec l 53%Z) as [Hl|Hl].
  - (* |m| = 2^53 *)
    assert (Z.abs m = 2 ^ 53)%Z as Hm53 by (rewrite Hl in Hl1; lia).
    assert (inject_Z m * 2 ^ j / 2 ^ (l + j - 52) == inject_Z m / 2) as ->.
    { rewrite Hl. replace (53 + j - 52)%Z with (j + 1)%Z by lia.
      rewrite pow2_succ. field. lra. }
    assert (exists h, m = (2 * h)%Z) as [h ->].
    { exists (m / 2)%Z. destruct (Z.abs_spec m) as [[_ E]|[_ E]]; rewrite Hm53 in E.
      - by rewrite <- E.
      - assert (m = - 2 ^ 53)%Z as -> by lia. done. }
    assert (inject_Z (2 * h) / 2 == inject_Z h) as -> by (qz; field).
    rewrite rne_Z. rewrite Hl.
    replace (53 + j - 52)%Z with (j + 1)%Z by lia.
    rewrite pow2_succ. qz. ring.
  - assert (2 ^ j == 2 ^ (l + j - 52) * 2 ^ (52 - l)) as Hc.
    { rewrite <- pow2_add. by replace (l + j - 52 + (52 - l))%Z with j by lia. }
    pose proof (pow2_pos (l + j - 52)) as Hp.
    assert (inject_Z m * 2 ^ j / 2 ^ (l + j - 52) == inject_Z (m * 2 ^ (52 - l))) as ->.
    { rewrite inject_Z_mult. rewrite <- pow2_Z by lia.
      rewrite Hc. field. lra. }
    rewrite rne_Z. rewrite inject_Z_mult. rewrite <- pow2_Z by lia.
    rewrite Hc. ring.
Qed.

Lemma round_int (k : Z) : (Z.abs k <= 2 ^ 53)%Z -> round (inject_Z k) == inject_Z k.
Proof.
  intros Hk. pose proof (round_dyadic k 0 Hk) as H.
  change (2 ^ 0) with 1 in H. by rewrite Qmult_1_r in H.
Qed.

Lemma round_half_int (k : Z) :
  (Z.abs k <= 2 ^ 53)%Z -> round (inject_Z k * (1 # 2)) == inject_Z k * (1 # 2).
Proof. intros Hk. apply (round_dyadic k (-1) Hk). Qed.

(** A value just below an integer [K] (closer than [K / 2^54]) rounds up
    to [K]. *)
Lemma round_just_below (K : Z) (x : Q) :
  (0 < K < 2 ^ 53)%Z ->
  x <= inject_Z K ->
  18014398509481984 * (inject_Z K - x) < inject_Z K ->
  round x == inject_Z K.
Proof.
  intros [HK0 HK53] HxK Hclose.
  assert (1 <= inject_Z K) as HK1 by (change 1 with (inject_Z 1); rewrite <- Zle_Qle; lia).
  assert (inject_Z K < 9007199254740992) as HKq
    by (change 9007199254740992 with (inject_Z (2 ^ 53)); rewrite <- Zlt_Qlt; lia).
  assert (inject_Z K - (1 # 2) < x) as Hhalf by lra.
  assert (0 < x) as Hx by lra.
  assert (~ x == 0) as Hx0 by lra.
  pose proof (ilog2_spec x Hx0) as [He1 He2].
  rewrite Qabs_pos in He1, He2 by lra.
  set (e := ilog2 x) in *.
  assert (e <= 52)%Z as He52.
  { assert (2 ^ e < 2 ^ 53) as H by (rewrite pow2_53_val; lra).
    apply pow2_lt_inv in H. lia. }
  assert (inject_Z K <= 2 ^ (e + 1)) as HKe.
  { destruct (Z_le_gt_dec 0 (e + 1)) as [Hpos|Hneg].
    - rewrite pow2_Z in He2 |- * by lia.
      rewrite <- Zle_Qle. apply inject_Z_lt_succ. lra.
    - assert (2 ^ (e + 1) <= 2 ^ (-1)) as H by (apply pow2_le; lia).
      change (2 ^ (-1)) with (1 # 2) in H. lra. }
  assert (2 ^ (52 - e) * 2 ^ (e + 1) == 9007199254740992) as HC.
  { rewrite <- pow2_add. by replace (52 - e + (e + 1))%Z with 53%Z by lia. }
  assert (2 ^ (52 - e) * 2 ^ (e - 52) == 1) as HCp.
  { rewrite <- pow2_add. by replace (52 - e + (e - 52))%Z with 0%Z by lia. }
  pose proof (pow2_pos (52 - e)) as HCpos.
  pose proof (pow2_pos (e - 52)) as Hppos.
  assert (inject_Z (K * 2 ^ (52 - e)) == inject_Z K * 2 ^ (52 - e)) as HM.
  { rewrite inject_Z_mult. by rewrite <- pow2_Z by lia. }
  assert (significand x == x * 2 ^ (52 - e)) as Hs.
  { unfold significand. fold e.
    apply (Qmult_inj_r _ _ (2 ^ (e - 52))); [lra|].
    transitivity x; [field; lra|].
    rewrite <- Qmult_assoc, HCp. ring. }
  assert (rne (significand x) = (K * 2 ^ (52 - e))%Z) as Hr.
  { apply rne_unique. left. rewrite Hs, HM.
    remember (2 ^ (52 - e)) as C. remember (2 ^ (e + 1)) as P1.
    remember (inject_Z K) as qK.
    clear - HxK Hclose HKe HC HCpos.
    assert (x * C <= qK * C) by (apply Qmult_le_compat_r; lra).
    assert (18014398509481984 * (qK - x) * C < qK * C) by (apply Qmult_lt_compat_r; lra).
    assert (qK * C <= P1 * C) by (apply Qmult_le_compat_r; lra).
    split; lra. }
  rewrite round_nonzero by done. fold e. rewrite Hr, HM.
  rewrite <- Qmult_assoc, HCp. ring.
Qed.

(** ** Truncation *)

Lemma trunc_nonneg (x : Q) : 0 <= x -> trunc x = Qfloor x.
Proof.
  intros Hx. destruct x as [n d]. unfold trunc, Qfloor; simpl.
  apply Z.quot_div_nonneg; [|lia].
  unfold Qle in Hx; simpl in Hx. lia.
Qed.

Lemma floor_unique (x : Q) (k : Z) :
  inject_Z k <= x -> x < inject_Z k + 1 -> Qfloor x = k.
Proof.
  intros H1 H2. pose proof (floor_bounds x) as [H3 H4].
  assert (inject_Z k < inject_Z (Qfloor x) + 1) as Ha by lra.
  assert (inject_Z (Qfloor x) < inject_Z k + 1) as Hb by lra.
  apply inject_Z_lt_succ in Ha, Hb. lia.
Qed.

Lemma trunc_unique (x : Q) (k : Z) :
  (0 <= k)%Z -> inject_Z k <= x -> x < inject_Z k + 1 -> trunc x = k.
Proof.
  intros Hk H1 H2.
  assert (0 <= inject_Z k) by (change 0 with (inject_Z 0); by rewrite <- Zle_Qle).
  rewrite trunc_nonneg by lra. by apply floor_unique.
Qed.

Lemma trunc_int (k : Z) : trunc (inject_Z k) = k.
Proof. unfold trunc; simpl. apply Z.quot_1_r. Qed.

Lemma trunc_mono (x y : Q) : 0 <= x -> x <= y -> (trunc x <= trunc y)%Z.
Proof.
  intros Hx Hxy. rewrite !trunc_nonneg by lra. by apply Qfloor_resp_le.
Qed.

#[global] Instance trunc_proper : Proper (Qeq ==> eq) trunc.
Proof.
  intros x y Hxy.
  destruct (Qlt_le_dec x 0) as [Hx|Hx].
  - assert (trunc (- x) = trunc (- y)) as H.
    { rewrite !trunc_nonneg by lra. by rewrite Hxy. }
    destruct x as [nx dx], y as [ny dy]. unfold trunc in *; simpl in *.
    rewrite !Z.quot_opp_l in H by lia. lia.
  - rewrite !trunc_nonneg by lra. by rewrite Hxy.
Qed.

End B64Facts.
(** ** The canvas under the drawing primitives *)

Section Canvas.

Implicit Types (im : Image) (c : draw_call) (x y : Z).

Lemma pixel_at_paint region ink im x y :
  Imaging.pixel_at (Imaging.paint region ink im) x y
  = (λ old, if region x y then ink else old) <$> Imaging.pixel_at im x y.
Proof.
  unfold Imaging.pixel_at, Imaging.paint; simpl.
  case_bool_decide as Hxy; [|done].
  rewrite list_lookup_imap.
  destruct (image32 im !! Z.to_nat y) as [row|]; simpl; [|done].
  rewrite list_lookup_imap.
  destruct (row !! Z.to_nat x) as [old|]; simpl; [|done].
  by rewrite !Z2Nat.id by lia.
Qed.

Lemma shape_paint region ink im :
  shape (Imaging.paint region ink im) = shape im.
Proof.
  unfold shape, Imaging.paint; simpl.
  apply list_eq; intros j.
  rewrite !list_lookup_fmap, list_lookup_imap.
  destruct (image32 im !! j); simpl; [|done].
  by rewrite length_imap.
Qed.

Lemma frame_paint region ink im :
  frame (Imaging.paint region ink im) = frame im.
Proof. unfold frame. by rewrite shape_paint. Qed.

Lemma frame_draw im c : frame (ImageDraw.draw im c) = frame im.
Proof.
  destruct c as [xy fill outline width | [[x0 y0] [x1 y1]] fill width]; simpl.
  - unfold ImageDraw.draw_rect, Imaging.draw_rectangle.
    repeat (case_match || case_bool_decide); simplify_eq;
      by rewrite ?frame_paint.
  - unfold ImageDraw.draw_line, Imaging.draw_wide_line; simpl.
    repeat case_bool_decide; by rewrite ?frame_paint.
Qed.

Lemma frame_foldl_draw cs im : frame (foldl ImageDraw.draw im cs) = frame im.
Proof.
  revert im; induction cs as [|c cs IH]; intros im; simpl; [done|].
  by rewrite IH, frame_draw.
Qed.

Lemma frame_new m w h col :
  frame (Imaging.new m (w, h) col)
  = (m, w, h, replicate (Z.to_nat h) (Z.to_nat w)).
Proof.
  unfold frame, shape, Imaging.new; simpl.
  by rewrite fmap_replicate, length_replicate.
Qed.

Lemma opaque_at_paint region ink im x y :
  alpha ink = 255 → opaque_at im x y →
  opaque_at (Imaging.paint region ink im) x y.
Proof.
  intros Hink (col & Hcol & Ha). unfold opaque_at.
  rewrite pixel_at_paint, Hcol; simpl.
  destruct (region x y); eauto.
Qed.

Lemma opaque_at_draw im c x y :
  opaque_call c → opaque_at im x y → opaque_at (ImageDraw.draw im c) x y.
Proof.
  destruct c as [xy fill outline width | [[x0 y0] [x1 y1]] fill width];
    simpl; intros Hc Him.
  - destruct Hc as [Hf Ho].
    unfold ImageDraw.draw_rect, Imaging.draw_rectangle.
    destruct fill as [f|], outline as [o|]; simpl;
      repeat case_bool_decide; repeat apply opaque_at_paint; eauto.
  - unfold ImageDraw.draw_line, Imaging.draw_wide_line; simpl.
    repeat case_bool_decide; repeat apply opaque_at_paint; eauto.
Qed.

Lemma opaque_at_foldl_draw cs im x y :
  Forall opaque_call cs → opaque_at im x y →
  opaque_at (foldl ImageDraw.draw im cs) x y.
Proof.
  intros Hcs; revert im.
  induction Hcs as [|c cs Hc _ IH]; intros im Him; simpl; [done|].
  by apply IH, opaque_at_draw.
Qed.

(** A white stroke sets the pixels it touches to white and leaves the
    others as they are. *)
Lemma pixel_at_white_stroke im c x y :
  white_stroke c →
  Imaging.pixel_at (ImageDraw.draw im c) x y
  = (λ old, if touches c x y then white else old) <$> Imaging.pixel_at im x y.
Proof.
  destruct c as [xy [f|] [o|] w | [[x0 y0] [x1 y1]] fill w]; simpl; try done.
  - intros ->. unfold ImageDraw.draw_rect, Imaging.draw_rectangle; simpl.
    case_bool_decide as Hw; simpl.
    + destruct Hw as [_ Hw]. rewrite bool_decide_eq_true_2 by done.
      rewrite pixel_at_paint.
      destruct (Z.eqb_spec w 0) as [?|_]; [done|]. reflexivity.
    + assert (w = 0) as -> by (destruct (decide (w = 0)); [done|by destruct Hw]).
      simpl. by destruct (Imaging.pixel_at im x y).
  - intros ->. unfold ImageDraw.draw_line, Imaging.draw_wide_line; simpl.
    destruct (decide (x0 = x1 ∧ y0 = y1)) as [Hpt|Hpt].
    + rewrite !bool_decide_eq_true_2 by done. by rewrite pixel_at_paint.
    + rewrite !(bool_decide_eq_false_2 (x0 = x1 ∧ y0 = y1)) by done.
      destruct (decide (y0 = y1)) as [Hh|Hh].
      * rewrite !(bool_decide_eq_true_2 (y0 = y1)) by done.
        by rewrite pixel_at_paint.
      * rewrite !(bool_decide_eq_false_2 (y0 = y1)) by done.
        by destruct (Imaging.pixel_at im x y).
Qed.

Lemma pixel_at_white_strokes cs im x y :
  Forall white_stroke cs →
  Imaging.pixel_at (foldl ImageDraw.draw im cs) x y
  = (λ old, if existsb (λ c, touches c x y) cs then white else old)
      <$> Imaging.pixel_at im x y.
Proof.
  intros Hcs; revert im.
  induction Hcs as [|c cs Hc _ IH]; intros im; simpl.
  - by destruct (Imaging.pixel_at im x y).
  - rewrite IH, pixel_at_white_stroke by done.
    destruct (Imaging.pixel_at im x y); simpl; [|done].
    by destruct (touches c x y), (existsb _ cs).
Qed.

End Canvas.

(** ** The background loop *)

Section Background.

Implicit Types (size x y : Z) (k : nat).

Lemma draw_fill im xy col :
  ImageDraw.draw im (rectangle xy (Some col) None 1)
  = Imaging.paint (Imaging.in_box xy) (Imaging.getink col) im.
Proof. reflexivity. Qed.

Lemma pixel_at_new m w h col x y :
  0 <= x < w → 0 <= y < h →
  Imaging.pixel_at (Imaging.new m (w, h) col) x y = Some (Imaging.getink col).
Proof.
  intros Hx Hy. unfold Imaging.pixel_at, Imaging.new; simpl.
  rewrite bool_decide_eq_true_2 by lia.
  rewrite lookup_replicate_2 by lia; simpl.
  by rewrite lookup_replicate_2 by lia.
Qed.

Lemma seqZ_snoc (n : Z) : 0 <= n → seqZ 0 (n + 1) = seqZ 0 n ++ [n].
Proof.
  intros Hn. rewrite seqZ_app by lia.
  f_equal.
Qed.

(** Loop invariant.  Iteration [y] paints rows [y] and [y + 1]; the next
    iteration repaints row [y + 1].  After [k] iterations the rows above
    [k] are final, row [k] still holds the colour of row [k - 1], and the
    rows below are untouched. *)
Lemma rows_done_pixel size k x y :
  0 <= x < size → 0 <= y < size →
  Imaging.pixel_at (rows_done size k) x y
  = Some (if bool_decide (y < Z.of_nat k)
          then Imaging.getink (gradient size y)
          else if bool_decide (y = Z.of_nat k ∧ 0 < y)
               then Imaging.getink (gradient size (y - 1))
               else (0, 0, 0, 0)).
Proof.
  intros Hx Hy. induction k as [|k IH].
  - unfold rows_done; simpl.
    rewrite pixel_at_new by lia.
    rewrite bool_decide_eq_false_2 by lia.
    by rewrite bool_decide_eq_false_2 by lia.
  - unfold rows_done in *.
    replace (Z.of_nat (S k)) with (Z.of_nat k + 1) by lia.
    rewrite seqZ_snoc by lia.
    rewrite fmap_app, foldl_app.
    cbn [fmap list_fmap foldl].
    rewrite draw_fill, pixel_at_paint, IH; simpl.
    unfold Imaging.in_box, Imaging.between.
    repeat case_bool_decide; simpl; try lia; try done.
    all: repeat f_equal; lia.
Qed.

Lemma background_rows_done size :
  background size = rows_done size (Z.to_nat size).
Proof.
  unfold background, background_calls, rows_done.
  destruct (decide (0 <= size)).
  - by rewrite Z2Nat.id by lia.
  - replace (Z.to_nat size) with 0%nat by lia.
    destruct size; [done | lia | done].
Qed.

(** Every pixel of row [y] ends up with the colour computed for [y]. *)
Lemma background_pixel size x y :
  0 <= x < size → 0 <= y < size →
  Imaging.pixel_at (background size) x y = Some (Imaging.getink (gradient size y)).
Proof.
  intros Hx Hy.
  rewrite background_rows_done, rows_done_pixel by done.
  by rewrite bool_decide_eq_true_2 by lia.
Qed.

Lemma gradient_alpha size y : alpha (Imaging.getink (gradient size y)) = 255.
Proof. reflexivity. Qed.

Lemma stroke_calls_opaque size : Forall opaque_call (stroke_calls size).
Proof.
  unfold stroke_calls.
  repeat constructor; simpl; intros; simplify_eq; reflexivity.
Qed.

(** Shared by the statements on corner pixels and on full opacity. *)
Lemma create_icon_opaque_at size x y :
  0 <= x < size → 0 <= y < size → opaque_at (create_icon size) x y.
Proof.
  intros Hx Hy. unfold create_icon.
  apply opaque_at_foldl_draw; [apply stroke_calls_opaque|].
  exists (Imaging.getink (gradient size y)).
  split; [by apply background_pixel | apply gradient_alpha].
Qed.

Lemma create_icon_frame size :
  frame (create_icon size)
  = ("RGBA", size, size, replicate (Z.to_nat size) (Z.to_nat size)).
Proof.
  unfold create_icon, background.
  by rewrite !frame_foldl_draw, frame_new.
Qed.

End Background.
(** ** The gradient *)

Section Gradient.

Import B64 B64Facts.
Local Open Scope Q_scope.

Lemma of_int_exact (k : Z) : (Z.abs k <= 2 ^ 53)%Z -> of_int k == inject_Z k.
Proof. apply round_int. Qed.

(** [ratio = y / size] lies in [0, 1] and grows with [y]. *)
Lemma truediv_mono (size y y' : Z) :
  (0 < size)%Z -> (y <= y')%Z -> truediv y size <= truediv y' size.
Proof.
  intros Hs Hy. unfold truediv. apply round_mono.
  apply Qmult_le_compat_r.
  - by rewrite <- Zle_Qle.
  - apply Qlt_le_weak, Qinv_lt_0_compat.
    change 0 with (inject_Z 0). by rewrite <- Zlt_Qlt.
Qed.

Lemma truediv_zero (size : Z) : truediv 0 size == 0.
Proof. unfold truediv. rewrite round_zero; [done|]. unfold Qdiv. ring. Qed.

Lemma truediv_self (size : Z) : (0 < size)%Z -> truediv size size == 1.
Proof.
  intros Hs. unfold truediv.
  assert (inject_Z size / inject_Z size == inject_Z 1) as ->.
  { field. intros H. apply (inject_Z_injective size 0) in H. lia. }
  by apply round_int.
Qed.

Lemma truediv_bounds (size y : Z) :
  (0 <= y <= size)%Z -> (0 < size)%Z -> 0 <= truediv y size /\ truediv y size <= 1.
Proof.
  intros Hy Hs. split.
  - rewrite <- (truediv_zero size). apply truediv_mono; lia.
  - rewrite <- (truediv_self size Hs). apply truediv_mono; lia.
Qed.

Lemma gradient_channels (size y : Z) :
  gradient size y
  = (channel 139 (59 - 139) (truediv y size),
     channel 92 (130 - 92) (truediv y size),
     channel 246 (246 - 246) (truediv y size), 255%Z).
Proof. reflexivity. Qed.

Section Channel.

Variables a d : Z.
Hypothesis small_a : (Z.abs a <= 2 ^ 53)%Z.
Hypothesis small_d : (Z.abs d <= 2 ^ 53)%Z.
Hypothesis small_sum : (Z.abs (a + d) <= 2 ^ 53)%Z.

Lemma scaled_at_0 : mul (of_int d) 0 == 0.
Proof. unfold mul. rewrite round_zero; [done|ring]. Qed.

Lemma scaled_at_1 : mul (of_int d) 1 == inject_Z d.
Proof.
  unfold mul. rewrite of_int_exact by done. rewrite Qmult_1_r.
  by apply round_int.
Qed.

Lemma channel_at_0 (r : Q) : r == 0 -> channel a d r = a.
Proof.
  intros Hr. unfold channel, add.
  assert (of_int a + mul (of_int d) r == inject_Z a) as ->.
  { unfold mul. rewrite Hr, Qmult_0_r, (round_zero 0) by done.
    rewrite of_int_exact by done. ring. }
  rewrite round_int by done. apply trunc_int.
Qed.

Lemma scaled_up (r r' : Q) :
  (0 <= d)%Z -> r <= r' -> mul (of_int d) r <= mul (of_int d) r'.
Proof.
  intros Hd Hr. unfold mul. apply round_mono.
  rewrite of_int_exact by done.
  rewrite (Qmult_comm _ r), (Qmult_comm _ r').
  apply Qmult_le_compat_r; [done|].
  change 0 with (inject_Z 0). by rewrite <- Zle_Qle.
Qed.

Lemma scaled_down (r r' : Q) :
  (d <= 0)%Z -> r <= r' -> mul (of_int d) r' <= mul (of_int d) r.
Proof.
  intros Hd Hr. unfold mul. apply round_mono.
  rewrite of_int_exact by done.
  assert (inject_Z d <= 0) as Hd' by (change 0 with (inject_Z 0); by rewrite <- Zle_Qle).
  assert (0 <= (- inject_Z d) * (r' - r)) as H by (apply Qmult_le_0_compat; lra).
  lra.
Qed.

(** The sum before truncation stays between the two end values. *)
Lemma blend_bounds (r : Q) :
  0 <= r -> r <= 1 ->
  inject_Z (Z.min a (a + d)) <= add (of_int a) (mul (of_int d) r)
  /\ add (of_int a) (mul (of_int d) r) <= inject_Z (Z.max a (a + d)).
Proof.
  intros H0 H1.
  assert (inject_Z (Z.min 0 d) <= mul (of_int d) r
          /\ mul (of_int d) r <= inject_Z (Z.max 0 d)) as [Hlo Hhi].
  { destruct (Z_le_gt_dec 0 d) as [Hd|Hd].
    - rewrite Z.min_l, Z.max_r by lia.
      pose proof (scaled_up 0 r Hd H0). pose proof (scaled_up r 1 Hd H1).
      pose proof scaled_at_0. pose proof scaled_at_1.
      change (inject_Z 0) with 0. split; lra.
    - rewrite Z.min_r, Z.max_l by lia.
      assert (d <= 0)%Z as Hd' by lia.
      pose proof (scaled_down 0 r Hd' H0). pose proof (scaled_down r 1 Hd' H1).
      pose proof scaled_at_0. pose proof scaled_at_1.
      change (inject_Z 0) with 0. split; lra. }
  unfold add. rewrite of_int_exact by done.
  assert (Z.min a (a + d) = a + Z.min 0 d)%Z as -> by lia.
  assert (Z.max a (a + d) = a + Z.max 0 d)%Z as -> by lia.
  rewrite <- (round_int (a + Z.min 0 d)) by lia.
  rewrite <- (round_int (a + Z.max 0 d)) by lia.
  rewrite !inject_Z_plus.
  split; apply round_mono; lra.
Qed.

Lemma channel_bounds (r : Q) :
  (0 <= a)%Z -> (0 <= a + d)%Z -> 0 <= r -> r <= 1 ->
  (Z.min a (a + d) <= channel a d r <= Z.max a (a + d))%Z.
Proof.
  intros Ha Had H0 H1. destruct (blend_bounds r H0 H1) as [Hlo Hhi].
  assert (0 <= inject_Z (Z.min a (a + d)))
    by (change 0 with (inject_Z 0); rewrite <- Zle_Qle; lia).
  unfold channel.
  rewrite <- (trunc_int (Z.min a (a + d))), <- (trunc_int (Z.max a (a + d))).
  split; apply trunc_mono; lra.
Qed.

Lemma channel_up (r r' : Q) :
  (0 <= a)%Z -> (0 <= d)%Z -> 0 <= r -> r <= r' -> r' <= 1 ->
  (channel a d r <= channel a d r')%Z.
Proof.
  intros Ha Hd H0 Hr H1. unfold channel.
  destruct (blend_bounds r) as [Hlo _]; [lra..|].
  rewrite Z.min_l in Hlo by lia.
  assert (0 <= inject_Z a) by (change 0 with (inject_Z 0); by rewrite <- Zle_Qle).
  apply trunc_mono; [lra|].
  unfold add. apply round_mono.
  pose proof (scaled_up r r' Hd Hr). lra.
Qed.

Lemma channel_down (r r' : Q) :
  (0 <= a + d)%Z -> (d <= 0)%Z -> 0 <= r -> r <= r' -> r' <= 1 ->
  (channel a d r' <= channel a d r)%Z.
Proof.
  intros Had Hd H0 Hr H1. unfold channel.
  destruct (blend_bounds r') as [Hlo _]; [lra..|].
  rewrite Z.min_r in Hlo by lia.
  assert (0 <= inject_Z (a + d)) by (change 0 with (inject_Z 0); by rewrite <- Zle_Qle).
  apply trunc_mono; [lra|].
  unfold add. apply round_mono.
  pose proof (scaled_down r r' Hd Hr). lra.
Qed.

End Channel.

(** The three channels of a row. *)
Lemma gradient_bounds (size y : Z) :
  (0 < size)%Z -> (0 <= y < size)%Z ->
  exists r g : Z,
    gradient size y = (r, g, 246%Z, 255%Z)
    /\ (59 <= r <= 139)%Z /\ (92 <= g <= 130)%Z.
Proof.
  intros Hs Hy. rewrite gradient_channels.
  destruct (truediv_bounds size y) as [H0 H1]; [lia..|].
  pose proof (channel_bounds 139 (59 - 139) ltac:(lia) ltac:(lia) ltac:(lia)
                _ ltac:(lia) ltac:(lia) H0 H1) as Hr.
  pose proof (channel_bounds 92 (130 - 92) ltac:(lia) ltac:(lia) ltac:(lia)
                _ ltac:(lia) ltac:(lia) H0 H1) as Hg.
  pose proof (channel_bounds 246 (246 - 246) ltac:(lia) ltac:(lia) ltac:(lia)
                _ ltac:(lia) ltac:(lia) H0 H1) as Hb.
  assert (channel 246 (246 - 246) (truediv y size) = 246%Z) as -> by lia.
  eexists _, _. split; [reflexivity|]. split; [exact Hr|exact Hg].
Qed.

Lemma gradient_start (size : Z) :
  (0 < size)%Z -> gradient size 0 = (139, 92, 246, 255)%Z.
Proof.
  intros Hs. rewrite gradient_channels.
  pose proof (truediv_zero size) as H0.
  rewrite !channel_at_0 by (done || lia). reflexivity.
Qed.

Lemma gradient_mono (size y y' : Z) :
  (0 < size)%Z -> (0 <= y)%Z -> (y <= y')%Z -> (y' < size)%Z ->
  (((gradient size y').1.1.1 <= (gradient size y).1.1.1)%Z
   /\ ((gradient size y).1.1.2 <= (gradient size y').1.1.2)%Z).
Proof.
  intros Hs Hy Hyy' Hy'. rewrite !gradient_channels; simpl.
  destruct (truediv_bounds size y) as [H0 _]; [lia..|].
  destruct (truediv_bounds size y') as [_ H1]; [lia..|].
  pose proof (truediv_mono size y y' Hs Hyy') as Hr.
  split.
  - apply channel_down; (lia || done).
  - apply channel_up; (lia || done).
Qed.

(** The channel values are inks already: clipping leaves them alone. *)
Lemma getink_gradient (size y : Z) :
  (0 < size)%Z -> (0 <= y < size)%Z ->
  Imaging.getink (gradient size y) = gradient size y.
Proof.
  intros Hs Hy.
  destruct (gradient_bounds size y Hs Hy) as (r & g & -> & Hr & Hg).
  unfold Imaging.getink, Imaging.clip8. repeat f_equal; lia.
Qed.

End Gradient.
(** ** Products of a size with a decimal literal *)

Section Literals.

Import B64 B64Facts.
Local Open Scope Q_scope.

Lemma literal_0_15 : literal 15 2 = 5404319552844595 # 36028797018963968.
Proof. vm_compute. reflexivity. Qed.
Lemma literal_0_2 : literal 2 1 = 3602879701896397 # 18014398509481984.
Proof. vm_compute. reflexivity. Qed.
Lemma literal_0_8 : literal 8 1 = 3602879701896397 # 4503599627370496.
Proof. vm_compute. reflexivity. Qed.
Lemma literal_0_3 : literal 3 1 = 5404319552844595 # 18014398509481984.
Proof. vm_compute. reflexivity. Qed.
Lemma literal_0_5 : literal 5 1 = 1 # 2.
Proof. vm_compute. reflexivity. Qed.
Lemma literal_0_7 : literal 7 1 = 3152519739159347 # 4503599627370496.
Proof. vm_compute. reflexivity. Qed.

Lemma inject_Z_nonneg (k : Z) : (0 <= k)%Z -> 0 <= inject_Z k.
Proof. intros. change 0 with (inject_Z 0). by rewrite <- Zle_Qle. Qed.

Lemma inject_Z_lt_2_31 (k : Z) : (k < 2 ^ 31)%Z -> inject_Z k < 2147483648.
Proof. intros. change 2147483648 with (inject_Z (2 ^ 31)). by rewrite <- Zlt_Qlt. Qed.

(** Truncating a rounded value: rounding cannot carry a value across an
    integer that is a hundredth away. *)
Lemma trunc_round_between (x : Q) (L U : Z) :
  (0 <= L)%Z -> (U < 2 ^ 31)%Z ->
  inject_Z L <= x -> x <= inject_Z U + (99 # 100) ->
  (L <= trunc (round x) <= U)%Z.
Proof.
  intros HL HU HLx HxU.
  pose proof (inject_Z_nonneg L HL) as HL0.
  pose proof (inject_Z_lt_2_31 U HU) as HU31.
  assert (L <= U)%Z as HLU by (apply inject_Z_lt_succ; lra).
  assert (inject_Z L <= round x) as Hlo.
  { rewrite <- (round_int L) by lia. by apply round_mono. }
  assert (round x < inject_Z U + 1) as Hhi.
  { destruct (Qeq_dec x 0) as [H0|H0].
    - rewrite (round_zero x H0). lra.
    - assert (0 < x) as Hx by lra.
      pose proof (round_rel x Hx) as [_ Hr]. lra. }
  rewrite trunc_nonneg by lra.
  pose proof (floor_bounds (round x)) as [Hf1 Hf2].
  split.
  - rewrite <- (Qfloor_Z L). by apply Qfloor_resp_le.
  - apply inject_Z_lt_succ. lra.
Qed.

Lemma trunc_round_exact (x : Q) (K : Z) :
  (0 <= K < 2 ^ 31)%Z ->
  inject_Z K <= x \/ 18014398509481984 * (inject_Z K - x) < inject_Z K ->
  x <= inject_Z K + (99 # 100) ->
  trunc (round x) = K.
Proof.
  intros [HK0 HK31] Hlo Hhi.
  destruct (Qlt_le_dec x (inject_Z K)) as [Hlt|Hge].
  - destruct Hlo as [Hlo|Hlo]; [lra|].
    assert (0 < K)%Z as HKpos.
    { destruct (Z.eq_dec K 0%Z) as [->|]; [|lia]. change (inject_Z 0) with 0 in *. lra. }
    rewrite (round_just_below K x); [apply trunc_int|lia|lra|done].
  - pose proof (trunc_round_between x K K HK0 HK31 Hge Hhi). lia.
Qed.

(** Transfer of integer facts to the rationals. *)
Lemma Zeq_Qeq (a b : Z) : a = b -> inject_Z a == inject_Z b.
Proof. by intros ->. Qed.

Ltac to_Q H :=
  first [rewrite Zle_Qle in H | rewrite Zlt_Qlt in H | apply Zeq_Qeq in H];
  repeat (rewrite inject_Z_plus in H || rewrite inject_Z_mult in H);
  repeat match type of H with
         | context [inject_Z (Zpos ?p)] =>
             change (inject_Z (Zpos p)) with (Zpos p # 1) in H
         end.

Section Scaling.

Variable n : Z.
Hypothesis n_range : (0 <= n < 2 ^ 31)%Z.

Let prod (c : Q) : Q := mul (of_int n) c.

Lemma prod_unfold (c : Q) : prod c == round (inject_Z n * c).
Proof. unfold prod, mul. rewrite of_int_exact by lia. done. Qed.

(** [int(n * lit)] is [floor (a * n / b)] for a literal [lit] that is
    the nearest binary64 value to [a / b] and either at least [a / b] or
    below it by a relative error under [2^-54]. *)
Ltac floor_of_product a b :=
  let b1 := eval compute in (b - 1)%Z in
  pose proof (Z.mul_div_le (a * n) b ltac:(lia)) as H1;
  pose proof (Z.mul_succ_div_gt (a * n) b ltac:(lia)) as H2;
  set (K := (a * n / b)%Z) in *;
  assert (0 <= K)%Z as HK0 by (apply Z.div_pos; lia);
  assert (K < 2 ^ 31)%Z as HK31 by lia;
  pose proof (inject_Z_nonneg n ltac:(lia)) as Hn0;
  pose proof (inject_Z_lt_2_31 K HK31) as HKq;
  assert (a * n <= b * K + b1)%Z as H3 by lia;
  clearbody K;
  apply trunc_round_exact;
  [ lia
  | destruct (Z.eq_dec (b * K)%Z (a * n)%Z) as [E|E];
    [ destruct (Z.eq_dec n 0%Z) as [En|En];
      [ left; assert (K = 0)%Z as -> by lia; rewrite En;
        change (inject_Z 0) with 0; lra
      | right; assert (1 <= n)%Z as Hn1 by lia; to_Q Hn1; to_Q E; lra ]
    | left; assert (b * K + 1 <= a * n)%Z as H4 by lia; to_Q H4; lra ]
  | to_Q H3; lra ].

Lemma times_0_15 : trunc (prod (literal 15 2)) = (15 * n / 100)%Z.
Proof. rewrite prod_unfold, literal_0_15. floor_of_product 15%Z 100%Z. Qed.

Lemma times_0_2 : trunc (prod (literal 2 1)) = (2 * n / 10)%Z.
Proof. rewrite prod_unfold, literal_0_2. floor_of_product 2%Z 10%Z. Qed.

Lemma times_0_8 : trunc (prod (literal 8 1)) = (8 * n / 10)%Z.
Proof. rewrite prod_unfold, literal_0_8. floor_of_product 8%Z 10%Z. Qed.

Lemma times_0_3 : trunc (prod (literal 3 1)) = (3 * n / 10)%Z.
Proof. rewrite prod_unfold, literal_0_3. floor_of_product 3%Z 10%Z. Qed.

(** [0.5] is a binary64 value and halving is exact. *)
Lemma times_0_5 : trunc (prod (literal 5 1)) = (n / 2)%Z.
Proof.
  rewrite prod_unfold, literal_0_5.
  rewrite round_half_int by lia.
  pose proof (Z.mul_div_le n 2 ltac:(lia)) as H1.
  pose proof (Z.mul_succ_div_gt n 2 ltac:(lia)) as H2.
  assert (0 <= n / 2)%Z as H0 by (apply Z.div_pos; lia).
  assert (n <= 2 * (n / 2) + 1)%Z as H3 by lia.
  generalize dependent (n / 2)%Z; intros K H1 H2 H0 H3.
  to_Q H1. to_Q H3.
  apply trunc_unique; [done|lra..].
Qed.

(** The binary64 value of [0.7] is below [7/10] by more than a relative
    [2^-54]: a product that is an integer in exact arithmetic can round
    to just below it, and truncation then loses one. *)
Lemma times_0_7 :
  (7 * n / 10 - 1 <= trunc (prod (literal 7 1)) <= 7 * n / 10)%Z
  /\ (0 <= trunc (prod (literal 7 1)))%Z.
Proof.
  rewrite prod_unfold, literal_0_7.
  pose proof (Z.mul_div_le (7 * n) 10 ltac:(lia)) as H1.
  pose proof (Z.mul_succ_div_gt (7 * n) 10 ltac:(lia)) as H2.
  set (K := (7 * n / 10)%Z) in *.
  assert (0 <= K)%Z as HK0 by (apply Z.div_pos; lia).
  assert (K < 2 ^ 31)%Z as HK31 by lia.
  pose proof (inject_Z_nonneg n ltac:(lia)) as Hn0.
  pose proof (inject_Z_lt_2_31 K HK31) as HKq.
  assert (7 * n <= 10 * K + 9)%Z as H3 by lia.
  clearbody K. to_Q H1. to_Q H3.
  destruct (Z.eq_dec K 0%Z) as [->|HK].
  - change (inject_Z 0) with 0 in *.
    pose proof (trunc_round_between
      (inject_Z n * (3152519739159347 # 4503599627370496)) 0 0) as H.
    change (inject_Z 0) with 0 in H.
    lapply H; [clear H; intros H|lia]. lapply H; [clear H; intros H|lia].
    lapply H; [clear H; intros H|lra]. lapply H; [clear H; intros H|lra].
    lia.
  - pose proof (trunc_round_between
      (inject_Z n * (3152519739159347 # 4503599627370496)) (K - 1) K) as H.
    lapply H; [clear H; intros H|lia]. lapply H; [clear H; intros H|lia].
    lapply H; [clear H; intros H|].
    + lapply H; [clear H; intros H|lra]. lia.
    + unfold Z.sub. rewrite inject_Z_plus, inject_Z_opp.
      change (inject_Z 1) with 1. lra.
Qed.

(** A larger factor between 0 and 1 gives a larger part, and no part
    exceeds [n]. *)
Lemma part_mono (c c' : Q) :
  0 <= c -> c <= c' -> (trunc (prod c) <= trunc (prod c'))%Z.
Proof.
  intros Hc Hcc'. rewrite !prod_unfold.
  pose proof (inject_Z_nonneg n ltac:(lia)) as Hn0.
  assert (0 <= inject_Z n * c) as H0 by (apply Qmult_le_0_compat; lra).
  apply trunc_mono.
  - by apply round_nonneg.
  - apply round_mono.
    rewrite (Qmult_comm _ c), (Qmult_comm _ c').
    by apply Qmult_le_compat_r.
Qed.

End Scaling.

(** The geometry of [create_icon] in integer arithmetic. *)

Lemma padding_exact (size : Z) :
  (0 <= size < 2 ^ 31)%Z -> padding size = (15 * size / 100)%Z.
Proof. intros Hs. unfold padding. by apply times_0_15. Qed.

Lemma inner_range (size : Z) :
  (0 <= size < 2 ^ 31)%Z -> (0 <= size - 2 * padding size < 2 ^ 31)%Z.
Proof.
  intros Hs. rewrite padding_exact by done.
  pose proof (Z.mul_div_le (15 * size) 100 ltac:(lia)).
  assert (0 <= 15 * size / 100)%Z by (apply Z.div_pos; lia).
  lia.
Qed.

Lemma inner_part_exact (size : Z) :
  (0 <= size < 2 ^ 31)%Z ->
  let n := (size - 2 * (15 * size / 100))%Z in
  inner_part size 2 = (2 * n / 10)%Z
  /\ inner_part size 8 = (8 * n / 10)%Z
  /\ inner_part size 3 = (3 * n / 10)%Z
  /\ inner_part size 5 = (n / 2)%Z
  /\ (7 * n / 10 - 1 <= inner_part size 7 <= 7 * n / 10)%Z
  /\ (n / 2 <= inner_part size 7)%Z.
Proof.
  intros Hs n. pose proof (inner_range size Hs) as Hn.
  unfold inner_part. rewrite padding_exact in Hn |- * by done. fold n in Hn |- *.
  rewrite times_0_2, times_0_8, times_0_3, times_0_5 by done.
  repeat split; try apply (times_0_7 n Hn).
  rewrite <- (times_0_5 n Hn).
  apply part_mono; [done| |]; rewrite literal_0_5; [|rewrite literal_0_7]; lra.
Qed.

End Literals.
(** ** The gradient in exact arithmetic

    On every canvas size the binary64 computation of a channel gives the
    floor of the exact interpolated value: the three roundings move the
    value by less than [2^-43], and an exact value that is not an integer
    is at least [1 / size] away from one. *)

Section GradientFloor.

Import B64 B64Facts.
Local Open Scope Q_scope.

(** Absolute error of one rounding, for a value of either sign. *)
Lemma round_err (x B : Q) :
Qabs x <= B ->
- B <= 9007199254740992 * (round x - x)
/\ 9007199254740992 * (round x - x) <= B.
Proof.
intros HB.
destruct (Qlt_le_dec 0 x) as [Hpos|Hneg].
- rewrite Qabs_pos in HB by lra.
  destruct (round_rel x Hpos). split; lra.
- destruct (Qeq_dec x 0) as [H0|H0].
  + rewrite (round_zero x H0). rewrite H0 in HB |- *.
    change (Qabs 0) with 0 in HB. split; lra.
  + rewrite Qabs_neg in HB by lra.
    assert (0 < - x) as Hpos by lra.
    destruct (round_rel (- x) Hpos) as [H1 H2].
    rewrite round_opp in H1, H2. split; lra.
Qed.

Section ChannelFloor.

Variables a d : Z.
Hypothesis a_range : (0 <= a <= 255)%Z.
Hypothesis sum_range : (0 <= a + d <= 255)%Z.

(** The interpolated value before truncation is within [2^-43] of the
exact one. *)
Lemma blend_err (q : Q) :
  0 <= q -> q <= 1 ->
  let s := add (of_int a) (mul (of_int d) (round q)) in
  let e := inject_Z a + inject_Z d * q in
  - (1 # 8796093022208) <= s - e /\ s - e <= 1 # 8796093022208.
Proof.
  intros Hq0 Hq1 s e. subst s e.
  assert (Z.abs d <= 255)%Z as Hd by lia.
  unfold add, mul. rewrite !of_int_exact by lia.
  set (D := inject_Z (Z.abs d)).
  assert (0 <= D) as HD0 by (apply inject_Z_nonneg; lia).
  assert (D <= 255) as HD
by (unfold D; change 255 with (inject_Z 255); rewrite <- Zle_Qle; lia).
  assert (0 <= inject_Z a /\ inject_Z a <= 255) as [Ha0 Ha1].
  { split; [apply inject_Z_nonneg; lia|].
change 255 with (inject_Z 255). rewrite <- Zle_Qle; lia. }
  assert (Qabs (inject_Z d) == D) as HabsD.
  { unfold D. destruct (Z.abs_spec d) as [[? ->]|[? ->]].
- apply Qabs_pos. by apply inject_Z_nonneg.
- rewrite inject_Z_opp. apply Qabs_neg.
  change 0 with (inject_Z 0). rewrite <- Zle_Qle. lia. }
  (* the ratio *)
  assert (0 <= round q /\ round q <= 1) as [Hr0 Hr1].
  { split; [by apply round_nonneg|].
rewrite <- (round_int 1) by lia. by apply round_mono. }
  destruct (round_err q 1) as [Hq2 Hq3]; [rewrite Qabs_pos; lra|].
  (* the product *)
  assert (Qabs (inject_Z d * round q) <= D) as Hx.
  { rewrite Qabs_Qmult, HabsD, (Qabs_pos (round q)) by done.
rewrite <- (Qmult_1_r D) at 2.
rewrite (Qmult_comm D (round q)), (Qmult_comm D 1).
by apply Qmult_le_compat_r. }
  destruct (round_err (inject_Z d * round q) D Hx) as [Ht1 Ht2].
  assert (Qabs (inject_Z d * round q - inject_Z d * q) * 9007199254740992 <= D) as Hdq.
  { assert (inject_Z d * round q - inject_Z d * q == inject_Z d * (round q - q)) as ->
  by ring.
rewrite Qabs_Qmult, HabsD.
assert (Qabs (round q - q) * 9007199254740992 <= 1) as H.
{ apply Qabs_case; intros; lra. }
rewrite <- Qmult_assoc.
rewrite <- (Qmult_1_r D) at 2.
rewrite (Qmult_comm D (_ * _)), (Qmult_comm D 1).
by apply Qmult_le_compat_r. }
  apply Qabs_Qle_condition in Hx as [Hx1 Hx2].
  assert (- D <= 9007199254740992 * (inject_Z d * round q - inject_Z d * q)
      /\ 9007199254740992 * (inject_Z d * round q - inject_Z d * q) <= D)
as [Hdq1 Hdq2].
  { revert Hdq. apply Qabs_case; intros; split; lra. }
  set (X := inject_Z d * round q) in *.
  set (Y := inject_Z d * q) in *.
  set (t := round X) in *.
  (* the sum *)
  assert (Qabs (inject_Z a + t) <= 511) as Hs.
  { apply Qabs_Qle_condition. split; lra. }
  destruct (round_err (inject_Z a + t) 511 Hs) as [Hs1 Hs2].
  clearbody X Y t D. split; lra.
Qed.

Lemma channel_proper (r r' : Q) : r == r' -> channel a d r = channel a d r'.
Proof. intros Hr. unfold channel, add, mul. by rewrite Hr. Qed.

(** Where the exact interpolated value is an integer, the ratio is one of
the finitely many [i / |d|]; their images are checked by evaluation. *)
Hypothesis table : integer_points_ok a d = true.

Lemma channel_at_integer_point (i : Z) :
  (0 <= i < Z.abs d)%Z ->
  channel a d (round (inject_Z i / inject_Z (Z.abs d))) = (a + Z.sgn d * i)%Z.
Proof.
  intros Hi. unfold integer_points_ok in table.
  rewrite forallb_forall in table.
  specialize (table i). apply Z.eqb_eq, table.
  apply list_elem_of_In, elem_of_seqZ. lia.
Qed.

Lemma channel_flat (r : Q) : d = 0%Z -> channel a d r = a.
Proof.
  intros ->. unfold channel, add, mul.
  assert (of_int 0 * r == 0) as ->
by (unfold of_int; rewrite (round_zero (inject_Z 0)); [ring|done]).
  rewrite (round_zero 0) by done. rewrite of_int_exact by lia.
  rewrite Qplus_0_r, round_int by lia. apply trunc_int.
Qed.

Lemma Zdiv_Qeq (n m n' m' : Z) :
  m <> 0%Z -> m' <> 0%Z -> (n * m' = n' * m)%Z ->
  inject_Z n / inject_Z m == inject_Z n' / inject_Z m'.
Proof.
  intros Hm Hm' H. apply Zeq_Qeq in H. rewrite !inject_Z_mult in H.
  assert (~ inject_Z m == 0) by (intros E; by apply (inject_Z_injective m 0) in E).
  assert (~ inject_Z m' == 0) by (intros E; by apply (inject_Z_injective m' 0) in E).
  apply (Qmult_inj_r _ _ (inject_Z m * inject_Z m')).
  - intros E. apply Qmult_integral in E as [E|E]; done.
  - transitivity (inject_Z n * inject_Z m'); [field; done|].
rewrite H. field; done.
Qed.

Lemma channel_floor (size y : Z) :
  (0 < size < 2 ^ 31)%Z -> (0 <= y < size)%Z ->
  channel a d (truediv y size) = ((a * size + d * y) / size)%Z.
Proof.
  intros Hs Hy.
  set (N := (a * size + d * y)%Z).
  assert (0 <= N)%Z as HN by (unfold N; nia).
  pose proof (Z.div_mod N size ltac:(lia)) as Hdm.
  pose proof (Z.mod_pos_bound N size ltac:(lia)) as Hj.
  assert (0 <= N / size)%Z as HK0 by (apply Z.div_pos; lia).
  assert (N / size <= 255)%Z as HK1.
  { apply Z.div_le_upper_bound; [lia|]. unfold N. nia. }
  set (K := (N / size)%Z) in *. set (j := (N mod size)%Z) in *.
  assert (~ inject_Z size == 0) as Hsz.
  { intros H. apply (inject_Z_injective size 0) in H. lia. }
  assert (0 < inject_Z size) as Hspos
by (change 0 with (inject_Z 0); rewrite <- Zlt_Qlt; lia).
  set (q := inject_Z y / inject_Z size).
  assert (q * inject_Z size == inject_Z y) as Hq by (unfold q; field; done).
  assert (0 <= q /\ q < 1) as [Hq0 Hq1].
  { assert (0 <= inject_Z y) by (apply inject_Z_nonneg; lia).
assert (inject_Z y < inject_Z size) by (rewrite <- Zlt_Qlt; lia).
split.
- apply Qle_shift_div_l; lra.
- apply Qlt_shift_div_r; lra. }
  destruct (Z.eq_dec j 0%Z) as [Hj0|Hj0].
  - (* the exact value is the integer [K] *)
assert (d * y = (K - a) * size)%Z as Hdy by (unfold N in *; lia).
destruct (Z.eq_dec d 0%Z) as [Hd0|Hd0].
+ assert (K = a) as -> by nia. by apply channel_flat.
+ set (m := (K - a)%Z) in *.
  assert (Z.abs m < Z.abs d)%Z as Hmd by nia.
  assert (Z.sgn d * Z.abs m = m)%Z as Hsgn by nia.
  assert (q == inject_Z (Z.abs m) / inject_Z (Z.abs d)) as Hqm.
  { unfold q. apply Zdiv_Qeq; [lia|lia|]. nia. }
  unfold truediv. fold q.
  rewrite (channel_proper _ _ (round_proper _ _ Hqm)).
  rewrite channel_at_integer_point by lia. lia.
  - (* the exact value is at least [1 / size] away from the integers *)
unfold truediv. fold q.
destruct (blend_err q Hq0 ltac:(lra)) as [He1 He2]. cbn zeta in He1, He2.
set (s := add (of_int a) (mul (of_int d) (round q))) in *.
set (f := inject_Z a + inject_Z d * q - inject_Z K).
assert (f * inject_Z size == inject_Z j) as Hf.
{ unfold f. assert (j = a * size + d * y + - (size * K))%Z as ->
    by (unfold N in *; lia).
  rewrite !inject_Z_plus, inject_Z_opp, !inject_Z_mult.
  rewrite <- Hq. ring. }
assert (1 <= inject_Z j) as Hj1
  by (change 1 with (inject_Z 1); rewrite <- Zle_Qle; lia).
assert (inject_Z j <= inject_Z size - 1) as Hj2.
{ assert (j + 1 <= size)%Z as H by lia.
  rewrite Zle_Qle, inject_Z_plus in H. change (inject_Z 1) with 1 in H. lra. }
assert (inject_Z size < 2147483648) as Hs31 by (apply inject_Z_lt_2_31; lia).
assert ((1 # 2147483648) < f) as Hf1.
{ apply Qnot_le_lt. intros Hle.
  assert (f * inject_Z size <= (1 # 2147483648) * inject_Z size)
    by (apply Qmult_le_compat_r; lra).
  lra. }
assert (f < 1 - (1 # 2147483648)) as Hf2.
{ apply Qnot_le_lt. intros Hle.
  assert ((1 - (1 # 2147483648)) * inject_Z size <= f * inject_Z size)
    by (apply Qmult_le_compat_r; lra).
  lra. }
unfold channel. fold s. apply trunc_unique; [done| |]; unfold f in *; lra.
Qed.

End ChannelFloor.

Lemma gradient_exact (size y : Z) :
(0 < size)%Z -> (size <= INT_MAX)%Z -> (0 <= y < size)%Z ->
gradient size y = gradient_floor size y.
Proof.
intros Hs Hmax Hy. unfold INT_MAX in Hmax.
rewrite gradient_channels. unfold gradient_floor.
rewrite (channel_floor 139 (59 - 139)), (channel_floor 92 (130 - 92)),
  (channel_floor 246 (246 - 246)); try lia; try (vm_compute; reflexivity).
replace (246 * size + (246 - 246) * y)%Z with (246 * size)%Z by lia.
by rewrite Z.div_mul by lia.
Qed.

End GradientFloor.
(** ** The renderer *)

Section Renderer.

Implicit Types (size x y : Z).

Lemma stroke_calls_white size : Forall white_stroke (stroke_calls size).
Proof. unfold stroke_calls. repeat constructor. Qed.

(** [create_icon] is the canvas left by its drawing calls, in order. *)
Lemma create_icon_calls size :
  create_icon size
  = foldl ImageDraw.draw (Imaging.new "RGBA" (size, size) (0, 0, 0, 0))
          (background_calls size ++ stroke_calls size).
Proof. unfold create_icon, background. by rewrite foldl_app. Qed.

(** Every segment the renderer draws is horizontal, so no call falls into
    the part of the library that is left out of the model. *)
Lemma create_icon_calls_axis_parallel size :
  Forall axis_parallel (background_calls size ++ stroke_calls size).
Proof.
  apply Forall_app. split.
  - unfold background_calls. by apply Forall_fmap, Forall_true.
  - unfold stroke_calls. by repeat constructor.
Qed.

(** The finished canvas, pixel by pixel: white under a stroke, the row's
    gradient colour elsewhere. *)
Lemma create_icon_pixel size x y :
  0 <= x < size → 0 <= y < size →
  Imaging.pixel_at (create_icon size) x y
  = Some (if under_stroke size x y then white else gradient size y).
Proof.
  intros Hx Hy. unfold create_icon.
  rewrite pixel_at_white_strokes by apply stroke_calls_white.
  rewrite background_pixel by done.
  rewrite getink_gradient by lia. reflexivity.
Qed.

Lemma create_icon_rows size :
  0 < size →
  Z.of_nat (length (image32 (create_icon size))) = size
  ∧ Forall (λ row, Z.of_nat (length row) = size) (image32 (create_icon size)).
Proof.
  intros Hs.
  pose proof (create_icon_frame size) as Hf. unfold frame, shape in Hf.
  injection Hf as _ _ _ Hshape.
  split.
  - rewrite <- (length_fmap length), Hshape, length_replicate. lia.
  - apply Forall_forall. intros row Hrow.
    assert (length row ∈ length <$> image32 (create_icon size)) as Hin
      by (by apply list_elem_of_fmap_2).
    rewrite Hshape in Hin. apply elem_of_replicate in Hin as [-> _]. lia.
Qed.

(** C8.  For every size > 0 the canvas returned by [create_icon] is
    exactly size by size pixels: its recorded width and height are [size],
    its buffer has [size] rows, and every row has [size] pixels. *)
Theorem create_icon_dimensions size :
  0 < size →
  xsize (create_icon size) = size
  ∧ ysize (create_icon size) = size
  ∧ Z.of_nat (length (image32 (create_icon size))) = size
  ∧ Forall (λ row, Z.of_nat (length row) = size) (image32 (create_icon size)).
Proof.
  intros Hs.
  pose proof (create_icon_frame size) as Hf. unfold frame in Hf.
  injection Hf as _ Hx Hy _.
  destruct (create_icon_rows size Hs) as [Hrows Hcols].
  done.
Qed.

Lemma create_icon_dimensions_at_16 :
  0 < 16
  ∧ xsize (create_icon 16) = 16
  ∧ ysize (create_icon 16) = 16
  ∧ Z.of_nat (length (image32 (create_icon 16))) = 16
  ∧ Forall (λ row, Z.of_nat (length row) = 16) (image32 (create_icon 16)).
Proof. split; [lia | apply (create_icon_dimensions 16); lia]. Defined.

(** C9.  For every size > 0, every pixel of the canvas returned by
    [create_icon] is fully opaque (alpha 255); none is left at the initial
    transparent fill (0, 0, 0, 0). *)
Theorem create_icon_opaque size x y :
  0 < size → 0 <= x < size → 0 <= y < size →
  ∃ col, Imaging.pixel_at (create_icon size) x y = Some col
         ∧ alpha col = 255 ∧ col ≠ (0, 0, 0, 0).
Proof.
  intros _ Hx Hy.
  destruct (create_icon_opaque_at size x y Hx Hy) as (col & Hcol & Ha).
  exists col. split; [done|]. split; [done|].
  intros ->. discriminate Ha.
Qed.

Lemma create_icon_opaque_at_16 :
  0 < 16 ∧ 0 <= 5 < 16 ∧ 0 <= 15 < 16
  ∧ ∃ col, Imaging.pixel_at (create_icon 16) 5 15 = Some col
           ∧ alpha col = 255 ∧ col ≠ (0, 0, 0, 0).
Proof.
  split; [lia|]. split; [lia|]. split; [lia|].
  apply (create_icon_opaque 16 5 15); lia.
Defined.

(** C1, as the code has it.  For every size > 0 the four corner pixels of
    the canvas returned by [create_icon] have alpha 255: a corner shows
    the gradient colour of its row, or white where a stroke covers it. *)
Theorem corner_pixels_opaque size :
  0 < size →
  Forall (λ '(x, y),
            Imaging.pixel_at (create_icon size) x y
            = Some (if under_stroke size x y then white else gradient size y)
            ∧ alpha (if under_stroke size x y then white else gradient size y) = 255)
         (corners size).
Proof.
  intros Hs. unfold corners.
  repeat constructor;
    try (apply create_icon_pixel; lia);
    by destruct (under_stroke _ _ _).
Qed.

Lemma corner_pixels_opaque_at_16 :
  0 < 16
  ∧ Forall (λ '(x, y),
              Imaging.pixel_at (create_icon 16) x y
              = Some (if under_stroke 16 x y then white else gradient 16 y)
              ∧ alpha (if under_stroke 16 x y then white else gradient 16 y) = 255)
           (corners 16).
Proof. split; [lia | apply (corner_pixels_opaque 16); lia]. Defined.

(** C1, as stated, fails at size 16: no stroke covers the corner (0, 0),
    and its alpha is 255, not 0. *)
Lemma corner_alpha_not_zero_at_16 :
  under_stroke 16 0 0 = false
  ∧ Imaging.pixel_at (create_icon 16) 0 0 = Some (139, 92, 246, 255)
  ∧ alpha (139, 92, 246, 255) ≠ 0.
Proof. split; [|split]; [vm_compute; reflexivity..|discriminate]. Qed.

(** C2.  For every size > 0 the background loop leaves row [y] of every
    column with the colour [gradient size y], the interpolation
    [int(start + (end - start) * (y / size))] of each channel: it is
    (139, 92, 246) at row 0, its red channel does not increase with [y]
    and stays within 59..139, its green channel does not decrease and
    stays within 92..130, its blue channel is 246, and it does not depend
    on the column.  The finished canvas keeps that colour wherever no
    stroke is drawn.  On every size a canvas can have, the value is the
    floor of the exact interpolation [start + (end - start) * y / size]. *)
Theorem background_gradient size x x' y y' :
  0 < size → 0 <= x < size → 0 <= x' < size →
  0 <= y → y <= y' → y' < size →
  Imaging.pixel_at (background size) x 0 = Some (139, 92, 246, 255)
  ∧ Imaging.pixel_at (background size) x y = Some (gradient size y)
  ∧ Imaging.pixel_at (background size) x' y = Imaging.pixel_at (background size) x y
  ∧ (∃ r g r' g',
       gradient size y = (r, g, 246, 255)
       ∧ gradient size y' = (r', g', 246, 255)
       ∧ 59 <= r' ∧ r' <= r ∧ r <= 139
       ∧ 92 <= g ∧ g <= g' ∧ g' <= 130)
  ∧ Imaging.pixel_at (create_icon size) x y
    = Some (if under_stroke size x y then white else gradient size y)
  ∧ (size <= INT_MAX → gradient size y = gradient_floor size y).
Proof.
  intros Hs Hx Hx' Hy Hyy' Hy'.
  rewrite !background_pixel by lia.
  rewrite !getink_gradient by lia.
  rewrite gradient_start by done.
  split; [done|]. split; [done|]. split; [done|].
  split; [|split; [apply create_icon_pixel; lia|]].
  2:{ intros Hmax. apply gradient_exact; lia. }
  destruct (gradient_bounds size y) as (r & g & Hg & Hr1 & Hg1); [lia..|].
  destruct (gradient_bounds size y') as (r' & g' & Hg' & Hr2 & Hg2); [lia..|].
  pose proof (gradient_mono size y y' Hs Hy Hyy' Hy') as [Hmr Hmg].
  rewrite Hg, Hg' in Hmr, Hmg; simpl in Hmr, Hmg.
  exists r, g, r', g'. split; [exact Hg|]. split; [exact Hg'|]. lia.
Qed.

Lemma background_gradient_at_16 :
  0 < 16 ∧ 0 <= 3 < 16 ∧ 0 <= 9 < 16 ∧ 0 <= 4 ∧ 4 <= 11 ∧ 11 < 16
  ∧ Imaging.pixel_at (background 16) 3 0 = Some (139, 92, 246, 255)
  ∧ Imaging.pixel_at (background 16) 3 4 = Some (gradient 16 4)
  ∧ Imaging.pixel_at (background 16) 9 4 = Imaging.pixel_at (background 16) 3 4
  ∧ (∃ r g r' g',
       gradient 16 4 = (r, g, 246, 255)
       ∧ gradient 16 11 = (r', g', 246, 255)
       ∧ 59 <= r' ∧ r' <= r ∧ r <= 139
       ∧ 92 <= g ∧ g <= g' ∧ g' <= 130)
  ∧ Imaging.pixel_at (create_icon 16) 3 4
    = Some (if under_stroke 16 3 4 then white else gradient 16 4)
  ∧ (16 <= INT_MAX → gradient 16 4 = gradient_floor 16 4).
Proof.
  do 6 (split; [lia|]).
  apply (background_gradient 16 3 9 4 11); lia.
Defined.

(** C3, as the code has it.  For every size from 1 up to the largest
    canvas dimension, with [p = floor(15 * size / 100)] and
    [n = size - 2 * p]: the strokes are the unfilled white outline of
    [(p, p, size - p, size - p)] and three horizontal white lines inside
    it, from [p + floor(2 * n / 10)] to [p + floor(8 * n / 10)], at rows
    [p + floor(3 * n / 10)], [p + floor(n / 2)] and [p + d3], where [d3]
    is [floor(7 * n / 10)] or one less; the third line ends
    [floor(2 * n / 10)] columns earlier, which makes it shorter exactly
    when [n >= 5], and that holds for every size of 5 or more. *)
Theorem stroke_geometry size :
  0 < size → size <= INT_MAX →
  let p := 15 * size / 100 in
  let n := size - 2 * p in
  ∃ d3,
    stroke_calls size
    = [ rectangle (p, p, size - p, size - p) None (Some white) (line_width size);
        line ((p + 2 * n / 10, p + 3 * n / 10), (p + 8 * n / 10, p + 3 * n / 10))
             white (line_width size);
        line ((p + 2 * n / 10, p + n / 2), (p + 8 * n / 10, p + n / 2))
             white (line_width size);
        line ((p + 2 * n / 10, p + d3), (p + 8 * n / 10 - 2 * n / 10, p + d3))
             white (line_width size) ]
    ∧ 7 * n / 10 - 1 <= d3 ∧ d3 <= 7 * n / 10 ∧ n / 2 <= d3
    ∧ 0 <= p ∧ 0 < n
    ∧ p + 2 * n / 10 <= p + 8 * n / 10 - 2 * n / 10
    ∧ p + 8 * n / 10 <= size - p
    ∧ p + 3 * n / 10 <= p + n / 2 ∧ p + d3 <= size - p
    ∧ ((0 < 2 * n / 10) ↔ 5 <= n)
    ∧ ((5 <= n) ↔ 5 <= size).
Proof.
  intros Hs Hmax p n. unfold INT_MAX in Hmax.
  assert (0 <= size < 2 ^ 31) as Hrange by lia.
  destruct (inner_part_exact size Hrange) as (H2 & H8 & H3 & H5 & H7 & H57).
  fold p n in H2, H8, H3, H5, H7, H57.
  exists (inner_part size 7).
  unfold stroke_calls, line_start_x, line_end_x, line1_y, line2_y, line3_y.
  rewrite (padding_exact size Hrange). fold p.
  rewrite H2, H8, H3, H5.
  split; [done|].
  pose proof (Z.mul_div_le (15 * size) 100 ltac:(lia)) as Hp1.
  pose proof (Z.mul_succ_div_gt (15 * size) 100 ltac:(lia)) as Hp2.
  fold p in Hp1, Hp2.
  assert (0 <= p) as Hp0 by (apply Z.div_pos; lia).
  pose proof (Z.mul_div_le (2 * n) 10 ltac:(lia)).
  pose proof (Z.mul_succ_div_gt (2 * n) 10 ltac:(lia)).
  pose proof (Z.mul_div_le (8 * n) 10 ltac:(lia)).
  pose proof (Z.mul_succ_div_gt (8 * n) 10 ltac:(lia)).
  pose proof (Z.mul_div_le (3 * n) 10 ltac:(lia)).
  pose proof (Z.mul_succ_div_gt (3 * n) 10 ltac:(lia)).
  pose proof (Z.mul_div_le (7 * n) 10 ltac:(lia)).
  pose proof (Z.mul_succ_div_gt (7 * n) 10 ltac:(lia)).
  pose proof (Z.mul_div_le n 2 ltac:(lia)).
  pose proof (Z.mul_succ_div_gt n 2 ltac:(lia)).
  subst n. lia.
Qed.

Lemma stroke_geometry_at_48 :
  0 < 48 ∧ 48 <= INT_MAX
  ∧ let p := 15 * 48 / 100 in
    let n := 48 - 2 * p in
    ∃ d3,
      stroke_calls 48
      = [ rectangle (p, p, 48 - p, 48 - p) None (Some white) (line_width 48);
          line ((p + 2 * n / 10, p + 3 * n / 10), (p + 8 * n / 10, p + 3 * n / 10))
               white (line_width 48);
          line ((p + 2 * n / 10, p + n / 2), (p + 8 * n / 10, p + n / 2))
               white (line_width 48);
          line ((p + 2 * n / 10, p + d3), (p + 8 * n / 10 - 2 * n / 10, p + d3))
               white (line_width 48) ]
      ∧ 7 * n / 10 - 1 <= d3 ∧ d3 <= 7 * n / 10 ∧ n / 2 <= d3
      ∧ 0 <= p ∧ 0 < n
      ∧ p + 2 * n / 10 <= p + 8 * n / 10 - 2 * n / 10
      ∧ p + 8 * n / 10 <= 48 - p
      ∧ p + 3 * n / 10 <= p + n / 2 ∧ p + d3 <= 48 - p
      ∧ ((0 < 2 * n / 10) ↔ 5 <= n)
      ∧ ((5 <= n) ↔ 5 <= 48).
Proof.
  split; [lia|]. split; [by vm_compute|].
  apply (stroke_geometry 48); [lia | by vm_compute].
Defined.

(** C3, as stated, fails at size 4: the third line spans the same columns
    as the other two, so it is not shorter. *)
Lemma third_line_not_shorter_at_4 :
  stroke_calls 4
  = [ rectangle (0, 0, 4, 4) None (Some white) 2;
      line ((0, 1), (3, 1)) white 2;
      line ((0, 2), (3, 2)) white 2;
      line ((0, 2), (3, 2)) white 2 ]
  ∧ ¬ line_length (line ((0, 2), (3, 2)) white 2)
      < line_length (line ((0, 1), (3, 1)) white 2).
Proof. split; [vm_compute; reflexivity | simpl; lia]. Qed.

(** At size 128 the inner square has 90 rows and [90 * 0.7] is 63 in exact
    arithmetic, but the binary64 product is just below 63: the third line
    sits at offset 62. *)
Example third_line_row_at_128 :
  padding 128 = 19 ∧ inner_part 128 7 = 62 ∧ 7 * (128 - 2 * 19) / 10 = 63
  ∧ line3_y 128 = 81.
Proof. repeat split; vm_compute; reflexivity. Qed.

End Renderer.
(** ** The row of the third guide line *)

Section ThirdLine.

Import B64 B64Facts.
Local Open Scope Q_scope.

(** Rounding a value of the binade [[2^e, 2^(e+1))]: the multiple of
    [2^(e-52)] within half a step of it, the even one on a tie. *)
Lemma round_on_grid (x : Q) (e M : Z) :
  2 ^ e <= x -> x < 2 ^ (e + 1) ->
  (x - (1 # 2) * 2 ^ (e - 52) < inject_Z M * 2 ^ (e - 52)
   /\ inject_Z M * 2 ^ (e - 52) < x + (1 # 2) * 2 ^ (e - 52))
  \/ (inject_Z M * 2 ^ (e - 52) == x + (1 # 2) * 2 ^ (e - 52)
      /\ Z.even M = true) ->
  round x == inject_Z M * 2 ^ (e - 52).
Proof.
  intros He1 He2 HM.
  pose proof (pow2_pos e) as Hpe.
  pose proof (pow2_pos (e - 52)) as Hc.
  assert (0 < x) as Hx by lra.
  assert (~ x == 0) as Hx0 by lra.
  assert (ilog2 x = e) as He by (apply ilog2_unique; rewrite Qabs_pos; lra).
  rewrite round_nonzero by done. rewrite He.
  pose proof (significand_scale x) as Hs. rewrite He in Hs.
  rewrite (rne_unique (significand x) M); [done|].
  remember (significand x) as s. remember (2 ^ (e - 52)) as c.
  remember (inject_Z M) as qM.
  clear - Hs Hc HM.
  destruct HM as [[H1 H2]|[H1 H2]].
  - left. rewrite <- Hs in H1, H2. split.
    + apply (Qmult_lt_r _ _ c Hc). lra.
    + apply (Qmult_lt_r _ _ c Hc). lra.
  - right. split; [|done]. right. rewrite <- Hs in H1.
    apply (Qmult_inj_r _ _ c); lra.
Qed.


Ltac inject_consts :=
  qz;
  repeat match goal with
         | H : context [inject_Z (Zpos ?p)] |- _ =>
             change (inject_Z (Zpos p)) with (Zpos p # 1) in H
         | |- context [inject_Z (Zpos ?p)] =>
             change (inject_Z (Zpos p)) with (Zpos p # 1)
         end.

Lemma pow2_not_multiple_of_7 (e k : Z) : (0 <= e)%Z -> (2 ^ e)%Z <> (7 * k)%Z.
Proof.
  intros He.
  assert ((2 ^ e) mod 7 = 1 \/ (2 ^ e) mod 7 = 2 \/ (2 ^ e) mod 7 = 4)%Z as H.
  { revert e He. apply natlike_ind; [by left|].
    intros e He IH. rewrite Z.pow_succ_r by done.
    rewrite <- Z.mul_mod_idemp_r by lia.
    destruct IH as [->|[->| ->]]; [right; left|right; right|left]; done. }
  intros E. rewrite E, Z.mul_comm, Z.mod_mul in H by lia. lia.
Qed.

(** [int(n * 0.7)] for a multiple of ten.  In exact arithmetic the
    product is the integer [7 * m]; the literal is below [7/10], the
    product falls short of [7 * m] by [2 * m / 2^52], and it is rounded
    back up to [7 * m] only if that is at most half a step of the binade
    of [7 * m]. *)
Lemma times_0_7_tens (m : Z) :
  (1 <= m)%Z -> (10 * m < 2 ^ 31)%Z ->
  trunc (mul (of_int (10 * m)) (literal 7 1))
  = (7 * m - if bool_decide (2 ^ Z.log2 (7 * m) < 4 * m)%Z then 1 else 0)%Z.
Proof.
  intros Hm1 Hm31.
  rewrite (prod_unfold (10 * m) ltac:(lia)), literal_0_7.
  destruct (Z.log2_spec (7 * m) ltac:(lia)) as [Hl1 Hl2].
  pose proof (Z.log2_nonneg (7 * m)) as Hl0.
  set (e := Z.log2 (7 * m)) in *.
  assert (e < 52)%Z as He52.
  { assert (2 ^ e < 2 ^ 52)%Z as H by lia.
    apply Z.pow_lt_mono_r_iff in H; lia. }
  pose proof (pow2_not_multiple_of_7 e m Hl0) as Hne.
  assert (2 ^ e + 1 <= 7 * m)%Z as Hl1' by lia.
  replace (2 ^ Z.succ e)%Z with (2 * 2 ^ e)%Z in Hl2 by (rewrite Z.pow_succ_r; lia).
  (* the scale of the binade *)
  assert (2 ^ (e - 52) * 4503599627370496 == inject_Z (2 ^ e)) as Hc.
  { rewrite <- pow2_Z by done. rewrite <- pow2_52_val.
    rewrite Qmult_comm. apply pow2_52_scale. }
  assert (inject_Z (2 ^ (52 - e)) * 2 ^ (e - 52) == 1) as HC.
  { rewrite <- pow2_Z by lia. rewrite <- pow2_add.
    by replace (52 - e + (e - 52))%Z with 0%Z by lia. }
  assert (Z.even (7 * m * 2 ^ (52 - e)) = true) as Heven.
  { replace (52 - e)%Z with (Z.succ (51 - e)) by lia.
    rewrite Z.pow_succ_r by lia.
    rewrite !Z.even_mul. simpl. by rewrite orb_true_r. }
  assert (2 ^ e == inject_Z (2 ^ e)) as HP by (by rewrite pow2_Z).
  assert (2 ^ (e + 1) == 2 * inject_Z (2 ^ e)) as HP1
    by (rewrite pow2_succ; by rewrite HP).
  set (x := inject_Z (10 * m) * (3152519739159347 # 4503599627370496)).
  assert (x == 7 * inject_Z m - inject_Z m * (2 # 4503599627370496)) as Hx
    by (unfold x; inject_consts; field).
  clearbody x.
  assert (1 <= inject_Z m) as Hmq
    by (change 1 with (inject_Z 1); by rewrite <- Zle_Qle).
  assert (inject_Z (2 ^ e) + 1 <= 7 * inject_Z m) as HlQ.
  { rewrite Zle_Qle in Hl1'. revert Hl1'. inject_consts. done. }
  assert (7 * inject_Z m < 2 * inject_Z (2 ^ e)) as HuQ.
  { rewrite Zlt_Qlt in Hl2. revert Hl2. inject_consts. done. }
  assert (inject_Z m < 214748365) as Hm31q.
  { change 214748365 with (inject_Z 214748365). rewrite <- Zlt_Qlt. lia. }
  pose proof (pow2_pos (e - 52)) as Hcpos.
  assert (inject_Z (7 * m * 2 ^ (52 - e)) * 2 ^ (e - 52) == 7 * inject_Z m) as HM0.
  { rewrite (inject_Z_mult (7 * m)), <- Qmult_assoc, HC. inject_consts. ring. }
  assert (inject_Z (7 * m * 2 ^ (52 - e) - 1) * 2 ^ (e - 52)
          == 7 * inject_Z m - 2 ^ (e - 52)) as HM1.
  { rewrite <- HM0. unfold Z.sub at 1. rewrite inject_Z_plus.
    change (inject_Z (- (1))) with (- (1)). ring. }
  assert (2 ^ (e - 52) <= 1) as Hc1.
  { change 1 with (2 ^ 0). apply pow2_le. lia. }
  case_bool_decide as Hd.
  - (* the product is rounded down to the value before [7 * m] *)
    assert (round x == 7 * inject_Z m - 2 ^ (e - 52)) as Hr.
    { rewrite (round_on_grid x e (7 * m * 2 ^ (52 - e) - 1)).
      - exact HM1.
      - rewrite HP. lra.
      - rewrite HP1. lra.
      - left. rewrite HM1.
        rewrite Zlt_Qlt in Hd. revert Hd. inject_consts. intros Hd.
        remember (2 ^ (e - 52)) as c. remember (inject_Z (2 ^ e)) as P.
        remember (inject_Z m) as qm. clear - Hx Hc Hd HuQ Hcpos.
        split; lra. }
    assert (inject_Z (7 * m - 1) == 7 * inject_Z m - 1) as HK
      by (unfold Z.sub; rewrite inject_Z_plus, inject_Z_mult; reflexivity).
    rewrite Hr. apply trunc_unique; [lia| |]; rewrite HK; lra.
  - (* the product is rounded up to [7 * m] *)
    assert (round x == inject_Z (7 * m)) as Hr.
    { rewrite (round_on_grid x e (7 * m * 2 ^ (52 - e))).
      - rewrite HM0. inject_consts. ring.
      - rewrite HP. lra.
      - rewrite HP1. lra.
      - rewrite HM0.
        assert (4 * m <= 2 ^ e)%Z as Hd' by lia.
        destruct (Z.eq_dec (4 * m)%Z (2 ^ e)%Z) as [Heq|Hneq].
        + right. split; [|done].
          apply Zeq_Qeq in Heq. revert Heq. inject_consts. intros Heq.
          remember (2 ^ (e - 52)) as c. remember (inject_Z (2 ^ e)) as P.
          remember (inject_Z m) as qm. clear - Hx Hc Heq Hcpos.
          lra.
        + left. assert (4 * m < 2 ^ e)%Z as Hlt by lia.
          rewrite Zlt_Qlt in Hlt. revert Hlt. inject_consts. intros Hlt.
          remember (2 ^ (e - 52)) as c. remember (inject_Z (2 ^ e)) as P.
          remember (inject_Z m) as qm. clear - Hx Hc Hlt Hcpos Hmq.
          split; lra. }
    rewrite Hr, trunc_int. lia.
Qed.


(** Off the multiples of ten the exact product is at least a tenth away
    from the next integer below, and rounding cannot reach it. *)
Lemma times_0_7_off_tens (n : Z) :
  (0 <= n < 2 ^ 31)%Z -> (n mod 10 <> 0)%Z ->
  trunc (mul (of_int n) (literal 7 1)) = (7 * n / 10)%Z.
Proof.
  intros Hn Hmod.
  rewrite (prod_unfold n Hn), literal_0_7.
  pose proof (Z.mul_div_le (7 * n) 10 ltac:(lia)) as H1.
  pose proof (Z.mul_succ_div_gt (7 * n) 10 ltac:(lia)) as H2.
  pose proof (Z.div_mod n 10 ltac:(lia)) as Hdm.
  pose proof (Z.mod_pos_bound n 10 ltac:(lia)) as Hr.
  set (K := (7 * n / 10)%Z) in *.
  assert (0 <= K)%Z as HK0 by (apply Z.div_pos; lia).
  assert (10 * K + 1 <= 7 * n)%Z as H3 by lia.
  assert (7 * n <= 10 * K + 9)%Z as H4 by lia.
  assert (inject_Z n < 2147483648) as Hnq by (apply inject_Z_lt_2_31; lia).
  pose proof (inject_Z_nonneg n ltac:(lia)) as Hn0.
  clearbody K.
  rewrite Zle_Qle in H3, H4. revert H3 H4. inject_consts. intros H3 H4.
  pose proof (trunc_round_between
    (inject_Z n * (3152519739159347 # 4503599627370496)) K K HK0 ltac:(lia)) as H.
  lapply H; [clear H; intros H|lra]. lapply H; [clear H; intros H|lra]. lia.
Qed.

Lemma times_0_7_exact (n : Z) :
  (0 <= n < 2 ^ 31)%Z ->
  trunc (mul (of_int n) (literal 7 1))
  = (7 * n / 10
     - if bool_decide (n mod 10 = 0 /\ 2 ^ Z.log2 (7 * (n / 10)) < 4 * (n / 10))%Z
       then 1 else 0)%Z.
Proof.
  intros Hn.
  destruct (Z.eq_dec (n mod 10)%Z 0%Z) as [Hmod|Hmod].
  - pose proof (Z.div_mod n 10 ltac:(lia)) as Hdm. rewrite Hmod in Hdm.
    set (m := (n / 10)%Z) in *. clearbody m.
    assert (n = 10 * m)%Z as -> by lia.
    replace (7 * (10 * m) / 10)%Z with (7 * m)%Z
      by (apply Z.div_unique_exact; lia).
    destruct (Z.eq_dec m 0%Z) as [->|Hm0].
    + rewrite bool_decide_eq_false_2 by (simpl; lia).
      rewrite (prod_unfold (10 * 0) ltac:(lia)).
      rewrite round_zero by (change (inject_Z (10 * 0)) with 0; ring). done.
    + rewrite times_0_7_tens by lia.
      repeat case_bool_decide; lia.
  - rewrite bool_decide_eq_false_2 by tauto.
    rewrite times_0_7_off_tens by done. lia.
Qed.


Lemma inner_part_7_exact (size : Z) :
  (0 <= size < 2 ^ 31)%Z ->
  let n := (size - 2 * (15 * size / 100))%Z in
  inner_part size 7
  = (7 * n / 10
     - if bool_decide (n mod 10 = 0 /\ 2 ^ Z.log2 (7 * (n / 10)) < 4 * (n / 10))%Z
       then 1 else 0)%Z.
Proof.
  intros Hs n. pose proof (inner_range size Hs) as Hn.
  unfold inner_part. rewrite padding_exact in Hn |- * by done. fold n in Hn |- *.
  by apply times_0_7_exact.
Qed.

End ThirdLine.

(** X6.  The row of the third guide line, exactly.  With
    [p = floor(15 * size / 100)], [n = size - 2 * p] and
    [m = floor(n / 10)], the row [padding + int(n * 0.7)] is
    [p + floor(7 * n / 10)], except when [n] is a multiple of ten and
    the largest power of two up to [7 * m] is below [4 * m]: the float
    product then falls just short of the integer [7 * m] and the row is
    one less.  Size 128 is such a size ([n = 90]: row 81, not 82). *)
Theorem third_line_row (size : Z) :
  0 < size → size <= INT_MAX →
  let p := 15 * size / 100 in
  let n := size - 2 * p in
  let m := n / 10 in
  line3_y size
  = p + 7 * n / 10
    - (if bool_decide (n mod 10 = 0 ∧ 2 ^ Z.log2 (7 * m) < 4 * m) then 1 else 0).
Proof.
  intros Hs Hmax p n m. unfold INT_MAX in Hmax.
  assert (0 <= size < 2 ^ 31) as Hrange by lia.
  unfold line3_y.
  rewrite (padding_exact size Hrange), (inner_part_7_exact size Hrange).
  fold p n m. lia.
Qed.

Lemma third_line_row_of_icon128 :
  0 < 128 ∧ 128 <= INT_MAX
  ∧ let p := 15 * 128 / 100 in
    let n := 128 - 2 * p in
    let m := n / 10 in
    line3_y 128
    = p + 7 * n / 10
      - (if bool_decide (n mod 10 = 0 ∧ 2 ^ Z.log2 (7 * m) < 4 * m) then 1 else 0).
Proof.
  split; [lia|]. split; [unfold INT_MAX; lia|].
  apply (third_line_row 128); unfold INT_MAX; lia.
Defined.
(** ** Where the strokes fall *)

Section StrokeBox.

Implicit Types (size x y : Z).

(** The strokes with every coordinate in integer arithmetic. *)
Lemma stroke_calls_exact size :
  0 < size → size <= INT_MAX →
  let p := 15 * size / 100 in
  let n := size - 2 * p in
  ∃ d3,
    stroke_calls size
    = [ rectangle (p, p, size - p, size - p) None (Some white) (line_width size);
        line ((p + 2 * n / 10, p + 3 * n / 10), (p + 8 * n / 10, p + 3 * n / 10))
             white (line_width size);
        line ((p + 2 * n / 10, p + n / 2), (p + 8 * n / 10, p + n / 2))
             white (line_width size);
        line ((p + 2 * n / 10, p + d3), (p + 8 * n / 10 - 2 * n / 10, p + d3))
             white (line_width size) ]
    ∧ 7 * n / 10 - 1 <= d3 ∧ d3 <= 7 * n / 10 ∧ n / 2 <= d3
    ∧ (d3 = 7 * n / 10 ∨ n = 10 * (n / 10)).
Proof.
  intros Hs Hmax p n. unfold INT_MAX in Hmax.
  assert (0 <= size < 2 ^ 31) as Hrange by lia.
  destruct (inner_part_exact size Hrange) as (H2 & H8 & H3 & H5 & H7 & H57).
  pose proof (inner_part_7_exact size Hrange) as H7e.
  fold p n in H2, H8, H3, H5, H7, H57, H7e.
  exists (inner_part size 7).
  unfold stroke_calls, line_start_x, line_end_x, line1_y, line2_y, line3_y.
  rewrite (padding_exact size Hrange). fold p.
  rewrite H2, H8, H3, H5. split; [done|].
  do 3 (split; [lia|]).
  rewrite H7e. case_bool_decide as Hd; [right|left; lia].
  destruct Hd as [Hd _]. pose proof (Z.div_mod n 10 ltac:(lia)). lia.
Qed.

(** A horizontal segment of the model touches only columns between its
    ends and rows of its band. *)
Lemma touches_hline x0 x1 y0 col w x y :
  1 <= w →
  touches (line ((x0, y0), (x1, y0)) col w) x y = true →
  Z.min x0 x1 <= x <= Z.max x0 x1
  ∧ y0 - ((w + 1) / 2 - 1) <= y <= y0 + w / 2.
Proof.
  intros Hw. simpl. case_bool_decide as Hpt.
  - intros [-> ->]%bool_decide_eq_true.
    pose proof (Z.div_pos w 2 ltac:(lia) ltac:(lia)).
    pose proof (Z.div_le_lower_bound (w + 1) 2 1 ltac:(lia) ltac:(lia)).
    lia.
  - rewrite bool_decide_eq_true_2 by done.
    unfold Imaging.in_hband, Imaging.between.
    intros [H1 H2]%andb_prop. apply bool_decide_eq_true in H1, H2. lia.
Qed.

Lemma touches_outline x0 y0 x1 y1 f o w x y :
  touches (rectangle (x0, y0, x1, y1) f o w) x y
  = bool_decide (w ≠ 0)
    && (bool_decide (Z.min x0 x1 <= x <= Z.max x0 x1)
        && bool_decide (Z.min y0 y1 <= y <= Z.max y0 y1)
        && negb (bool_decide (Z.min x0 x1 + w <= x <= Z.max x0 x1 - w
                              ∧ Z.min y0 y1 + w <= y <= Z.max y0 y1 - w))).
Proof. reflexivity. Qed.

Ltac size_facts size :=
  pose proof (Z.mul_div_le (15 * size) 100 ltac:(lia));
  pose proof (Z.mul_succ_div_gt (15 * size) 100 ltac:(lia));
  pose proof (Z.mul_div_le size 32 ltac:(lia));
  pose proof (Z.mul_succ_div_gt size 32 ltac:(lia)).

Ltac inner_facts n :=
  pose proof (Z.mul_div_le (2 * n) 10 ltac:(lia));
  pose proof (Z.mul_succ_div_gt (2 * n) 10 ltac:(lia));
  pose proof (Z.mul_div_le (8 * n) 10 ltac:(lia));
  pose proof (Z.mul_succ_div_gt (8 * n) 10 ltac:(lia));
  pose proof (Z.mul_div_le (3 * n) 10 ltac:(lia));
  pose proof (Z.mul_succ_div_gt (3 * n) 10 ltac:(lia));
  pose proof (Z.mul_div_le (7 * n) 10 ltac:(lia));
  pose proof (Z.mul_succ_div_gt (7 * n) 10 ltac:(lia));
  pose proof (Z.mul_div_le n 2 ltac:(lia));
  pose proof (Z.mul_succ_div_gt n 2 ltac:(lia)).

Ltac width_facts w :=
  pose proof (Z.mul_div_le w 2 ltac:(lia));
  pose proof (Z.mul_succ_div_gt w 2 ltac:(lia));
  pose proof (Z.mul_div_le (w + 1) 2 ltac:(lia));
  pose proof (Z.mul_succ_div_gt (w + 1) 2 ltac:(lia)).

(** Where the strokes are: nothing outside the bounding square, the
    whole band of the outline inside it. *)
Lemma under_stroke_box size x y :
  0 < size → size <= INT_MAX →
  let p := 15 * size / 100 in
  let w := Z.max 2 (size / 32) in
  (under_stroke size x y = true → p <= x <= size - p ∧ p <= y <= size - p)
  ∧ (p <= x <= size - p → p <= y <= size - p →
     x < p + w ∨ size - p - w < x ∨ y < p + w ∨ size - p - w < y →
     under_stroke size x y = true).
Proof.
  intros Hs Hmax p w.
  destruct (stroke_calls_exact size Hs Hmax) as (d3 & Hcalls & Hd1 & Hd2 & Hd3 & Hd4).
  fold p in Hcalls, Hd1, Hd2, Hd3.
  unfold under_stroke. rewrite Hcalls. clear Hcalls.
  change (line_width size) with w.
  set (n := size - 2 * p) in *.
  size_facts size. fold p in H, H0.
  assert (0 <= p) as Hp0 by (apply Z.div_pos; lia).
  assert (0 < n) as Hn by (unfold n; lia).
  inner_facts n.
  assert (2 <= w) as Hw2 by (unfold w; lia).
  assert (32 * w <= size + 64) as Hw by (unfold w; lia).
  width_facts w.
  split.
  - cbn [existsb]. rewrite touches_outline.
    intros Hex. repeat (apply orb_prop in Hex as [Hex|Hex]); try done.
    + apply andb_prop in Hex as [_ Hex].
      apply andb_prop in Hex as [Hex _].
      apply andb_prop in Hex as [Hx Hy].
      apply bool_decide_eq_true in Hx, Hy. lia.
    + apply touches_hline in Hex; lia.
    + apply touches_hline in Hex; lia.
    + apply touches_hline in Hex; lia.
  - intros Hx Hy Hband. cbn [existsb]. rewrite touches_outline.
    apply orb_true_intro; left.
    rewrite !bool_decide_eq_true_2 by lia. simpl.
    rewrite bool_decide_eq_false_2 by lia. done.
Qed.


(** X1.  The background loop paints every row twice.  Iteration [y] fills
    the rectangle from row [y] to row [y + 1]; the next iteration paints
    row [y + 1] again.  So after [k] iterations the rows above [k] have
    their final colour, row [k] holds the colour of row [k - 1] (for
    [k > 0]), the rows below are still transparent, and after [size]
    iterations the canvas is the finished background: the extra row of
    the last iteration is clipped away. *)
Theorem background_loop_invariant size k x y :
  0 <= x < size → 0 <= y < size → 0 <= k <= size →
  rows_done size (Z.to_nat size) = background size
  ∧ Imaging.pixel_at (rows_done size (Z.to_nat k)) x y
    = Some (if bool_decide (y < k) then gradient size y
            else if bool_decide (y = k ∧ 0 < k) then gradient size (k - 1)
                 else (0, 0, 0, 0)).
Proof.
  intros Hx Hy Hk. split; [by rewrite background_rows_done|].
  rewrite rows_done_pixel by done. rewrite Z2Nat.id by lia.
  repeat case_bool_decide; try lia; try done.
  - by rewrite getink_gradient by lia.
  - replace (y - 1) with (k - 1) by lia. by rewrite getink_gradient by lia.
Qed.

Lemma background_loop_invariant_at_16 :
  0 <= 3 < 16 ∧ 0 <= 5 < 16 ∧ 0 <= 5 <= 16
  ∧ rows_done 16 (Z.to_nat 16) = background 16
  ∧ Imaging.pixel_at (rows_done 16 (Z.to_nat 5)) 3 5
    = Some (if bool_decide (5 < 5) then gradient 16 5
            else if bool_decide (5 = 5 ∧ 0 < 5) then gradient 16 (5 - 1)
                 else (0, 0, 0, 0)).
Proof.
  do 3 (split; [lia|]). apply (background_loop_invariant 16 5 3 5); lia.
Defined.

(** X3.  The strokes stay inside the bounding square.  With
    [p = floor(15 * size / 100)], every pixel left of column [p], above
    row [p], right of column [size - p] or below row [size - p] keeps
    the gradient colour of its row; every pixel of the square that is
    within the line width of one of its four sides is white.  The right
    and bottom sides are column and row [size - p]: the margin is [p]
    pixels on the left and top, [p - 1] on the right and bottom. *)
Theorem strokes_inside_bounding_square size x y :
  0 < size → size <= INT_MAX → 0 <= x < size → 0 <= y < size →
  let p := 15 * size / 100 in
  let w := Z.max 2 (size / 32) in
  (x < p ∨ size - p < x ∨ y < p ∨ size - p < y →
   Imaging.pixel_at (create_icon size) x y = Some (gradient size y))
  ∧ (p <= x <= size - p → p <= y <= size - p →
     x < p + w ∨ size - p - w < x ∨ y < p + w ∨ size - p - w < y →
     Imaging.pixel_at (create_icon size) x y = Some white).
Proof.
  intros Hs Hmax Hx Hy p w.
  destruct (under_stroke_box size x y Hs Hmax) as [Hin Hband].
  fold p w in Hin, Hband.
  rewrite create_icon_pixel by done.
  split.
  - intros Hout. destruct (under_stroke size x y); [|done].
    specialize (Hin eq_refl). lia.
  - intros Hbx Hby Hb. by rewrite Hband.
Qed.

Lemma strokes_inside_bounding_square_at_48 :
  0 < 48 ∧ 48 <= INT_MAX ∧ 0 <= 42 < 48 ∧ 0 <= 20 < 48
  ∧ let p := 15 * 48 / 100 in
    let w := Z.max 2 (48 / 32) in
    (42 < p ∨ 48 - p < 42 ∨ 20 < p ∨ 48 - p < 20 →
     Imaging.pixel_at (create_icon 48) 42 20 = Some (gradient 48 20))
    ∧ (p <= 42 <= 48 - p → p <= 20 <= 48 - p →
       42 < p + w ∨ 48 - p - w < 42 ∨ 20 < p + w ∨ 48 - p - w < 20 →
       Imaging.pixel_at (create_icon 48) 42 20 = Some white).
Proof.
  split; [lia|]. split; [unfold INT_MAX; lia|]. split; [lia|]. split; [lia|].
  apply (strokes_inside_bounding_square 48 42 20); unfold INT_MAX; lia.
Defined.

(** X2.  The colour of the four corner pixels.  The padding is 0 up to
    size 6, and the outline then runs along the top and left edges of
    the canvas: the corners (0, 0), (size - 1, 0) and (0, size - 1) are
    white exactly for sizes 1 to 6.  The bottom right corner is white
    exactly for sizes 1 to 13, as long as the padding is at most 1.
    Every other corner shows the gradient: (139, 92, 246, 255) in the
    top row, the colour of the last row at the bottom. *)
Theorem corner_colours size :
  0 < size → size <= INT_MAX →
  Imaging.pixel_at (create_icon size) 0 0
  = Some (if bool_decide (size <= 6) then white else (139, 92, 246, 255))
  ∧ Imaging.pixel_at (create_icon size) (size - 1) 0
    = Some (if bool_decide (size <= 6) then white else (139, 92, 246, 255))
  ∧ Imaging.pixel_at (create_icon size) 0 (size - 1)
    = Some (if bool_decide (size <= 6) then white else gradient size (size - 1))
  ∧ Imaging.pixel_at (create_icon size) (size - 1) (size - 1)
    = Some (if bool_decide (size <= 13) then white else gradient size (size - 1)).
Proof.
  intros Hs Hmax.
  rewrite !create_icon_pixel by lia.
  rewrite (gradient_start size Hs).
  size_facts size.
  set (p := 15 * size / 100) in *.
  assert (0 <= p) as Hp0 by (apply Z.div_pos; lia).
  assert (2 <= Z.max 2 (size / 32)) as Hw by lia.
  assert (∀ x y, under_stroke size x y = true
                 → p <= x <= size - p ∧ p <= y <= size - p) as Hin
    by (intros x y; apply (under_stroke_box size x y Hs Hmax)).
  assert (∀ x y, p <= x <= size - p → p <= y <= size - p →
                 x < p + 2 ∨ size - p - 2 < x ∨ y < p + 2 ∨ size - p - 2 < y →
                 under_stroke size x y = true) as Hband.
  { intros x y Hx Hy Hb. apply (under_stroke_box size x y Hs Hmax); lia. }
  repeat split; f_equal; case_bool_decide as Hc.
  all: try (by rewrite Hband by lia).
  all: match goal with
       | |- context [under_stroke ?s ?x ?y] =>
           destruct (under_stroke s x y) eqn:E; [apply Hin in E; lia|done]
       end.
Qed.


Lemma corner_colours_at_16 :
  0 < 16 ∧ 16 <= INT_MAX
  ∧ Imaging.pixel_at (create_icon 16) 0 0
    = Some (if bool_decide (16 <= 6) then white else (139, 92, 246, 255))
  ∧ Imaging.pixel_at (create_icon 16) (16 - 1) 0
    = Some (if bool_decide (16 <= 6) then white else (139, 92, 246, 255))
  ∧ Imaging.pixel_at (create_icon 16) 0 (16 - 1)
    = Some (if bool_decide (16 <= 6) then white else gradient 16 (16 - 1))
  ∧ Imaging.pixel_at (create_icon 16) (16 - 1) (16 - 1)
    = Some (if bool_decide (16 <= 13) then white else gradient 16 (16 - 1)).
Proof.
  split; [lia|]. split; [unfold INT_MAX; lia|].
  apply (corner_colours 16); unfold INT_MAX; lia.
Defined.

(** X4.  The gradient stops short of its end colour.  The ratio is
    [y / size] with [y < size], so the last row is
    [(59 + floor(80 / size), 129 - floor(37 / size), 246, 255)]; every
    row has at least that much red and at most that much green, and no
    row has the green value 130 of the end colour (59, 130, 246). *)
Theorem end_colour_not_reached size y :
  0 < size → size <= INT_MAX → 0 <= y < size →
  gradient size (size - 1) = (59 + 80 / size, 129 - 37 / size, 246, 255)
  ∧ ∃ r g, gradient size y = (r, g, 246, 255)
           ∧ 59 + 80 / size <= r ∧ g <= 129 - 37 / size ∧ g <= 129.
Proof.
  intros Hs Hmax Hy.
  rewrite !gradient_exact by lia. unfold gradient_floor.
  assert ((139 * size + (59 - 139) * (size - 1)) / size = 59 + 80 / size) as Hr.
  { replace (139 * size + (59 - 139) * (size - 1)) with (59 * size + 80) by lia.
    by rewrite Z.div_add_l by lia. }
  assert ((92 * size + (130 - 92) * (size - 1)) / size = 129 - 37 / size) as Hg.
  { replace (92 * size + (130 - 92) * (size - 1))
      with (130 * size + - 38) by lia.
    rewrite Z.div_add_l by lia.
    pose proof (Z.mul_div_le 37 size Hs).
    pose proof (Z.mul_succ_div_gt 37 size Hs).
    assert (- 38 / size = - (37 / size) - 1) as ->; [|lia].
    symmetry. apply (Z.div_unique _ _ _ (size * (37 / size) + size - 38)); nia. }
  rewrite Hr, Hg. split; [done|].
  eexists _, _. split; [reflexivity|].
  rewrite <- Hr, <- Hg.
  assert (0 <= 37 / size) by (apply Z.div_pos; lia).
  split; [|split].
  - apply Z.div_le_mono; lia.
  - apply Z.div_le_mono; lia.
  - transitivity (129 - 37 / size); [|lia]. rewrite <- Hg.
    apply Z.div_le_mono; lia.
Qed.

Lemma end_colour_not_reached_at_128 :
  0 < 128 ∧ 128 <= INT_MAX ∧ 0 <= 127 < 128
  ∧ gradient 128 (128 - 1) = (59 + 80 / 128, 129 - 37 / 128, 246, 255)
  ∧ ∃ r g, gradient 128 127 = (r, g, 246, 255)
           ∧ 59 + 80 / 128 <= r ∧ g <= 129 - 37 / 128 ∧ g <= 129.
Proof.
  split; [lia|]. split; [unfold INT_MAX; lia|]. split; [lia|].
  apply (end_colour_not_reached 128 127); unfold INT_MAX; lia.
Defined.


(** X5.  From size 21 on the four strokes are apart.  Two pixels under
    two different strokes (the outline and the three guide lines) are
    at least two columns or two rows from each other: the strokes
    neither overlap nor touch, and a line of background shows between
    any two of them. *)
Theorem strokes_separated size (i j : nat) c1 c2 x y x' y' :
  21 <= size → size <= INT_MAX →
  stroke_calls size !! i = Some c1 → stroke_calls size !! j = Some c2 →
  i ≠ j →
  touches c1 x y = true → touches c2 x' y' = true →
  2 <= Z.abs (x - x') ∨ 2 <= Z.abs (y - y').
Proof.
  intros Hs Hmax Hi Hj Hij H1 H2.
  destruct (stroke_calls_exact size ltac:(lia) Hmax) as (d3 & Hcalls & Hd1 & Hd2 & Hd3 & Hd4).
  rewrite Hcalls in Hi, Hj. clear Hcalls.
  set (p := 15 * size / 100) in *.
  set (n := size - 2 * p) in *.
  assert (Z.max 2 (size / 32) <= line_width size <= Z.max 2 (size / 32))
    as Hlw by done.
  set (w := line_width size) in *. clearbody w.
  size_facts size. fold p in H, H0.
  assert (0 <= p) as Hp0 by (apply Z.div_pos; lia).
  assert (0 < n) as Hn by (unfold n; lia).
  inner_facts n.
  assert (2 <= w) as Hw2 by lia.
  width_facts w.
  assert (n = size - 2 * p) as Hnp by done.
  clearbody n p.
  assert (∀ x0 x1 y0 col x y,
            touches (line ((x0, y0), (x1, y0)) col w) x y = true →
            Z.min x0 x1 <= x <= Z.max x0 x1
            ∧ y0 - ((w + 1) / 2 - 1) <= y <= y0 + w / 2) as Hline
    by (intros; eapply touches_hline; [|done]; lia).
  assert (∀ x0 x1 f o x y,
            x0 <= x1 →
            touches (rectangle (x0, x0, x1, x1) f o w) x y = true →
            x0 <= x <= x1 ∧ x0 <= y <= x1
            ∧ (x < x0 + w ∨ x1 - w < x ∨ y < x0 + w ∨ x1 - w < y)) as Hrect.
  { intros x0 x1 f o a b Hle. rewrite touches_outline.
    intros [_ Ht]%andb_prop. apply andb_prop in Ht as [Ht Hn'].
    apply andb_prop in Ht as [Ha Hb].
    apply bool_decide_eq_true in Ha, Hb.
    apply negb_true_iff, bool_decide_eq_false in Hn'. lia. }
  generalize dependent ((w + 1) / 2). generalize dependent (w / 2).
  generalize dependent (2 * n / 10). generalize dependent (8 * n / 10).
  generalize dependent (3 * n / 10). generalize dependent (7 * n / 10).
  generalize dependent (n / 2). generalize dependent (size / 32).
  intros.
  destruct i as [|[|[|[|i]]]]; simpl in Hi; simplify_eq;
    destruct j as [|[|[|[|j]]]]; simpl in Hj; simplify_eq.
  all: repeat match goal with
       | Ht : touches (line _ _ _) _ _ = true |- _ => apply Hline in Ht
       | Ht : touches (rectangle _ _ _ _) _ _ = true |- _ =>
           apply Hrect in Ht; [|lia]
       end.
  all: lia.
Qed.


Lemma strokes_separated_at_48 :
  21 <= 48 ∧ 48 <= INT_MAX
  ∧ stroke_calls 48 !! 1%nat = Some (line ((13, 17), (34, 17)) white 2)
  ∧ stroke_calls 48 !! 2%nat = Some (line ((13, 24), (34, 24)) white 2)
  ∧ 1%nat ≠ 2%nat
  ∧ touches (line ((13, 17), (34, 17)) white 2) 20 18 = true
  ∧ touches (line ((13, 24), (34, 24)) white 2) 21 24 = true
  ∧ (2 <= Z.abs (20 - 21) ∨ 2 <= Z.abs (18 - 24)).
Proof.
  assert (stroke_calls 48 !! 1%nat = Some (line ((13, 17), (34, 17)) white 2))
    as H1 by (vm_compute; reflexivity).
  assert (stroke_calls 48 !! 2%nat = Some (line ((13, 24), (34, 24)) white 2))
    as H2 by (vm_compute; reflexivity).
  split; [lia|]. split; [unfold INT_MAX; lia|].
  split; [exact H1|]. split; [exact H2|]. split; [lia|].
  split; [reflexivity|]. split; [reflexivity|].
  apply (strokes_separated 48 1 2 _ _ 20 18 21 24
           ltac:(lia) ltac:(unfold INT_MAX; lia) H1 H2 ltac:(lia));
    reflexivity.
Defined.

(** X10.  The gradient is smooth.  From one row to the next the red
    channel falls by at most [floor(80 / size) + 1] and the green
    channel rises by at most [floor(38 / size) + 1]: by at most 1 for
    every size above 80. *)
Theorem gradient_steps size y :
  0 < size → size <= INT_MAX → 0 <= y → y + 1 < size →
  ∃ r g r' g',
    gradient size y = (r, g, 246, 255)
    ∧ gradient size (y + 1) = (r', g', 246, 255)
    ∧ 0 <= r - r' <= 80 / size + 1
    ∧ 0 <= g' - g <= 38 / size + 1
    ∧ (80 < size → r - r' <= 1 ∧ g' - g <= 1).
Proof.
  intros Hs Hmax Hy Hy'.
  rewrite !gradient_exact by lia. unfold gradient_floor.
  eexists _, _, _, _. split; [reflexivity|]. split; [reflexivity|].
  pose proof (Z.mul_div_le (139 * size + (59 - 139) * y) size Hs).
  pose proof (Z.mul_succ_div_gt (139 * size + (59 - 139) * y) size Hs).
  pose proof (Z.mul_div_le (139 * size + (59 - 139) * (y + 1)) size Hs).
  pose proof (Z.mul_succ_div_gt (139 * size + (59 - 139) * (y + 1)) size Hs).
  pose proof (Z.mul_div_le (92 * size + (130 - 92) * y) size Hs).
  pose proof (Z.mul_succ_div_gt (92 * size + (130 - 92) * y) size Hs).
  pose proof (Z.mul_div_le (92 * size + (130 - 92) * (y + 1)) size Hs).
  pose proof (Z.mul_succ_div_gt (92 * size + (130 - 92) * (y + 1)) size Hs).
  pose proof (Z.mul_div_le 80 size Hs).
  pose proof (Z.mul_succ_div_gt 80 size Hs).
  pose proof (Z.mul_div_le 38 size Hs).
  pose proof (Z.mul_succ_div_gt 38 size Hs).
  assert (0 <= 80 / size) by (apply Z.div_pos; lia).
  assert (0 <= 38 / size) by (apply Z.div_pos; lia).
  generalize dependent ((139 * size + (59 - 139) * y) / size).
  generalize dependent ((139 * size + (59 - 139) * (y + 1)) / size).
  generalize dependent ((92 * size + (130 - 92) * y) / size).
  generalize dependent ((92 * size + (130 - 92) * (y + 1)) / size).
  generalize dependent (80 / size). generalize dependent (38 / size).
  intros q38 ? ? ? q80 ? ? ? g' ? ? g ? ? r' ? ? r ? ?.
  assert (80 < size → q80 = 0 ∧ q38 = 0) as Hbig by nia.
  split; [nia|]. split; [nia|].
  intros Hsz. destruct (Hbig Hsz) as [-> ->]. nia.
Qed.

Lemma gradient_steps_at_128 :
  0 < 128 ∧ 128 <= INT_MAX ∧ 0 <= 63 ∧ 63 + 1 < 128
  ∧ ∃ r g r' g',
      gradient 128 63 = (r, g, 246, 255)
      ∧ gradient 128 (63 + 1) = (r', g', 246, 255)
      ∧ 0 <= r - r' <= 80 / 128 + 1
      ∧ 0 <= g' - g <= 38 / 128 + 1
      ∧ (80 < 128 → r - r' <= 1 ∧ g' - g <= 1).
Proof.
  split; [lia|]. split; [unfold INT_MAX; lia|]. split; [lia|]. split; [lia|].
  apply (gradient_steps 128 63); unfold INT_MAX; lia.
Defined.

End StrokeBox.
(** ** The width of the strokes *)

Section StrokeWidth.

Implicit Types (size x y : Z).

Lemma white_iff_under_stroke size x y :
  0 < size → 0 <= x < size → 0 <= y < size →
  Imaging.pixel_at (create_icon size) x y = Some white ↔ under_stroke size x y = true.
Proof.
  intros Hs Hx Hy. rewrite create_icon_pixel by done.
  destruct (gradient_bounds size y Hs Hy) as (r & g & Hg & _). rewrite Hg.
  unfold white.
  destruct (under_stroke size x y); split; intros H; try reflexivity.
  - injection H as _ _ Hb. discriminate Hb.
  - discriminate H.
Qed.

(** The stroke coordinates are in order: the bounding square is not
    empty, and from size 2 on every guide line has a first and a last
    column. *)
Lemma stroke_coordinates_ordered size :
  0 < size → size <= INT_MAX →
  0 <= padding size ∧ 2 * padding size <= size
  ∧ (size = 1 → padding size = 0)
  ∧ (2 <= size →
     line_start_x size < line_end_x size
     ∧ line_start_x size < line_end_x size - inner_part size 2).
Proof.
  intros Hs Hmax.
  assert (0 <= size < 2 ^ 31) as Hrange by (unfold INT_MAX in Hmax; lia).
  destruct (inner_part_exact size Hrange) as (H2 & H8 & _).
  pose proof (padding_exact size Hrange) as Hp.
  unfold line_start_x, line_end_x. rewrite H2, H8, Hp.
  pose proof (Z.mul_div_le (15 * size) 100 ltac:(lia)) as Hp1.
  pose proof (Z.mul_succ_div_gt (15 * size) 100 ltac:(lia)) as Hp2.
  assert (0 <= 15 * size / 100) as Hp0 by (apply Z.div_pos; lia).
  set (p := 15 * size / 100) in *. clearbody p.
  set (n := size - 2 * p).
  assert (n = size - 2 * p) as Hn by done. clearbody n.
  pose proof (Z.mul_div_le (2 * n) 10 ltac:(lia)).
  pose proof (Z.mul_succ_div_gt (2 * n) 10 ltac:(lia)).
  pose proof (Z.mul_div_le (8 * n) 10 ltac:(lia)).
  pose proof (Z.mul_succ_div_gt (8 * n) 10 ltac:(lia)).
  generalize dependent (2 * n / 10). generalize dependent (8 * n / 10).
  intros q8 ? ? q2 ? ?.
  split; [lia|]. split; [lia|]. split; [lia|]. intros Hbig. lia.
Qed.

Lemma touches_hline_iff x0 x1 y0 col w x y :
  x0 < x1 →
  touches (line ((x0, y0), (x1, y0)) col w) x y = true
  ↔ x0 <= x <= x1 ∧ stroke_rows y0 w y.
Proof.
  intros Hlt. cbn [touches].
  rewrite bool_decide_eq_false_2 by lia.
  rewrite bool_decide_eq_true_2 by done.
  unfold Imaging.in_hband, Imaging.between, stroke_rows.
  rewrite andb_true_iff, !bool_decide_eq_true. lia.
Qed.

Lemma touches_outline_iff a b w f o x y :
  a <= b → w ≠ 0 →
  touches (rectangle (a, a, b, b) f o w) x y = true ↔ outline_band a b w x y.
Proof.
  intros Hab Hw. cbn [touches].
  unfold Imaging.in_outline, Imaging.in_box, Imaging.between, outline_band.
  rewrite !andb_true_iff, negb_true_iff, !bool_decide_eq_true, bool_decide_eq_false.
  lia.
Qed.

(** The white pixels of the icon: the outline and the three guide
    lines, each as wide as [line_width] says. *)
Lemma white_pixels size x y :
  0 < size → size <= INT_MAX → 0 <= x < size → 0 <= y < size →
  let w := Z.max 2 (size / 32) in
  let p := padding size in
  Imaging.pixel_at (create_icon size) x y = Some white
  ↔ outline_band p (size - p) w x y
    ∨ (line_start_x size <= x <= line_end_x size ∧ stroke_rows (line1_y size) w y)
    ∨ (line_start_x size <= x <= line_end_x size ∧ stroke_rows (line2_y size) w y)
    ∨ (line_start_x size <= x <= line_end_x size - inner_part size 2
       ∧ stroke_rows (line3_y size) w y).
Proof.
  intros Hs Hmax Hx Hy w p.
  rewrite white_iff_under_stroke by done.
  destruct (stroke_coordinates_ordered size Hs Hmax) as (Hp0 & Hp & Hone & Hord).
  fold p in Hp0, Hp, Hone.
  assert (w ≠ 0) as Hw by (unfold w; lia).
  assert (under_stroke size x y = true
          ↔ touches (rectangle (p, p, size - p, size - p) None (Some white) w) x y = true
            ∨ touches (line ((line_start_x size, line1_y size),
                             (line_end_x size, line1_y size)) white w) x y = true
            ∨ touches (line ((line_start_x size, line2_y size),
                             (line_end_x size, line2_y size)) white w) x y = true
            ∨ touches (line ((line_start_x size, line3_y size),
                             (line_end_x size - inner_part size 2, line3_y size))
                         white w) x y = true) as ->.
  { unfold under_stroke, stroke_calls. cbn [existsb].
    rewrite orb_false_r, !orb_true_iff. reflexivity. }
  rewrite (touches_outline_iff p (size - p)) by lia.
  destruct (decide (size = 1)) as [->|Hbig].
  - (* one pixel, under the outline *)
    assert (outline_band p (1 - p) w x y) as Hin by (unfold outline_band; lia).
    split; intros _; by left.
  - destruct Hord as [H12 H3]; [lia|].
    rewrite !touches_hline_iff by done. reflexivity.
Qed.


Lemma stroke_coordinates_128 :
  padding 128 = 19 ∧ line_start_x 128 = 37 ∧ line_end_x 128 = 91
  ∧ inner_part 128 2 = 18
  ∧ line1_y 128 = 46 ∧ line2_y 128 = 64 ∧ line3_y 128 = 81.
Proof. vm_compute. by repeat split. Qed.

Lemma stroke_coordinates_16 :
  padding 16 = 2 ∧ line_start_x 16 = 4 ∧ line_end_x 16 = 11
  ∧ inner_part 16 2 = 2
  ∧ line1_y 16 = 5 ∧ line2_y 16 = 8 ∧ line3_y 16 = 10.
Proof. vm_compute. by repeat split. Qed.

(** C5.  The outline and the three guide lines are drawn with the width
    [max(2, floor(size / 32))].  A pixel of the icon is white exactly if
    it lies in the bounding square less than that many pixels from one
    of its sides, or between the ends of a guide line in one of the rows
    of its stroke, and a stroke has that many rows.  At size 128 the
    width is 4: a column that crosses all strokes is white in the rows
    19 to 22 and 106 to 109 of the outline and in four rows for each
    guide line.  At size 16 the width is 2. *)
Theorem stroke_width size x y :
  0 < size → size <= INT_MAX → 0 <= x < size → 0 <= y < size →
  let w := Z.max 2 (size / 32) in
  let p := padding size in
  (Imaging.pixel_at (create_icon size) x y = Some white
   ↔ outline_band p (size - p) w x y
     ∨ (line_start_x size <= x <= line_end_x size ∧ stroke_rows (line1_y size) w y)
     ∨ (line_start_x size <= x <= line_end_x size ∧ stroke_rows (line2_y size) w y)
     ∨ (line_start_x size <= x <= line_end_x size - inner_part size 2
        ∧ stroke_rows (line3_y size) w y))
  ∧ (∀ y0, (y0 + w / 2) - (y0 - ((w + 1) / 2 - 1)) + 1 = w)
  ∧ Forall (λ c, call_width c = w) (stroke_calls size)
  ∧ 32 * (size / 32) <= size < 32 * (size / 32) + 32
  ∧ (∀ y', 0 <= y' < 128 →
       Imaging.pixel_at (create_icon 128) 60 y' = Some white
       ↔ 19 <= y' <= 22 ∨ 45 <= y' <= 48 ∨ 63 <= y' <= 66 ∨ 80 <= y' <= 83
         ∨ 106 <= y' <= 109)
  ∧ (∀ y', 0 <= y' < 16 →
       Imaging.pixel_at (create_icon 16) 7 y' = Some white
       ↔ 2 <= y' <= 3 ∨ 5 <= y' <= 6 ∨ 8 <= y' <= 9 ∨ 10 <= y' <= 11
         ∨ 13 <= y' <= 14).
Proof.
  intros Hs Hmax Hx Hy w p.
  split; [by apply white_pixels|].
  split.
  { intros y0. assert (2 <= w) as Hw by (unfold w; lia).
    pose proof (Z.mul_div_le w 2 ltac:(lia)).
    pose proof (Z.mul_succ_div_gt w 2 ltac:(lia)).
    pose proof (Z.mul_div_le (w + 1) 2 ltac:(lia)).
    pose proof (Z.mul_succ_div_gt (w + 1) 2 ltac:(lia)).
    lia. }
  split; [by repeat constructor|].
  split.
  { pose proof (Z.mul_div_le size 32 ltac:(lia)).
    pose proof (Z.mul_succ_div_gt size 32 ltac:(lia)). lia. }
  split.
  - intros y' Hy'.
    rewrite (white_pixels 128 60 y') by (unfold INT_MAX; lia).
    destruct stroke_coordinates_128 as (-> & -> & -> & -> & -> & -> & ->).
    change (Z.max 2 (128 / 32)) with 4.
    unfold outline_band, stroke_rows.
    change ((4 + 1) / 2) with 2. change (4 / 2) with 2. lia.
  - intros y' Hy'.
    rewrite (white_pixels 16 7 y') by (unfold INT_MAX; lia).
    destruct stroke_coordinates_16 as (-> & -> & -> & -> & -> & -> & ->).
    change (Z.max 2 (16 / 32)) with 2.
    unfold outline_band, stroke_rows.
    change ((2 + 1) / 2) with 1. change (2 / 2) with 1. lia.
Qed.

Lemma stroke_width_at_48 :
  0 < 48 ∧ 48 <= INT_MAX ∧ 0 <= 8 < 48 ∧ 0 <= 20 < 48
  ∧ let w := Z.max 2 (48 / 32) in
    let p := padding 48 in
    (Imaging.pixel_at (create_icon 48) 8 20 = Some white
     ↔ outline_band p (48 - p) w 8 20
       ∨ (line_start_x 48 <= 8 <= line_end_x 48 ∧ stroke_rows (line1_y 48) w 20)
       ∨ (line_start_x 48 <= 8 <= line_end_x 48 ∧ stroke_rows (line2_y 48) w 20)
       ∨ (line_start_x 48 <= 8 <= line_end_x 48 - inner_part 48 2
          ∧ stroke_rows (line3_y 48) w 20))
    ∧ (∀ y0, (y0 + w / 2) - (y0 - ((w + 1) / 2 - 1)) + 1 = w)
    ∧ Forall (λ c, call_width c = w) (stroke_calls 48)
    ∧ 32 * (48 / 32) <= 48 < 32 * (48 / 32) + 32
    ∧ (∀ y', 0 <= y' < 128 →
         Imaging.pixel_at (create_icon 128) 60 y' = Some white
         ↔ 19 <= y' <= 22 ∨ 45 <= y' <= 48 ∨ 63 <= y' <= 66 ∨ 80 <= y' <= 83
           ∨ 106 <= y' <= 109)
    ∧ (∀ y', 0 <= y' < 16 →
         Imaging.pixel_at (create_icon 16) 7 y' = Some white
         ↔ 2 <= y' <= 3 ∨ 5 <= y' <= 6 ∨ 8 <= y' <= 9 ∨ 10 <= y' <= 11
           ∨ 13 <= y' <= 14).
Proof.
  split; [lia|]. split; [unfold INT_MAX; lia|]. split; [lia|]. split; [lia|].
  apply (stroke_width 48 8 20); unfold INT_MAX; lia.
Defined.

End StrokeWidth.
(** ** The batch driver *)

Section Driver.

Implicit Types (w : world) (d : gmap string node) (root : gmap string entry)
  (n : node) (size : Z) (im : Image) (P path inner : list string).

Arguments create_icon : simpl never.

Lemma split_icons_dir : OS.split_path icons_dir = ["icons"].
Proof. reflexivity. Qed.

Lemma split_icon_path size :
  size ∈ sizes → OS.split_path (icon_path size) = ["icons"; icon_name size].
Proof.
  unfold sizes. rewrite !elem_of_cons, elem_of_nil.
  intros [->|[->|[->|[]]]]; reflexivity.
Qed.

(** *** Paths and links *)

Lemma canonical_plain links root name rest :
  (∀ t, root !! name ≠ Some (Link t)) →
  OS.canonical links (name :: rest) root = inr (name :: rest).
Proof.
  intros Hno. destruct links; simpl; destruct (root !! name) as [[?|t]|] eqn:E;
    try done; by destruct (Hno t).
Qed.

(** A path that starts at a link-free name is its own canonical form;
    what follows the head of a path is carried along. *)
Lemma canonical_app links root path top inner q :
  OS.canonical links path root = inr (top :: inner) →
  OS.canonical links (path ++ q) root = inr (top :: inner ++ q).
Proof.
  revert path. induction links as [|links IH]; intros path.
  - destruct path as [|name rest]; simpl; [done|].
    destruct (root !! name) as [[?|t]|] eqn:E; try done.
    all: intros [= -> ->]; done.
  - destruct path as [|name rest]; simpl; [done|].
    destruct (root !! name) as [[?|t]|] eqn:E.
    + by intros [= -> ->].
    + rewrite (assoc_L (++)). apply IH.
    + by intros [= -> ->].
Qed.

Lemma canonical_head links root path top inner :
  OS.canonical links path root = inr (top :: inner) →
  ∀ t, root !! top ≠ Some (Link t).
Proof.
  revert path. induction links as [|links IH]; intros path.
  - destruct path as [|name rest]; simpl; [done|].
    destruct (root !! name) as [[?|t]|] eqn:E; try done.
    all: intros [= <- <-] t'; by rewrite E.
  - destruct path as [|name rest]; simpl; [done|].
    destruct (root !! name) as [[?|t]|] eqn:E.
    + intros [= <- <-] t'; by rewrite E.
    + apply IH.
    + intros [= <- <-] t'; by rewrite E.
Qed.

(** The canonical form depends on the links of the working directory
    only. *)
Lemma canonical_ext links root root' path :
  (∀ name t, root' !! name = Some (Link t) ↔ root !! name = Some (Link t)) →
  OS.canonical links path root' = OS.canonical links path root.
Proof.
  intros Hext. revert path. induction links as [|links IH]; intros path.
  - destruct path as [|name rest]; simpl; [done|].
    destruct (root !! name) as [[?|t]|] eqn:E, (root' !! name) as [[?|t']|] eqn:E';
      try done.
    all: try (by apply Hext in E'; rewrite E in E').
    all: by apply Hext in E; rewrite E' in E.
  - destruct path as [|name rest]; simpl; [done|].
    destruct (root !! name) as [[?|t]|] eqn:E, (root' !! name) as [[?|t']|] eqn:E';
      try done.
    all: try (by apply Hext in E'; rewrite E in E').
    all: try (by apply Hext in E; rewrite E' in E).
    apply Hext in E'. rewrite E in E'. injection E' as ->. apply IH.
Qed.

Lemma descend_app path q n :
  OS.descend (path ++ q) n = OS.descend path n ≫= OS.descend q.
Proof.
  revert n. induction path as [|name rest IH]; intros n; simpl; [done|].
  destruct n as [f|d]; [done|]. destruct (d !! name); [apply IH|done].
Qed.

Lemma descend_plant path n' n m :
  OS.descend path n = Some m → OS.descend path (plant path n' n) = Some n'.
Proof.
  revert n. induction path as [|name rest IH]; intros n; simpl; [done|].
  destruct n as [f|d]; [done|].
  destruct (d !! name) as [c|] eqn:E; [|done].
  intros Hm. simpl. rewrite lookup_insert_eq. by apply IH.
Qed.

Lemma plant_plant path n1 n2 n :
  plant path n2 (plant path n1 n) = plant path n2 n.
Proof.
  revert n. induction path as [|name rest IH]; intros n; simpl; [done|].
  destruct n as [f|d]; [done|].
  destruct (d !! name) as [c|] eqn:E; simpl; [|by rewrite E].
  by rewrite lookup_insert_eq, insert_insert_eq, IH.
Qed.

Lemma plant_id path n m :
  OS.descend path n = Some m → plant path m n = n.
Proof.
  revert n. induction path as [|name rest IH]; intros n; simpl.
  - by intros [= ->].
  - destruct n as [f|d]; [done|].
    destruct (d !! name) as [c|] eqn:E; [|done].
    intros Hm. rewrite (IH c Hm). by rewrite insert_id.
Qed.


Lemma locate_inv path root P n :
  OS.locate path root = Some (P, n) →
  ∃ top inner n0,
    P = top :: inner
    ∧ OS.canonical OS.MAXSYMLINKS path root = inr (top :: inner)
    ∧ root !! top = Some (Plain n0)
    ∧ OS.descend inner n0 = Some n.
Proof.
  unfold OS.locate.
  destruct (OS.canonical _ path root) as [e|[|top inner]] eqn:Hc; try done.
  destruct (root !! top) as [[n0|t]|] eqn:E; try done.
  destruct (OS.descend inner n0) as [m|] eqn:Hm; [|done].
  intros [= <- <-]. by exists top, inner, n0.
Qed.

Lemma locate_intro path root top inner n0 n :
  OS.canonical OS.MAXSYMLINKS path root = inr (top :: inner) →
  root !! top = Some (Plain n0) →
  OS.descend inner n0 = Some n →
  OS.locate path root = Some (top :: inner, n).
Proof. intros Hc E Hm. unfold OS.locate. by rewrite Hc, E, Hm. Qed.

Lemma locate_plain root name n :
  root !! name = Some (Plain n) → OS.locate [name] root = Some ([name], n).
Proof.
  intros E. apply (locate_intro _ _ _ _ n); [|done..].
  apply canonical_plain. intros t. by rewrite E.
Qed.

Lemma locate_absent root name : root !! name = None → OS.locate [name] root = None.
Proof.
  intros E. unfold OS.locate.
  rewrite canonical_plain by (intros t; by rewrite E). by rewrite E.
Qed.

Lemma put_links P n' root name t :
  put P n' root !! name = Some (Link t) ↔ root !! name = Some (Link t).
Proof.
  destruct P as [|top inner]; simpl; [done|].
  destruct (root !! top) as [[n0|t0]|] eqn:E; try done.
  destruct (decide (name = top)) as [->|Hne].
  - rewrite lookup_insert_eq, E. split; intros [=].
  - by rewrite lookup_insert_ne.
Qed.


Lemma put_put P n1 n2 root : put P n2 (put P n1 root) = put P n2 root.
Proof.
  destruct P as [|top inner]; simpl; [done|].
  destruct (root !! top) as [[n0|t0]|] eqn:E; simpl; rewrite ?E; try done.
  by rewrite lookup_insert_eq, insert_insert_eq, plant_plant.
Qed.

Lemma put_id path root P n : OS.locate path root = Some (P, n) → put P n root = root.
Proof.
  intros (top & inner & n0 & -> & _ & E & Hm)%locate_inv. simpl. rewrite E.
  rewrite (plant_id _ _ _ Hm). by apply insert_id.
Qed.

Lemma put_top name n n' root :
  root !! name = Some (Plain n) → put [name] n' root = <[name := Plain n']> root.
Proof. intros E. simpl. by rewrite E. Qed.

Lemma locate_put path root P n n' :
  OS.locate path root = Some (P, n) → OS.locate path (put P n' root) = Some (P, n').
Proof.
  intros (top & inner & n0 & -> & Hc & E & Hm)%locate_inv.
  apply (locate_intro _ _ _ _ (plant inner n' n0)).
  - rewrite <- Hc. apply canonical_ext. intros name t. apply put_links.
  - simpl. rewrite E. apply lookup_insert_eq.
  - by apply (descend_plant _ _ _ n).
Qed.

(** What lies in the directory a path leads to. *)
Lemma locate_child path root P d k :
  OS.locate path root = Some (P, Dir d) →
  OS.locate (path ++ [k]) root = (λ c, (P ++ [k], c)) <$> d !! k.
Proof.
  intros (top & inner & n0 & -> & Hc & E & Hm)%locate_inv.
  unfold OS.locate. rewrite (canonical_app _ _ _ _ _ [k] Hc), E.
  rewrite descend_app, Hm. simpl. by destruct (d !! k).
Qed.

Lemma resolve_child path root P d k :
  OS.locate path root = Some (P, Dir d) → OS.resolve (path ++ [k]) root = d !! k.
Proof.
  intros HP. unfold OS.resolve. rewrite (locate_child _ _ _ _ _ HP).
  by destruct (d !! k).
Qed.

(** *** Saving below the directory a path leads to *)

Lemma store_descend inner sub d k data :
  OS.descend inner (Dir sub) = Some (Dir d) →
  ∃ sub',
    plant inner (Dir (<[k := File data]> d)) (Dir sub) = Dir sub'
    ∧ OS.store (inner ++ [k]) data sub
      = match d !! k with
        | Some (Dir _) => inl IsADirectoryError
        | _ => inr sub'
        end.
Proof.
  revert sub. induction inner as [|i inner IH]; intros sub.
  - simpl. intros [= ->]. eexists. split; [done|].
    by destruct (d !! k) as [[?|?]|].
  - simpl. destruct (sub !! i) as [c|] eqn:E; [|done].
    intros Hm. destruct c as [f|sub1].
    { destruct inner; simpl in Hm; done. }
    destruct (IH sub1 Hm) as (sub1' & Hplant & Hstore).
    rewrite Hplant. eexists. split; [done|].
    rewrite Hstore.
    destruct (inner ++ [k]) as [|? ?] eqn:Happ; [by destruct inner|].
    by destruct (d !! k) as [[?|?]|].
Qed.

Lemma store_through_file inner sub f k data :
  OS.descend inner (Dir sub) = Some (File f) →
  OS.store (inner ++ [k]) data sub = inl NotADirectoryError.
Proof.
  revert sub. induction inner as [|i inner IH]; intros sub; [done|].
  simpl. destruct (sub !! i) as [c|] eqn:E; [|done].
  intros Hm. destruct c as [f'|sub1].
  - destruct (inner ++ [k]) as [|? ?] eqn:Happ; [by destruct inner|done].
  - rewrite (IH sub1 Hm).
    destruct (inner ++ [k]) as [|? ?] eqn:Happ; [by destruct inner|done].
Qed.

Lemma write_located path root P d k data :
  OS.locate path root = Some (P, Dir d) →
  OS.write (path ++ [k]) data root
  = match d !! k with
    | Some (Dir _) => inl IsADirectoryError
    | _ => inr (put P (Dir (<[k := File data]> d)) root)
    end.
Proof.
  intros (top & inner & n0 & -> & Hc & E & Hm)%locate_inv.
  unfold OS.write. rewrite (canonical_app _ _ _ _ _ [k] Hc).
  destruct (inner ++ [k]) as [|i rest] eqn:Happ; [by destruct inner|].
  rewrite E.
  destruct n0 as [f|sub]; [by destruct inner|].
  destruct (store_descend inner sub d k data Hm) as (sub' & Hplant & Hstore).
  rewrite <- Happ, Hstore. cbn [put]. rewrite E, Hplant.
  by destruct (d !! k) as [[?|?]|].
Qed.

Lemma write_through_file path root P f k data :
  OS.locate path root = Some (P, File f) →
  OS.write (path ++ [k]) data root = inl NotADirectoryError.
Proof.
  intros (top & inner & n0 & -> & Hc & E & Hm)%locate_inv.
  unfold OS.write. rewrite (canonical_app _ _ _ _ _ [k] Hc).
  destruct (inner ++ [k]) as [|i rest] eqn:Happ; [by destruct inner|].
  rewrite E. destruct n0 as [f'|sub]; [done|].
  rewrite <- Happ, (store_through_file inner sub f k data Hm). done.
Qed.


(** *** The requests of the script, one by one *)

Lemma os_path_exists_run w :
  os_path_exists icons_dir w
  = (record (PathExists icons_dir) w,
     inr (bool_decide (is_Some (OS.resolve ["icons"] (cwd w))))).
Proof. reflexivity. Qed.

Lemma os_makedirs_run w :
  cwd w !! "icons" = None →
  os_makedirs icons_dir w
  = ({| cwd := <["icons" := Plain (Dir ∅)]> (cwd w); stdout := stdout w;
        calls := calls w ++ [Makedirs icons_dir] |}, inr ()).
Proof.
  intros Hd. unfold os_makedirs. rewrite split_icons_dir.
  cbn [OS.mkdirs record cwd stdout calls]. by rewrite Hd.
Qed.

(** A name that is taken is in the way of the directory, whatever it
    names. *)
Lemma os_makedirs_over w e :
  cwd w !! "icons" = Some e →
  os_makedirs icons_dir w = (record (Makedirs icons_dir) w, inl FileExistsError).
Proof.
  intros Hd. unfold os_makedirs. rewrite split_icons_dir.
  cbn [OS.mkdirs record cwd stdout calls]. by rewrite Hd.
Qed.

Lemma Image_save_run w P d size im :
  size ∈ sizes →
  OS.locate ["icons"] (cwd w) = Some (P, Dir d) →
  (∀ sub, d !! icon_name size ≠ Some (Dir sub)) →
  Image_save im (icon_path size) w
  = ({| cwd := put P (Dir (<[icon_name size := File (PNG im)]> d)) (cwd w);
        stdout := stdout w;
        calls := calls w ++ [Save (icon_path size) im] |}, inr ()).
Proof.
  intros Hsize HP Hw. unfold Image_save. rewrite split_icon_path by done.
  cbn [record cwd stdout calls].
  change ["icons"; icon_name size] with (["icons"] ++ [icon_name size]).
  rewrite (write_located ["icons"] _ P d _ _ HP).
  destruct (d !! icon_name size) as [[f|sub]|] eqn:E; try done.
  by destruct (Hw sub).
Qed.

Lemma Image_save_into_file w P f size im :
  size ∈ sizes →
  OS.locate ["icons"] (cwd w) = Some (P, File f) →
  Image_save im (icon_path size) w
  = (record (Save (icon_path size) im) w, inl NotADirectoryError).
Proof.
  intros Hsize HP. unfold Image_save. rewrite split_icon_path by done.
  cbn [record cwd stdout calls].
  change ["icons"; icon_name size] with (["icons"] ++ [icon_name size]).
  by rewrite (write_through_file ["icons"] _ P f _ _ HP).
Qed.

Lemma Image_save_onto_dir w P d sub size im :
  size ∈ sizes →
  OS.locate ["icons"] (cwd w) = Some (P, Dir d) →
  d !! icon_name size = Some (Dir sub) →
  Image_save im (icon_path size) w
  = (record (Save (icon_path size) im) w, inl IsADirectoryError).
Proof.
  intros Hsize HP Hsub. unfold Image_save. rewrite split_icon_path by done.
  cbn [record cwd stdout calls].
  change ["icons"; icon_name size] with (["icons"] ++ [icon_name size]).
  by rewrite (write_located ["icons"] _ P d _ _ HP), Hsub.
Qed.

Lemma main_unfold :
  main
  = (present <- os_path_exists icons_dir ;;
     (if negb present then os_makedirs icons_dir else done_with ()) ;;;
     for_each sizes loop_body ;;;
     print "All icons created successfully!").
Proof. reflexivity. Qed.

Lemma loop_body_run w P d size :
  size ∈ sizes →
  OS.locate ["icons"] (cwd w) = Some (P, Dir d) →
  (∀ sub, d !! icon_name size ≠ Some (Dir sub)) →
  loop_body size w
  = ({| cwd := put P (Dir (<[icon_name size := File (PNG (create_icon size))]> d))
                 (cwd w);
        stdout := stdout w ++ [progress_line size];
        calls := calls w ++ [Save (icon_path size) (create_icon size);
                             PrintLine (progress_line size)] |}, inr ()).
Proof.
  intros Hsize HP Hw. unfold loop_body, and_then.
  rewrite (Image_save_run w P d size) by done.
  unfold print; simpl. by rewrite <- app_assoc.
Qed.

Lemma loop_body_blocked w P d sub size :
  size ∈ sizes →
  OS.locate ["icons"] (cwd w) = Some (P, Dir d) →
  d !! icon_name size = Some (Dir sub) →
  loop_body size w
  = (record (Save (icon_path size) (create_icon size)) w, inl IsADirectoryError).
Proof.
  intros Hsize HP Hsub. unfold loop_body, and_then.
  by rewrite (Image_save_onto_dir w P d sub size).
Qed.

Lemma icon_names_distinct :
  icon_name 16 ≠ icon_name 48 ∧ icon_name 16 ≠ icon_name 128
  ∧ icon_name 48 ≠ icon_name 128.
Proof. done. Qed.

Lemma icon_names_NoDup : NoDup (icon_name <$> sizes).
Proof.
  destruct icon_names_distinct as (H1 & H2 & H3).
  unfold sizes. rewrite !fmap_cons, fmap_nil.
  apply NoDup_cons. split.
  { rewrite !not_elem_of_cons. split; [done|]. split; [done|]. apply not_elem_of_nil. }
  apply NoDup_cons. split.
  { rewrite !not_elem_of_cons. split; [done|]. apply not_elem_of_nil. }
  apply NoDup_cons. split; [apply not_elem_of_nil|apply NoDup_nil_2].
Qed.

(** *** The loop *)

Lemma saved_sizes_prefix d l : saved_sizes d l `prefix_of` l.
Proof.
  induction l as [|size rest IH]; simpl; [done|].
  destruct (d !! icon_name size) as [[?|?]|];
    try (by apply prefix_cons); apply prefix_nil.
Qed.

Lemma saved_sizes_insert d l k v :
  k ∉ icon_name <$> l → saved_sizes (<[k := v]> d) l = saved_sizes d l.
Proof.
  induction l as [|size rest IH]; simpl; [done|].
  intros Hk. apply not_elem_of_cons in Hk as [Hk Hrest].
  rewrite lookup_insert_ne by done. rewrite IH by done. done.
Qed.

Lemma saved_sizes_all d : saved_sizes d sizes = sizes ↔ targets_writable d = true.
Proof.
  unfold targets_writable, sizes; simpl.
  destruct (d !! icon_name 16) as [[?|?]|]; simpl; try done.
  all: destruct (d !! icon_name 48) as [[?|?]|]; simpl; try done.
  all: destruct (d !! icon_name 128) as [[?|?]|]; simpl; done.
Qed.

Lemma files_of_lookup_None l k :
  k ∉ icon_name <$> l → (list_to_map (files_of l) : gmap string node) !! k = None.
Proof.
  intros Hk. apply not_elem_of_list_to_map_1.
  unfold files_of. rewrite <- list_fmap_compose. done.
Qed.

Lemma files_of_lookup l size :
  NoDup (icon_name <$> l) → size ∈ l →
  (list_to_map (files_of l) : gmap string node) !! icon_name size
  = Some (File (PNG (create_icon size))).
Proof.
  intros Hnd Hsize. apply elem_of_list_to_map_1.
  - unfold files_of. by rewrite <- list_fmap_compose.
  - unfold files_of.
    by apply (list_elem_of_fmap_2
                (λ size, (icon_name size, File (PNG (create_icon size))))).
Qed.

(** The requests of the loop over the sizes [l]. *)
Lemma loop_calls_eq :
  loop_calls
  = [ Save "icons/icon16.png" (create_icon 16); PrintLine "Created icon16.png";
      Save "icons/icon48.png" (create_icon 48); PrintLine "Created icon48.png";
      Save "icons/icon128.png" (create_icon 128); PrintLine "Created icon128.png" ].
Proof. reflexivity. Qed.

(** The loop over any duplicate-free part of [sizes], started where
    [icons] leads to a directory: it saves and announces the sizes up to
    the first blocked target and stops there.  It requests nothing but
    saves and prints. *)
Lemma loop_run_upto l P :
  Forall (λ size, size ∈ sizes) l → NoDup (icon_name <$> l) →
  ∀ w d, OS.locate ["icons"] (cwd w) = Some (P, Dir d) →
  ∃ w' cs,
    for_each l loop_body w
    = (w', if bool_decide (saved_sizes d l = l) then inr ()
           else inl IsADirectoryError)
    ∧ cwd w' = put P (Dir (list_to_map (files_of (saved_sizes d l)) ∪ d)) (cwd w)
    ∧ stdout w' = stdout w ++ (progress_line <$> saved_sizes d l)
    ∧ calls w' = calls w ++ cs
    ∧ Forall (λ c, is_makedirs c = false) cs
    ∧ (saved_sizes d l = l →
       cs = l ≫= λ size, [Save (icon_path size) (create_icon size);
                           PrintLine (progress_line size)]).
Proof.
  induction l as [|size rest IH]; intros Hin Hnd w d Hd.
  - exists w, []. simpl. unfold done_with.
    rewrite (left_id_L ∅ (∪)), (put_id _ _ _ _ Hd).
    by rewrite !app_nil_r.
  - apply Forall_cons in Hin as [Hsize Hin].
    rewrite fmap_cons in Hnd. apply NoDup_cons in Hnd as [Hfresh Hnd].
    cbn [for_each saved_sizes]. unfold and_then.
    destruct (d !! icon_name size) as [[f|sub]|] eqn:E.
    2:{ rewrite (loop_body_blocked w P d sub size) by done.
        eexists _, _. rewrite bool_decide_eq_false_2 by done.
        split; [reflexivity|]. cbn [cwd stdout calls record].
        change (list_to_map (files_of [])) with (∅ : gmap string node).
        rewrite (left_id_L ∅ (∪)), (put_id _ _ _ _ Hd).
        change (progress_line <$> []) with (@nil string).
        rewrite app_nil_r. do 3 (split; [done|]).
        split; [by repeat constructor|done]. }
    all: rewrite (loop_body_run w P d size); [|done|done|by rewrite E].
    all: match goal with
         | |- context [for_each _ loop_body ?w1] =>
             destruct (IH Hin Hnd w1
                         (<[icon_name size := File (PNG (create_icon size))]> d))
               as (w' & cs & Hrun & Hcwd & Hout & Hcalls & Hcs & Hall);
             [by apply (locate_put _ _ _ (Dir d))|]
         end.
    all: rewrite Hrun; rewrite saved_sizes_insert in Hcwd, Hout, Hall |- * by done.
    all: eexists w', _; split; [|split; [|split; [|split; [|split]]]].
    1,7: f_equal;
      rewrite (bool_decide_ext (size :: saved_sizes d rest = size :: rest)
                 (saved_sizes d rest = rest)); [done|];
      split; [by intros [=]|by intros ->].
    1,6: rewrite Hcwd; cbn [cwd]; rewrite put_put;
      do 2 f_equal; unfold files_of; rewrite fmap_cons, list_to_map_cons;
      fold (files_of (saved_sizes d rest));
      rewrite <- insert_union_l; symmetry; apply insert_union_r;
      apply files_of_lookup_None;
      intros Hk; apply Hfresh;
      apply list_elem_of_fmap in Hk as (s & -> & Hs);
      apply list_elem_of_fmap_2;
      (eapply elem_of_prefix; [exact Hs|apply saved_sizes_prefix]).
    1,5: rewrite Hout; cbn [stdout]; by rewrite fmap_cons, <- app_assoc.
    1,4: rewrite Hcalls; cbn [calls]; by rewrite <- app_assoc.
    1,3: apply Forall_app; split; [by repeat constructor|done].
    all: intros [= Heq]; by rewrite (Hall Heq).
Qed.


(** *** The ways a run can go *)

Lemma resolve_located path root P n :
  OS.locate path root = Some (P, n) → OS.resolve path root = Some n.
Proof. intros HP. unfold OS.resolve. by rewrite HP. Qed.

Lemma resolve_None path root :
  OS.resolve path root = None ↔ OS.locate path root = None.
Proof. unfold OS.resolve. by destruct (OS.locate path root). Qed.

Lemma icon_files_eq :
  icon_files
  = [ ("icon16.png", File (PNG (create_icon 16)));
      ("icon48.png", File (PNG (create_icon 48)));
      ("icon128.png", File (PNG (create_icon 128))) ].
Proof. reflexivity. Qed.

Lemma icon_files_lookup size :
  size ∈ sizes →
  (list_to_map icon_files : gmap string node) !! icon_name size
  = Some (File (PNG (create_icon size))).
Proof. intros Hsize. apply (files_of_lookup sizes); [apply icon_names_NoDup|done]. Qed.

Lemma icon_files_writable d : targets_writable (list_to_map icon_files ∪ d) = true.
Proof.
  unfold targets_writable. apply forallb_forall. intros size Hsize.
  apply list_elem_of_In in Hsize.
  by rewrite (lookup_union_Some_l _ _ _ _ (icon_files_lookup size Hsize)).
Qed.

Lemma saved_sizes_icon_files : saved_sizes (list_to_map icon_files) sizes = sizes.
Proof.
  apply saved_sizes_all.
  rewrite <- (right_id_L ∅ (∪) (list_to_map icon_files)).
  apply icon_files_writable.
Qed.

(** [icons] leads to a directory, directly or through links. *)
Lemma main_into_directory w P d :
  OS.locate ["icons"] (cwd w) = Some (P, Dir d) →
  ∃ w' cs,
    main w
    = (w', if bool_decide (saved_sizes d sizes = sizes) then inr ()
           else inl IsADirectoryError)
    ∧ cwd w' = put P (Dir (list_to_map (files_of (saved_sizes d sizes)) ∪ d)) (cwd w)
    ∧ stdout w'
      = stdout w ++ (progress_line <$> saved_sizes d sizes)
          ++ (if bool_decide (saved_sizes d sizes = sizes)
              then ["All icons created successfully!"] else [])
    ∧ calls w' = calls w ++ PathExists icons_dir :: cs
    ∧ Forall (λ c, is_makedirs c = false) cs
    ∧ (saved_sizes d sizes = sizes →
       cs = loop_calls ++ [PrintLine "All icons created successfully!"]).
Proof.
  intros Hd. rewrite main_unfold. unfold and_then at 1 2.
  rewrite os_path_exists_run.
  rewrite bool_decide_eq_true_2 by (rewrite (resolve_located _ _ _ _ Hd); eauto).
  cbn [negb]. unfold done_with, and_then.
  destruct (loop_run_upto sizes P) with (w := record (PathExists icons_dir) w) (d := d)
    as (w1 & cs & Hrun & Hcwd & Hout & Hcalls & Hcs & Hall);
    [by apply Forall_forall|apply icon_names_NoDup|done|].
  rewrite Hrun. cbn [cwd stdout calls record] in Hcwd, Hout, Hcalls.
  case_bool_decide as Hsaved.
  - unfold print. eexists _, _. split; [reflexivity|]. cbn [cwd stdout calls].
    rewrite Hcwd, Hout, Hcalls. rewrite <- !app_assoc.
    do 3 (split; [done|]). split.
    + apply Forall_app. split; [done|by repeat constructor].
    + intros _. by rewrite (Hall Hsaved).
  - exists w1, cs. split; [done|].
    rewrite Hcwd, Hout, Hcalls, app_nil_r. rewrite <- !app_assoc.
    do 3 (split; [done|]). split; [done|]. by intros ?.
Qed.

(** No entry named [icons]: the directory is created and filled. *)
Lemma main_fresh w :
  cwd w !! "icons" = None →
  main w
  = ({| cwd := <["icons" := Plain (Dir (list_to_map icon_files))]> (cwd w);
        stdout := stdout w ++ all_lines;
        calls := calls w ++ [PathExists icons_dir; Makedirs icons_dir] ++ loop_calls
                   ++ [PrintLine "All icons created successfully!"] |}, inr ()).
Proof.
  intros Hd. rewrite main_unfold. unfold and_then at 1 2.
  rewrite os_path_exists_run.
  rewrite bool_decide_eq_false_2
    by (unfold OS.resolve; rewrite (locate_absent _ _ Hd); by intros [? ?]).
  cbn [negb]. rewrite os_makedirs_run by done.
  unfold and_then.
  match goal with
  | |- context [for_each sizes loop_body ?w1] =>
      destruct (loop_run_upto sizes ["icons"]) with (w := w1) (d := (∅ : gmap string node))
        as (w2 & cs & Hrun & Hcwd & Hout & Hcalls & Hcs & Hall);
        [by apply Forall_forall|apply icon_names_NoDup
        |by apply locate_plain, lookup_insert_eq|]
  end.
  assert (saved_sizes ∅ sizes = sizes) as Hsaved by done.
  rewrite Hsaved in Hrun, Hcwd, Hout.
  rewrite Hrun, bool_decide_eq_true_2 by done.
  cbn [cwd stdout calls record] in Hcwd, Hout, Hcalls.
  rewrite (put_top _ (Dir ∅)) in Hcwd by apply lookup_insert_eq.
  rewrite insert_insert_eq, (right_id_L ∅ (∪)) in Hcwd.
  unfold print, all_lines. rewrite Hcwd, Hout, Hcalls, (Hall Hsaved).
  by rewrite <- !app_assoc.
Qed.

(** An entry named [icons] that leads nowhere: a link without a target,
    or caught in a loop.  The check does not see it, the creation does. *)
Lemma main_unresolved w e :
  cwd w !! "icons" = Some e →
  OS.locate ["icons"] (cwd w) = None →
  main w
  = ({| cwd := cwd w; stdout := stdout w;
        calls := calls w ++ [PathExists icons_dir; Makedirs icons_dir] |},
     inl FileExistsError).
Proof.
  intros Hd Hno. rewrite main_unfold. unfold and_then at 1 2.
  rewrite os_path_exists_run.
  rewrite bool_decide_eq_false_2
    by (unfold OS.resolve; rewrite Hno; by intros [? ?]).
  cbn [negb]. rewrite (os_makedirs_over _ e) by done.
  unfold record; cbn [cwd stdout calls]. by rewrite <- app_assoc.
Qed.

(** [icons] leads to a regular file. *)
Lemma main_over_file w P f :
  OS.locate ["icons"] (cwd w) = Some (P, File f) →
  main w
  = ({| cwd := cwd w; stdout := stdout w;
        calls := calls w ++ [PathExists icons_dir;
                             Save (icon_path 16) (create_icon 16)] |},
     inl NotADirectoryError).
Proof.
  intros Hd. rewrite main_unfold. unfold and_then at 1 2.
  rewrite os_path_exists_run.
  rewrite bool_decide_eq_true_2 by (rewrite (resolve_located _ _ _ _ Hd); eauto).
  cbn [negb]. unfold done_with, and_then, sizes. cbn [for_each].
  unfold and_then, loop_body, and_then.
  rewrite (Image_save_into_file _ P f 16); [|apply list_elem_of_here|done].
  unfold record; cbn [cwd stdout calls]. by rewrite <- app_assoc.
Qed.

(** Every run, by what the path [icons] leads to when it starts. *)
Lemma main_outcome w :
  ∃ w' r lines cs,
    main w = (w', r)
    ∧ stdout w' = stdout w ++ lines
    ∧ calls w' = calls w ++ PathExists icons_dir :: cs
    ∧ match cwd w !! "icons", OS.locate ["icons"] (cwd w) with
      | None, _ =>
          r = inr () ∧ lines = all_lines
          ∧ cwd w' = <["icons" := Plain (Dir (list_to_map icon_files))]> (cwd w)
          ∧ cs = Makedirs icons_dir :: loop_calls
                   ++ [PrintLine "All icons created successfully!"]
      | Some _, None =>
          r = inl FileExistsError ∧ lines = [] ∧ cwd w' = cwd w
          ∧ cs = [Makedirs icons_dir]
      | Some _, Some (P, File f) =>
          r = inl NotADirectoryError ∧ lines = [] ∧ cwd w' = cwd w
          ∧ cs = [Save (icon_path 16) (create_icon 16)]
      | Some _, Some (P, Dir d) =>
          r = (if bool_decide (saved_sizes d sizes = sizes) then inr ()
               else inl IsADirectoryError)
          ∧ lines = (progress_line <$> saved_sizes d sizes)
                      ++ (if bool_decide (saved_sizes d sizes = sizes)
                          then ["All icons created successfully!"] else [])
          ∧ cwd w'
            = put P (Dir (list_to_map (files_of (saved_sizes d sizes)) ∪ d)) (cwd w)
          ∧ Forall (λ c, is_makedirs c = false) cs
          ∧ (saved_sizes d sizes = sizes →
             cs = loop_calls ++ [PrintLine "All icons created successfully!"])
      end.
Proof.
  destruct (cwd w !! "icons") as [e|] eqn:E.
  - destruct (OS.locate ["icons"] (cwd w)) as [[P [f|d]]|] eqn:HP.
    + rewrite (main_over_file w P f HP). eexists _, _, [], _.
      split; [reflexivity|]. cbn [cwd stdout calls].
      by rewrite app_nil_r.
    + destruct (main_into_directory w P d HP)
        as (w' & cs & Hrun & Hcwd & Hout & Hcalls & Hcs & Hall).
      rewrite Hrun. by eexists _, _, _, _.
    + rewrite (main_unresolved w e E HP). eexists _, _, [], _.
      split; [reflexivity|]. cbn [cwd stdout calls].
      by rewrite app_nil_r.
  - rewrite (main_fresh w E). eexists _, _, _, _.
    split; [reflexivity|]. by cbn [cwd stdout calls].
Qed.

Lemma new_calls_run w w' r cs :
  main w = (w', r) → calls w' = calls w ++ cs → new_calls w = cs.
Proof.
  intros Hrun Hcs. unfold new_calls. rewrite Hrun; simpl.
  by rewrite Hcs, drop_app_length.
Qed.

Lemma new_lines_run w w' r lines :
  main w = (w', r) → stdout w' = stdout w ++ lines → new_lines w = lines.
Proof.
  intros Hrun Hout. unfold new_lines. rewrite Hrun; simpl.
  by rewrite Hout, drop_app_length.
Qed.

Lemma create_icon_mode_size size :
  mode (create_icon size) = "RGBA"
  ∧ xsize (create_icon size) = size ∧ ysize (create_icon size) = size.
Proof.
  pose proof (create_icon_frame size) as Hf. unfold frame in Hf.
  by injection Hf as Hm Hx Hy _.
Qed.

Lemma loop_calls_no_makedirs : Forall (λ c, is_makedirs c = false) loop_calls.
Proof. rewrite loop_calls_eq. repeat constructor. Qed.


Lemma saves_loop_calls (before after : list call) :
  saves before = [] → saves after = [] →
  saves (before ++ loop_calls ++ after)
  = (λ size, (icon_path size, create_icon size)) <$> sizes.
Proof.
  intros Hb Ha. unfold saves in *.
  rewrite !omap_app, Hb, Ha, loop_calls_eq. reflexivity.
Qed.

Lemma union_twice (l d : gmap string node) : l ∪ (l ∪ d) = l ∪ d.
Proof. by rewrite (assoc_L (∪)), (idemp_L (∪)). Qed.

Lemma put_is_Some P n' root name :
  is_Some (root !! name) → is_Some (put P n' root !! name).
Proof.
  destruct P as [|top inner]; simpl; [done|].
  destruct (root !! top) as [[n0|t0]|] eqn:E; try done.
  destruct (decide (name = top)) as [->|Hne].
  - rewrite lookup_insert_eq. eauto.
  - by rewrite lookup_insert_ne.
Qed.

(** After a run that ends normally every icon path leads to its icon. *)
Lemma icons_in_place w w' :
  main w = (w', inr ()) →
  ∃ P D,
    OS.locate ["icons"] (cwd w') = Some (P, Dir (list_to_map icon_files ∪ D))
    ∧ is_Some (cwd w' !! "icons")
    ∧ ∀ size, size ∈ sizes →
        OS.resolve (OS.split_path (icon_path size)) (cwd w')
        = Some (File (PNG (create_icon size))).
Proof.
  intros Hrun.
  destruct (main_outcome w) as (w1 & r & lines & cs & Hrun1 & _ & _ & Hcase).
  rewrite Hrun in Hrun1. injection Hrun1 as <- <-.
  assert (∀ P D, OS.locate ["icons"] (cwd w') = Some (P, Dir (list_to_map icon_files ∪ D))
                 → ∀ size, size ∈ sizes →
                     OS.resolve (OS.split_path (icon_path size)) (cwd w')
                     = Some (File (PNG (create_icon size)))) as Hfiles.
  { intros P D HP size Hsize. rewrite split_icon_path by done.
    change ["icons"; icon_name size] with (["icons"] ++ [icon_name size]).
    rewrite (resolve_child _ _ _ _ _ HP).
    apply lookup_union_Some_l. by apply icon_files_lookup. }
  destruct (cwd w !! "icons") as [e|] eqn:E.
  - destruct (OS.locate ["icons"] (cwd w)) as [[P [f|d]]|] eqn:HP;
      try (by destruct Hcase as ([=] & _)).
    destruct Hcase as (Hr & _ & Hcwd & _).
    case_bool_decide as Hsaved; [|done].
    rewrite Hsaved in Hcwd. change (files_of sizes) with icon_files in Hcwd.
    assert (OS.locate ["icons"] (cwd w') = Some (P, Dir (list_to_map icon_files ∪ d)))
      as HP' by (rewrite Hcwd; by apply (locate_put _ _ _ (Dir d))).
    exists P, d. split; [done|]. split; [|by apply (Hfiles P d)].
    rewrite Hcwd. apply put_is_Some. by rewrite E.
  - destruct Hcase as (_ & _ & Hcwd & _).
    assert (OS.locate ["icons"] (cwd w')
            = Some (["icons"], Dir (list_to_map icon_files ∪ ∅))) as HP'.
    { rewrite Hcwd, (right_id_L ∅ (∪)). apply locate_plain, lookup_insert_eq. }
    exists ["icons"], ∅. split; [done|]. split; [|by apply (Hfiles ["icons"] ∅)].
    rewrite Hcwd, lookup_insert_eq. eauto.
Qed.

(** A run that ends normally requested the three saves, in order. *)
Lemma saves_of_run w w' :
  main w = (w', inr ()) →
  saves (new_calls w) = (λ size, (icon_path size, create_icon size)) <$> sizes.
Proof.
  intros Hrun.
  destruct (main_outcome w) as (w1 & r & lines & cs & Hrun1 & _ & Hcalls & Hcase).
  rewrite (new_calls_run _ _ _ _ Hrun1 Hcalls).
  rewrite Hrun in Hrun1. injection Hrun1 as <- <-.
  destruct (cwd w !! "icons") as [e|] eqn:E.
  - destruct (OS.locate ["icons"] (cwd w)) as [[P [f|d]]|] eqn:HP;
      try (by destruct Hcase as ([=] & _)).
    destruct Hcase as (Hr & _ & _ & _ & Hall).
    case_bool_decide as Hsaved; [|done]. rewrite (Hall Hsaved).
    by apply (saves_loop_calls [PathExists icons_dir]).
  - destruct Hcase as (_ & _ & _ & ->).
    by apply (saves_loop_calls [PathExists icons_dir; Makedirs icons_dir]).
Qed.

(** A run that starts where the icons are in place ends normally and
    changes nothing. *)
Lemma main_again w P D :
  is_Some (cwd w !! "icons") →
  OS.locate ["icons"] (cwd w) = Some (P, Dir (list_to_map icon_files ∪ D)) →
  ∃ w', main w = (w', inr ()) ∧ cwd w' = cwd w.
Proof.
  intros [e E] HP.
  destruct (main_into_directory w P _ HP)
    as (w' & cs & Hrun & Hcwd & _).
  assert (saved_sizes (list_to_map icon_files ∪ D) sizes = sizes) as Hsaved
    by apply saved_sizes_all, icon_files_writable.
  rewrite Hsaved, bool_decide_eq_true_2 in Hrun by done.
  rewrite Hsaved in Hcwd. change (files_of sizes) with icon_files in Hcwd.
  exists w'. split; [done|].
  rewrite Hcwd, union_twice. by apply (put_id ["icons"]).
Qed.


(** C4.  Started where no [icons] entry exists, the driver succeeds and
    creates the directory with exactly three files in it, [icon16.png],
    [icon48.png] and [icon128.png], saved in that order, each the RGBA
    canvas of the size in its name; it prints three progress lines and
    then the completion line. *)
Theorem first_run w :
  cwd w !! icons_dir = None →
  ∃ w',
    main w = (w', inr ())
    ∧ cwd w' = <["icons" := Plain (Dir (list_to_map icon_files))]> (cwd w)
    ∧ icon_files
      = [ ("icon16.png", File (PNG (create_icon 16)));
          ("icon48.png", File (PNG (create_icon 48)));
          ("icon128.png", File (PNG (create_icon 128))) ]
    ∧ dom (list_to_map icon_files : gmap string node)
      = ({[ "icon16.png"; "icon48.png"; "icon128.png" ]} : gset string)
    ∧ Forall (λ size, mode (create_icon size) = "RGBA"
                      ∧ xsize (create_icon size) = size
                      ∧ ysize (create_icon size) = size) sizes
    ∧ stdout w'
      = stdout w ++ [ "Created icon16.png"; "Created icon48.png";
                      "Created icon128.png"; "All icons created successfully!" ]
    ∧ new_calls w
      = [ PathExists "icons"; Makedirs "icons";
          Save "icons/icon16.png" (create_icon 16); PrintLine "Created icon16.png";
          Save "icons/icon48.png" (create_icon 48); PrintLine "Created icon48.png";
          Save "icons/icon128.png" (create_icon 128); PrintLine "Created icon128.png";
          PrintLine "All icons created successfully!" ].
Proof.
  intros Hd. pose proof (main_fresh w Hd) as Hrun.
  eexists. split; [exact Hrun|]. cbn [cwd stdout].
  split; [done|]. split; [apply icon_files_eq|].
  split.
  { rewrite icon_files_eq. simpl.
    rewrite !dom_insert_L, dom_empty_L. set_solver. }
  split.
  { unfold sizes. repeat constructor; apply create_icon_mode_size. }
  split; [done|].
  rewrite (new_calls_run _ _ _ _ Hrun eq_refl).
  by rewrite loop_calls_eq.
Qed.

Lemma first_run_from_nothing :
  cwd empty_world !! icons_dir = None
  ∧ ∃ w',
      main empty_world = (w', inr ())
      ∧ cwd w' = <["icons" := Plain (Dir (list_to_map icon_files))]> (cwd empty_world)
      ∧ icon_files
        = [ ("icon16.png", File (PNG (create_icon 16)));
            ("icon48.png", File (PNG (create_icon 48)));
            ("icon128.png", File (PNG (create_icon 128))) ]
      ∧ dom (list_to_map icon_files : gmap string node)
        = ({[ "icon16.png"; "icon48.png"; "icon128.png" ]} : gset string)
      ∧ Forall (λ size, mode (create_icon size) = "RGBA"
                        ∧ xsize (create_icon size) = size
                        ∧ ysize (create_icon size) = size) sizes
      ∧ stdout w'
        = stdout empty_world
            ++ [ "Created icon16.png"; "Created icon48.png";
                 "Created icon128.png"; "All icons created successfully!" ]
      ∧ new_calls empty_world
        = [ PathExists "icons"; Makedirs "icons";
            Save "icons/icon16.png" (create_icon 16); PrintLine "Created icon16.png";
            Save "icons/icon48.png" (create_icon 48); PrintLine "Created icon48.png";
            Save "icons/icon128.png" (create_icon 128); PrintLine "Created icon128.png";
            PrintLine "All icons created successfully!" ].
Proof. split; [reflexivity | apply (first_run empty_world); reflexivity]. Defined.

(** C6.  [create_icon] is a function of [size] alone, and the driver
    saves its value for the same three sizes on every run.  Whenever a
    run ends normally, each of the three paths then leads to a file that
    holds the canvas of its size, whatever was there before; a second
    run right after it ends normally too, requests the same saves of
    the same canvases under the same paths, leaves each path with the
    same content again, and leaves the working directory exactly as the
    first run left it. *)
Theorem rerun_identical w :
  (main w).2 = inr () →
  ∃ w1 w2,
    main w = (w1, inr ())
    ∧ main w1 = (w2, inr ())
    ∧ Forall (λ size,
                OS.resolve (OS.split_path (icon_path size)) (cwd w1)
                = Some (File (PNG (create_icon size)))
                ∧ OS.resolve (OS.split_path (icon_path size)) (cwd w2)
                  = Some (File (PNG (create_icon size)))) sizes
    ∧ cwd w2 = cwd w1
    ∧ saves (new_calls w) = (λ size, (icon_path size, create_icon size)) <$> sizes
    ∧ saves (new_calls w1) = saves (new_calls w).
Proof.
  intros Hok.
  destruct (main w) as [w1 r] eqn:Hrun. simpl in Hok. subst r.
  destruct (icons_in_place w w1 Hrun) as (P & D & HP & Hsome & Hfiles).
  destruct (main_again w1 P D Hsome HP) as (w2 & Hrun2 & Hcwd2).
  exists w1, w2. split; [done|]. split; [done|].
  split.
  { apply Forall_forall. intros size Hsize. rewrite Hcwd2. split; by apply Hfiles. }
  split; [done|].
  rewrite (saves_of_run w1 w2 Hrun2), (saves_of_run w w1 Hrun). done.
Qed.

Lemma rerun_identical_over_stale_files :
  (main stale_world).2 = inr ()
  ∧ ∃ w1 w2,
      main stale_world = (w1, inr ())
      ∧ main w1 = (w2, inr ())
      ∧ Forall (λ size,
                  OS.resolve (OS.split_path (icon_path size)) (cwd w1)
                  = Some (File (PNG (create_icon size)))
                  ∧ OS.resolve (OS.split_path (icon_path size)) (cwd w2)
                    = Some (File (PNG (create_icon size)))) sizes
      ∧ cwd w2 = cwd w1
      ∧ saves (new_calls stale_world)
        = (λ size, (icon_path size, create_icon size)) <$> sizes
      ∧ saves (new_calls w1) = saves (new_calls stale_world).
Proof.
  split; [reflexivity | apply (rerun_identical stale_world); reflexivity].
Defined.







(** Over a regular file named [icons] the run ends at the first save. *)
Example run_over_regular_file :
  ∀ f, main {| cwd := {[ "icons" := Plain (File f) ]}; stdout := []; calls := [] |}
       = ({| cwd := {[ "icons" := Plain (File f) ]}; stdout := [];
             calls := [PathExists "icons";
                       Save "icons/icon16.png" (create_icon 16)] |},
          inl NotADirectoryError).
Proof.
  intros f. rewrite (main_over_file _ ["icons"] f); [done|].
  apply locate_plain. apply lookup_singleton_eq.
Qed.

(** Through a link named [icons] the icons land in the directory the
    link leads to. *)
Example run_through_link :
  (main linked_world).2 = inr ()
  ∧ cwd (main linked_world).1
    = {[ "icons" := Link "out"; "out" := Plain (Dir (list_to_map icon_files)) ]}.
Proof.
  assert (OS.locate ["icons"] (cwd linked_world) = Some (["out"], Dir ∅)) as HP
    by reflexivity.
  destruct (main_into_directory linked_world _ _ HP) as (w' & cs & Hrun & Hcwd & _).
  rewrite Hrun. cbn [fst snd]. split; [done|].
  rewrite Hcwd. change (saved_sizes ∅ sizes) with sizes.
  change (files_of sizes) with icon_files. rewrite (right_id_L ∅ (∪)).
  unfold linked_world; cbn [cwd put].
  rewrite lookup_insert_ne by done. rewrite lookup_singleton_eq.
  cbn [plant].
  rewrite (insert_insert_ne _ "out" "icons") by done.
  by rewrite insert_singleton_eq.
Qed.

End Driver.
(** ** Every run of the driver *)

Section DriverOutcomes.

Implicit Types (w : world) (d : gmap string node) (size : Z) (l : list Z).

Arguments create_icon : simpl never.

Lemma resolve_icon_path size (c : gmap string entry) P d :
  size ∈ sizes → OS.locate ["icons"] c = Some (P, Dir d) →
  OS.resolve (OS.split_path (icon_path size)) c = d !! icon_name size.
Proof.
  intros Hsize Hc. rewrite split_icon_path by done.
  change ["icons"; icon_name size] with (["icons"] ++ [icon_name size]).
  by rewrite (resolve_child _ _ _ _ _ Hc).
Qed.

Lemma progress_line_inj size size' :
  size ∈ sizes → size' ∈ sizes → progress_line size = progress_line size' →
  size = size'.
Proof.
  unfold sizes. intros H1 H2.
  repeat (apply elem_of_cons in H1 as [->|H1]); [..|by apply elem_of_nil in H1].
  all: repeat (apply elem_of_cons in H2 as [->|H2]); [..|by apply elem_of_nil in H2].
  all: done.
Qed.

Lemma progress_line_not_last size :
  size ∈ sizes → progress_line size ≠ "All icons created successfully!".
Proof.
  unfold sizes. intros H1.
  repeat (apply elem_of_cons in H1 as [->|H1]); [..|by apply elem_of_nil in H1].
  all: done.
Qed.

(** X7.  A run that finds [icons] to be a directory, whatever it holds.
    The loop saves the icons in order until a target name is itself a
    directory; that save raises [IsADirectoryError] and ends the run.
    The icons saved before it stay in place beside what the directory
    held, their progress lines and no others are printed, and the
    completion line is printed only if all three were saved, which is
    the case exactly when no target name is a directory. *)
Theorem run_into_directory w d :
  cwd w !! icons_dir = Some (Plain (Dir d)) →
  (main w).2 = (if bool_decide (saved_sizes d sizes = sizes) then inr ()
                else inl IsADirectoryError)
  ∧ cwd (main w).1
    = <[icons_dir := Plain (Dir (list_to_map (files_of (saved_sizes d sizes)) ∪ d))]>
        (cwd w)
  ∧ new_lines w
    = (progress_line <$> saved_sizes d sizes)
        ++ (if bool_decide (saved_sizes d sizes = sizes)
            then ["All icons created successfully!"] else [])
  ∧ saved_sizes d sizes `prefix_of` sizes
  ∧ (saved_sizes d sizes = sizes ↔ targets_writable d = true).
Proof.
  intros Hd.
  destruct (main_into_directory w ["icons"] d (locate_plain _ _ _ Hd))
    as (w' & cs & Hrun & Hcwd & Hout & Hcalls & _).
  rewrite (new_lines_run w w' _ _ Hrun Hout). rewrite Hrun. cbn [fst snd].
  rewrite (put_top _ _ _ _ Hd) in Hcwd.
  split; [done|]. split; [done|]. split; [done|].
  split; [apply saved_sizes_prefix|apply saved_sizes_all].
Qed.

Lemma run_into_directory_blocked_at_48 :
  cwd blocked_world !! icons_dir = Some (Plain (Dir {[ "icon48.png" := Dir ∅ ]}))
  ∧ (main blocked_world).2
    = (if bool_decide (saved_sizes {[ "icon48.png" := Dir ∅ ]} sizes = sizes)
       then inr () else inl IsADirectoryError)
  ∧ cwd (main blocked_world).1
    = <[icons_dir :=
          Plain (Dir (list_to_map (files_of (saved_sizes {[ "icon48.png" := Dir ∅ ]} sizes))
                      ∪ {[ "icon48.png" := Dir ∅ ]}))]> (cwd blocked_world)
  ∧ new_lines blocked_world
    = (progress_line <$> saved_sizes {[ "icon48.png" := Dir ∅ ]} sizes)
        ++ (if bool_decide (saved_sizes {[ "icon48.png" := Dir ∅ ]} sizes = sizes)
            then ["All icons created successfully!"] else [])
  ∧ saved_sizes {[ "icon48.png" := Dir ∅ ]} sizes `prefix_of` sizes
  ∧ (saved_sizes {[ "icon48.png" := Dir ∅ ]} sizes = sizes
     ↔ targets_writable {[ "icon48.png" := Dir ∅ ]} = true).
Proof.
  split; [reflexivity|].
  apply (run_into_directory blocked_world {[ "icon48.png" := Dir ∅ ]}).
  reflexivity.
Defined.


(** X9.  The output tells the truth, in every starting state.  If the
    progress line of a size was printed, the path [icons/icon<size>.png]
    holds the rendered icon of that size when the run ends.  The
    completion line is printed exactly when the run ends without an
    exception, and the output of such a run is the three progress
    lines in order followed by the completion line. *)
Theorem progress_lines_truthful w size :
  size ∈ sizes →
  (progress_line size ∈ new_lines w →
   OS.resolve (OS.split_path (icon_path size)) (cwd (main w).1)
   = Some (File (PNG (create_icon size))))
  ∧ ("All icons created successfully!" ∈ new_lines w ↔ (main w).2 = inr ())
  ∧ ((main w).2 = inr () → new_lines w = all_lines).
Proof.
  intros Hsize.
  destruct (main_outcome w) as (w' & r & lines & cs & Hrun & Hout & Hcalls & Hcase).
  rewrite (new_lines_run w w' r lines Hrun Hout). rewrite Hrun. cbn [fst snd].
  destruct (cwd w !! "icons") as [e|] eqn:E.
  - destruct (OS.locate ["icons"] (cwd w)) as [[P [f|d]]|] eqn:HP.
    + destruct Hcase as (-> & -> & -> & _).
      split; [by intros ?%elem_of_nil|]. split; [|done].
      split; [by intros ?%elem_of_nil|done].
    + destruct Hcase as (-> & -> & Hcwd & _).
      pose proof (saved_sizes_prefix d sizes) as Hpre.
      assert (NoDup (icon_name <$> saved_sizes d sizes)) as Hnd.
      { destruct Hpre as [k Hk].
        pose proof icon_names_NoDup as H. rewrite Hk, fmap_app in H.
        by apply NoDup_app in H as [H _]. }
      split; [|split].
      * intros Hin.
        assert (size ∈ saved_sizes d sizes) as Hsaved.
        { apply elem_of_app in Hin as [Hin|Hin].
          - apply list_elem_of_fmap in Hin as (s & Heq & Hs).
            assert (s ∈ sizes) as Hs' by (by eapply elem_of_prefix).
            by rewrite (progress_line_inj size s Hsize Hs' Heq).
          - case_bool_decide; [|by apply elem_of_nil in Hin].
            apply list_elem_of_singleton in Hin.
            by apply progress_line_not_last in Hin. }
        rewrite (resolve_icon_path size _ P _ Hsize)
          by (rewrite Hcwd; by apply (locate_put _ _ _ (Dir d))).
        apply lookup_union_Some_l. by apply files_of_lookup.
      * case_bool_decide as Hall.
        -- split; [done|]. intros _. apply elem_of_app; right.
           apply list_elem_of_here.
        -- split; [|done]. rewrite app_nil_r.
           intros (s & Heq & Hs)%list_elem_of_fmap.
           assert (s ∈ sizes) as Hs' by (by eapply elem_of_prefix).
           symmetry in Heq. by apply progress_line_not_last in Heq.
      * case_bool_decide as Hall; [|done]. intros _. by rewrite Hall.
    + destruct Hcase as (-> & -> & -> & _).
      split; [by intros ?%elem_of_nil|]. split; [|done].
      split; [by intros ?%elem_of_nil|done].
  - destruct Hcase as (-> & -> & Hcwd & _).
    split; [|split; [|done]].
    + intros _.
      rewrite (resolve_icon_path size _ ["icons"] _ Hsize)
        by (rewrite Hcwd; apply locate_plain, lookup_insert_eq).
      by apply icon_files_lookup.
    + split; [done|]. intros _. unfold all_lines. apply elem_of_app; right.
      apply list_elem_of_here.
Qed.

Lemma progress_lines_truthful_from_nothing :
  16 ∈ sizes
  ∧ (progress_line 16 ∈ new_lines empty_world →
     OS.resolve (OS.split_path (icon_path 16)) (cwd (main empty_world).1)
     = Some (File (PNG (create_icon 16))))
  ∧ ("All icons created successfully!" ∈ new_lines empty_world
     ↔ (main empty_world).2 = inr ())
  ∧ ((main empty_world).2 = inr () → new_lines empty_world = all_lines).
Proof.
  split; [apply list_elem_of_here|].
  apply (progress_lines_truthful empty_world 16). apply list_elem_of_here.
Defined.

Lemma saved_sizes_ext d d' l :
  (∀ size, size ∈ l →
     (∃ sub, d !! icon_name size = Some (Dir sub))
     ↔ (∃ sub, d' !! icon_name size = Some (Dir sub))) →
  saved_sizes d l = saved_sizes d' l.
Proof.
  induction l as [|size rest IH]; intros Hext; [done|].
  cbn [saved_sizes].
  rewrite IH by (intros s Hs; apply Hext; by apply list_elem_of_further).
  specialize (Hext size (list_elem_of_here _ _)).
  destruct (d !! icon_name size) as [[f|sub]|], (d' !! icon_name size) as [[f'|sub']|];
    try done.
  all: try (by destruct Hext as [[? [=]] _]; eauto).
  all: by destruct Hext as [_ [? [=]]]; eauto.
Qed.

(** Saving does not change which targets are blocked: a saved target
    was not a directory and is a file afterwards. *)
Lemma saved_sizes_after d :
  saved_sizes (list_to_map (files_of (saved_sizes d sizes)) ∪ d) sizes
  = saved_sizes d sizes.
Proof.
  pose proof (saved_sizes_prefix d sizes) as Hpre.
  assert (NoDup (icon_name <$> saved_sizes d sizes)) as Hnd.
  { destruct Hpre as [k Hk].
    pose proof icon_names_NoDup as H. rewrite Hk, fmap_app in H.
    by apply NoDup_app in H as [H _]. }
  apply saved_sizes_ext. intros size Hsize.
  destruct (decide (size ∈ saved_sizes d sizes)) as [Hin|Hout].
  - rewrite (lookup_union_Some_l _ _ _ _ (files_of_lookup _ size Hnd Hin)).
    split; [by intros [? [=]]|].
    intros [sub Hsub]. exfalso. revert Hin Hsub. clear.
    generalize sizes. intros l. induction l as [|s rest IH]; simpl.
    + by intros ?%elem_of_nil.
    + destruct (d !! icon_name s) as [[f|sub']|] eqn:E.
      * intros [->|Hin]%elem_of_cons; [congruence|by apply IH].
      * by intros ?%elem_of_nil.
      * intros [->|Hin]%elem_of_cons; [congruence|by apply IH].
  - rewrite lookup_union_r; [done|].
    apply files_of_lookup_None. intros Hk.
    apply list_elem_of_fmap in Hk as (s & Heq & Hs).
    assert (s ∈ sizes) as Hs' by (by eapply elem_of_prefix).
    assert (size = s) as ->; [|done].
    revert Hsize Hs' Heq. unfold sizes. clear. intros H1 H2.
    repeat (apply elem_of_cons in H1 as [->|H1]); [..|by apply elem_of_nil in H1].
    all: repeat (apply elem_of_cons in H2 as [->|H2]); [..|by apply elem_of_nil in H2].
    all: done.
Qed.

(** X11.  A second run repeats the first, in every starting state.
    Started again in the state a run left, the script ends the same
    way (normally, or with the same exception), prints the same lines,
    and leaves the working directory as it found it: also when the
    first run was stopped by a blocked target or by an [icons] that is
    a regular file. *)
Theorem rerun_same_outcome w :
  (main (main w).1).2 = (main w).2
  ∧ cwd (main (main w).1).1 = cwd (main w).1
  ∧ new_lines (main w).1 = new_lines w.
Proof.
  destruct (main_outcome w) as (w1 & r & lines & cs & Hrun & Hout & Hcalls & Hcase).
  destruct (main_outcome w1)
    as (w2 & r2 & lines2 & cs2 & Hrun2 & Hout2 & Hcalls2 & Hcase2).
  rewrite (new_lines_run w w1 r lines Hrun Hout). rewrite Hrun. cbn [fst snd].
  rewrite (new_lines_run w1 w2 r2 lines2 Hrun2 Hout2). rewrite Hrun2. cbn [fst snd].
  destruct (cwd w !! "icons") as [e|] eqn:E.
  - destruct (OS.locate ["icons"] (cwd w)) as [[P [f|d]]|] eqn:HP.
    + destruct Hcase as (-> & -> & Hcwd & _). rewrite Hcwd, E, HP in Hcase2.
      by destruct Hcase2 as (-> & -> & -> & _).
    + destruct Hcase as (-> & -> & Hcwd & _).
      assert (is_Some (cwd w1 !! "icons")) as [e1 E1]
        by (rewrite Hcwd; apply put_is_Some; by rewrite E).
      rewrite E1 in Hcase2.
      rewrite Hcwd, (locate_put _ _ _ (Dir d) _ HP) in Hcase2.
      rewrite saved_sizes_after in Hcase2.
      destruct Hcase2 as (-> & -> & -> & _).
      split; [done|]. split; [|done].
      by rewrite put_put, union_twice.
    + destruct Hcase as (-> & -> & Hcwd & _). rewrite Hcwd, E, HP in Hcase2.
      by destruct Hcase2 as (-> & -> & -> & _).
  - destruct Hcase as (-> & -> & Hcwd & _).
    rewrite Hcwd, lookup_insert_eq in Hcase2.
    rewrite (locate_plain _ "icons" (Dir (list_to_map icon_files)))
      in Hcase2 by apply lookup_insert_eq.
    rewrite saved_sizes_icon_files in Hcase2.
    rewrite bool_decide_eq_true_2 in Hcase2 by done.
    destruct Hcase2 as (-> & -> & -> & _).
    split; [done|]. split; [|done].
    rewrite (put_top _ (Dir (list_to_map icon_files))) by apply lookup_insert_eq.
    rewrite insert_insert_eq, Hcwd.
    change (files_of sizes) with icon_files. by rewrite (idemp_L (∪)).
Qed.

End DriverOutcomes.

(** ** Cross-checks by evaluation *)

Section CrossCheck.

(** The decimal literals of the script have the same value in [B64] and
    on the machine. *)
Example literals_agree :
  Forall (λ '(n, k), Hardware.hw_value (Hardware.hw_literal n k) = B64.literal n k)
         [(15, 2%nat); (2, 1%nat); (8, 1%nat); (3, 1%nat); (5, 1%nat); (7, 1%nat)].
Proof. repeat constructor; vm_compute; reflexivity. Qed.

(** For every size from 1 to 64, and for the three sizes the script
    renders, all geometry and all gradient rows computed with [B64] are
    those the machine computes. *)
Example hardware_agrees :
  forallb agrees_with_hardware (seqZ 1 64 ++ sizes) = true.
Proof. vm_compute. reflexivity. Qed.

(** On the three rendered sizes the gradient is the exact floor of the
    interpolation: no rounding error reaches the integer part. *)
Example gradient_is_floor_on_sizes :
  forallb (λ size,
             forallb (λ y, bool_decide (gradient size y = gradient_floor size y))
                     (seqZ 0 size))
          sizes = true.
Proof. vm_compute. reflexivity. Qed.

End CrossCheck.
